(** * mongoose-dynamic-schemas: path validation, path resolution and the
      schema-mutating operations

    A shallow embedding of the module (the version that validates paths and
    re-applies defaults) together with the properties of its specification.
    The module [Index] embeds [index.js], the version of the library without
    validation, with its own resolver and operations.

    JavaScript strings are [string]; the values stored in schema trees and in
    documents are the inductive [JS]; a promise is represented by the ordered
    list of the calls made to its [resolve] and [reject] functions, the first
    of which settles it. *)

From Stdlib Require Import String Ascii List Bool ZArith Lia Arith.
Import ListNotations.
Open Scope list_scope.
Open Scope string_scope.

(** ** JavaScript string primitives *)

Module JSString.

(** [s.charAt(i)]: the one-character string at index [i], or the empty
    string when [i] is out of range (in particular when it is negative). *)
Definition charAt (s : string) (i : Z) : string :=
  if (i <? 0)%Z then ""
  else match String.get (Z.to_nat i) s with
       | Some c => String c ""
       | None => ""
       end.

(** [s.length] *)
Definition length (s : string) : Z := Z.of_nat (String.length s).

(** [s.startsWith(p)] *)
Fixpoint startsWith (p s : string) : bool :=
  match p, s with
  | EmptyString, _ => true
  | String a p', String b s' => if Ascii.eqb a b then startsWith p' s' else false
  | String _ _, EmptyString => false
  end.

(** [s.includes(sub)] *)
Fixpoint includes (s sub : string) : bool :=
  if startsWith sub s then true
  else match s with
       | EmptyString => false
       | String _ s' => includes s' sub
       end.

(** Removes the first [n] characters. *)
Fixpoint drop (n : nat) (s : string) : string :=
  match n, s with
  | O, _ => s
  | S n', String _ s' => drop n' s'
  | S _, EmptyString => EmptyString
  end.

(** [s.replace(pat, rep)] with a string pattern: only the FIRST occurrence
    of [pat] is replaced. *)
Fixpoint replace (s pat rep : string) : string :=
  if startsWith pat s then rep ++ drop (String.length pat) s
  else match s with
       | EmptyString => EmptyString
       | String c s' => String c (replace s' pat rep)
       end.

(** [s.split('.')], written with the segment read so far as accumulator. *)
Fixpoint split_aux (sep : ascii) (acc s : string) : list string :=
  match s with
  | EmptyString => [acc]
  | String c s' =>
      if Ascii.eqb c sep then acc :: split_aux sep "" s'
      else split_aux sep (acc ++ String c "") s'
  end.

Definition split (sep : ascii) (s : string) : list string :=
  split_aux sep "" s.

(** [arr.join(sep)] *)
Fixpoint join (sep : string) (l : list string) : string :=
  match l with
  | [] => ""
  | [x] => x
  | x :: rest => x ++ sep ++ join sep rest
  end.

End JSString.

Definition dot : ascii := "."%char.

(** ** Path Validator *)

(** [pathIsValid(path)]:
    [!((path.charAt(0) === '.') || (path.charAt(path.length - 1) === '.') ||
       path.includes('..') || path.includes('$'))] *)
Definition pathIsValid (path : string) : bool :=
  negb ((JSString.charAt path 0 =? ".")
        || (JSString.charAt path (JSString.length path - 1) =? ".")
        || JSString.includes path ".."
        || JSString.includes path "$").

(** The four reasons of rejection, as the specification words them. *)
Definition starts_with_separator (p : string) : Prop := exists t, p = "." ++ t.
Definition ends_with_separator (p : string) : Prop := exists t, p = t ++ ".".
Definition contains (sub p : string) : Prop := exists a b, p = a ++ sub ++ b.
Definition has_consecutive_separators (p : string) : Prop := contains ".." p.
Definition has_reserved_character (p : string) : Prop := contains "$" p.


(** ** JavaScript values

    The values found in schema trees (field definitions) and in documents.
    [JFun] is a constructor function such as [String] or [Number]; the own
    properties of functions and of primitive values ([length], [name], string
    indices) are not modelled: they are values without properties.  An array
    is the list of its elements: its [length] and the properties it may be
    given under a name or under a number that is no index are not modelled.
    The properties below that depend on it are stated for paths whose
    segments are no number keys and for fields held by objects. *)

#[warnings="-register-all"]
Inductive JS : Type :=
| JUndefined
| JNull
| JBool (b : bool)
| JNum (n : Z)
| JStr (s : string)
| JFun (name : string)
| JObj (fields : list (string * JS))
| JArr (elems : list JS).

(** [v === undefined] *)
Definition isUndefined (v : JS) : bool :=
  match v with JUndefined => true | _ => false end.

(** [v == undefined] (loose equality: true of [undefined] and of [null]). *)
Definition looseUndefined (v : JS) : bool :=
  match v with JUndefined | JNull => true | _ => false end.

(** Truthiness of a value in a condition. *)
Definition truthy (v : JS) : bool :=
  match v with
  | JUndefined | JNull | JBool false | JStr EmptyString => false
  | JNum n => negb (n =? 0)%Z
  | _ => true
  end.

(** Errors: a rejection reason given as a string, the exceptions the
    language raises, and a failure reported by the document store. *)
Inductive Err : Type :=
| Reason (msg : string)
| ReferenceError (msg : string)
| TypeError (msg : string)
| StoreUnavailable (msg : string).

(** Association lists standing for the own enumerable properties of an
    object, in insertion order. *)
Section Assoc.
Context {A : Type}.

Fixpoint assoc (k : string) (l : list (string * A)) : option A :=
  match l with
  | [] => None
  | (k', v) :: l' => if k' =? k then Some v else assoc k l'
  end.

(** [obj[k] = v]: an existing property keeps its place, a new one comes
    last. *)
Fixpoint assign (k : string) (v : A) (l : list (string * A)) : list (string * A) :=
  match l with
  | [] => [(k, v)]
  | (k', v') :: l' => if k' =? k then (k', v) :: l' else (k', v') :: assign k v l'
  end.

(** [delete obj[k]] *)
Fixpoint remove_key (k : string) (l : list (string * A)) : list (string * A) :=
  match l with
  | [] => []
  | (k', v') :: l' => if k' =? k then remove_key k l' else (k', v') :: remove_key k l'
  end.
End Assoc.

(** [Object.keys(v).length === 0]; [Object.keys] raises on [undefined] and
    [null], and a string has one key per character. *)
Definition keysEmpty (v : JS) : Err + bool :=
  match v with
  | JUndefined | JNull => inl (TypeError "Cannot convert undefined or null to object")
  | JObj fs => inr (match fs with [] => true | _ => false end)
  | JArr es => inr (match es with [] => true | _ => false end)
  | JStr s => inr (s =? "")
  | _ => inr true
  end.

(** ** The object-path library (external): [get], [set], [del] by dot-path *)

Module objectPath.

Definition digit (c : ascii) : option N :=
  let n := N_of_ascii c in
  if (48 <=? n)%N && (n <=? 57)%N then Some (n - 48)%N else None.

Fixpoint decimal (acc : N) (s : string) : option N :=
  match s with
  | EmptyString => Some acc
  | String c s' =>
      match digit c with
      | Some d => decimal (10 * acc + d)%N s'
      | None => None
      end
  end.

(** The decimal writing of a natural number, without a leading zero. *)
Definition naturalLiteral (key : string) : option N :=
  match key with
  | EmptyString => None
  | String "0"%char EmptyString => Some 0%N
  | String "0"%char _ => None
  | _ => decimal 0 key
  end.

(** The writing of an integer as [Number.prototype.toString] gives it: the
    digits of a natural number, after [-] for a negative one; [-0] is never
    written. *)
Definition integerLiteral (key : string) : option Z :=
  match key with
  | String "-"%char body =>
      match naturalLiteral body with
      | Some 0%N | None => None
      | Some n => Some (- Z.of_N n)%Z
      end
  | _ => option_map Z.of_N (naturalLiteral key)
  end.

(** The number that [parseInt] returns for the digits of the natural number
    [n]: the nearest double, ties going to the even significand. *)
Definition nearestDouble (n : Z) : Z :=
  if (n <? 2 ^ 53)%Z then n
  else
    let e := (Z.log2 n - 52)%Z in
    let q := Z.shiftr n e in
    let r := (n - Z.shiftl q e)%Z in
    let half := (2 ^ (e - 1))%Z in
    let q' := if (r <? half)%Z then q
              else if (half <? r)%Z then (q + 1)%Z
              else if Z.even q then q else (q + 1)%Z in
    (q' * 2 ^ e)%Z.

(** The integer that [toString] writes for the double [v], a positive
    integer: of the numbers that [nearestDouble] takes to [v], the one with
    the fewest significant digits, then the closest to [v], then the one
    whose last significant digit is even.  The multiples of [10^j] are tried
    from [j] down. *)
Fixpoint shortestFrom (j : nat) (v : Z) : Z :=
  let p := (10 ^ Z.of_nat j)%Z in
  let below := (v / p * p)%Z in
  let above := (below + p)%Z in
  let fromBelow := (0 <? below)%Z && (nearestDouble below =? v)%Z in
  let fromAbove := (nearestDouble above =? v)%Z in
  match fromBelow, fromAbove with
  | true, true =>
      if (v - below <? above - v)%Z then below
      else if (above - v <? v - below)%Z then above
      else if Z.even (below / p) then below else above
  | true, false => below
  | false, true => above
  | false, false =>
      match j with
      | O => v
      | S j' => shortestFrom j' v
      end
  end.

(** [parseInt(key).toString() === key], the test of [getKey]: the key is
    [NaN], or the writing of an integer that the conversion to a double and
    back gives again.  Below [2^53] every integer is a double and is written
    with its own digits; from [10^21] on [toString] writes an exponent. *)
Definition isNumberKey (key : string) : bool :=
  (key =? "NaN")
  || match integerLiteral key with
     | Some z =>
         let n := Z.abs z in
         (n <? 2 ^ 53)%Z
         || ((nearestDouble n <? 10 ^ 21)%Z && (shortestFrom 21 (nearestDouble n) =? n)%Z)
     | None => false
     end.

(** [getKey(key)] as the index of an element of an array: a number key
    that is a natural number below [2^32 - 1].  An array is the list of its
    elements: a property of an array that is not an element (a name, a
    negative or larger number, [length]) is outside the values of [JS], it
    reads as [undefined] and writing it changes nothing. *)
Definition getKey (key : string) : option nat :=
  match naturalLiteral key with
  | Some n => if (n <=? 4294967294)%N then Some (N.to_nat n) else None
  | None => None
  end.

(** [getShallowProperty(obj, key)]: [obj[key]] when [key] is a number and
    [obj] an array, or when [obj] has the own property [key], and
    [undefined] otherwise.  On the values of [JS]: the property of an
    object, the element of an array. *)
Definition getShallowProperty (obj : JS) (key : string) : JS :=
  match obj with
  | JObj fs => match assoc key fs with Some v => v | None => JUndefined end
  | JArr es => match getKey key with
               | Some i => nth i es JUndefined
               | None => JUndefined
               end
  | _ => JUndefined
  end.

Fixpoint get_keys (obj : JS) (keys : list string) : JS :=
  match keys with
  | [] => obj
  | k :: ks =>
      match obj with
      | JUndefined | JNull => JUndefined
      | _ => match getShallowProperty obj k with
             | JUndefined => JUndefined
             | next => get_keys next ks
             end
      end
  end.

(** [objectPath.get(obj, path)]: an empty path designates [obj] itself. *)
Definition get (obj : JS) (path : string) : JS :=
  if path =? "" then obj else get_keys obj (JSString.split dot path).

(** [arr[i] = v], the array growing with holes when [i] is past its end. *)
Fixpoint assign_index (i : nat) (v : JS) (es : list JS) : list JS :=
  match i, es with
  | O, [] => [v]
  | O, _ :: es' => v :: es'
  | S i', [] => JUndefined :: assign_index i' v []
  | S i', e :: es' => e :: assign_index i' v es'
  end.

(** [obj[key] = v] *)
Definition setProperty (obj : JS) (key : string) (v : JS) : JS :=
  match obj with
  | JObj fs => JObj (assign key v fs)
  | JArr es => match getKey key with
               | Some i => JArr (assign_index i v es)
               | None => obj
               end
  | _ => obj
  end.

Fixpoint set_keys (obj : JS) (keys : list string) (value : JS) : JS :=
  match keys with
  | [] => obj
  | [k] => setProperty obj k value
  | k :: ((k1 :: _) as ks) =>
      let current :=
        match getShallowProperty obj k with
        | JUndefined => if isNumberKey k1 then JArr [] else JObj []
        | c => c
        end in
      setProperty obj k (set_keys current ks value)
  end.

(** [objectPath.set(obj, path, value)]: the object after the assignment;
    missing intermediate containers are created. *)
Definition set (obj : JS) (path : string) (value : JS) : JS :=
  if path =? "" then obj else set_keys obj (JSString.split dot path) value.

Fixpoint remove_index (i : nat) (es : list JS) : list JS :=
  match i, es with
  | _, [] => []
  | O, _ :: es' => es'
  | S i', e :: es' => e :: remove_index i' es'
  end.

(** [hasShallowProperty(obj, key)] *)
Definition hasShallowProperty (obj : JS) (key : string) : bool :=
  match obj with
  | JObj fs => match assoc key fs with Some _ => true | None => false end
  | JArr es => match getKey key with
               | Some i => (i <? List.length es)%nat
               | None => false
               end
  | _ => false
  end.

(** [delete obj[key]], or [obj.splice(key, 1)] on an array. *)
Definition deleteProperty (obj : JS) (key : string) : JS :=
  match obj with
  | JObj fs => JObj (remove_key key fs)
  | JArr es => match getKey key with
               | Some i => JArr (remove_index i es)
               | None => obj
               end
  | _ => obj
  end.

Fixpoint del_keys (obj : JS) (keys : list string) : JS :=
  match keys with
  | [] => obj
  | k :: ks =>
      if hasShallowProperty obj k then
        match ks with
        | [] => deleteProperty obj k
        | _ => setProperty obj k (del_keys (getShallowProperty obj k) ks)
        end
      else obj
  end.

(** [objectPath.del(obj, path)]: the object after the deletion. *)
Definition del (obj : JS) (path : string) : JS :=
  if path =? "" then obj else del_keys obj (JSString.split dot path).

End objectPath.

(** ** The schema capability (mongoose [Schema], external)

    Modelled from the spec: the schema tree is an external capability, "a
    tree that can be queried by path and mutated by path" with [tree.get],
    [tree.set], [tree.delete], the element tree of an array field and a way
    to tell whether a field is declared as an array.  A [Schema] object owns
    its [tree] (the definitions, as nested values) and its [paths]: the
    declared fields by flattened name, each with its [instance] and, for an
    array of subdocuments, the [Schema] object of the elements.  That object
    is a replica: its tree is not shared with the tree of the enclosing
    schema.  The [_id] field that mongoose adds to a subdocument schema and
    the errors it raises on ill-formed definitions are left out. *)

Module mongoose.

#[warnings="-register-all"]
Inductive Schema : Type :=
| MkSchema (tree : JS) (paths : list (string * SchemaType))
with SchemaType : Type :=
| MkSchemaType (instance : string) (schema : option Schema).

Definition tree (s : Schema) : JS := let (t, _) := s in t.
Definition paths (s : Schema) : list (string * SchemaType) := let (_, p) := s in p.
Definition instance (st : SchemaType) : string := let (i, _) := st in i.
Definition schema (st : SchemaType) : option Schema := let (_, s) := st in s.

(** [schema.path(name)]: the declared field of that name, if any. *)
Definition path (s : Schema) (name : string) : option SchemaType :=
  assoc name (paths s).

(** [this.paths[name] = type] for each declared field. *)
Definition declare_all (declared : list (string * SchemaType))
           (ps : list (string * SchemaType)) : list (string * SchemaType) :=
  fold_left (fun acc d => assign (fst d) (snd d) acc) declared ps.

Definition Mixed : SchemaType := MkSchemaType "Mixed" None.

(** The fields that the property [name : v] of a definition object
    declares.  A non-empty plain object without a [type] is a nested
    object, whose properties are declared under [name.]; an array is a
    field of instance ["Array"], with a schema of its own (tree and
    fields of the element) when its element is an object; everything else
    is one field. *)
Fixpoint declare (name : string) (v : JS) {struct v} : list (string * SchemaType) :=
  let fields :=
    fix fields (prefix : string) (fs : list (string * JS)) {struct fs} :=
      match fs with
      | [] => []
      | (k, w) :: fs' => (declare (prefix ++ k) w ++ fields prefix fs')%list
      end in
  let element (elems : list JS) : SchemaType :=
    match elems with
    | JObj es :: _ =>
        MkSchemaType "Array" (Some (MkSchema (JObj es) (declare_all (fields "" es) [])))
    | _ => MkSchemaType "Array" None
    end in
  let typed :=
    fix typed (fs : list (string * JS)) {struct fs} : option SchemaType :=
      match fs with
      | [] => None
      | (k, w) :: fs' =>
          if k =? "type" then
            match w with
            | JArr elems => Some (element elems)
            | JFun n => Some (MkSchemaType n None)
            | JObj (_ :: _) => None
            | _ => if truthy w then Some Mixed else None
            end
          else typed fs'
      end in
  match v with
  | JObj [] => [(name, Mixed)]
  | JObj fs =>
      match typed fs with
      | Some st => [(name, st)]
      | None => fields (name ++ ".") fs
      end
  | JArr elems => [(name, element elems)]
  | JFun n => [(name, MkSchemaType n None)]
  | _ => [(name, Mixed)]
  end.

Definition declare_fields (obj : JS) : list (string * SchemaType) :=
  match obj with
  | JObj fs => flat_map (fun kv => declare (fst kv) (snd kv)) fs
  | _ => []
  end.

(** The tree after [schema.add(from)]: the definitions of [from] join the
    tree, each at its path ([tree.set]), next to what the tree holds
    already; a property that both have is merged when it is an object on
    both sides and is left as it is otherwise. *)
Fixpoint merge (to from : JS) {struct from} : JS :=
  match from with
  | JObj fs =>
      (fix fields (to : JS) (fs : list (string * JS)) {struct fs} : JS :=
         match fs with
         | [] => to
         | (k, v) :: fs' =>
             fields
               (match objectPath.getShallowProperty to k with
                | JUndefined => objectPath.setProperty to k v
                | existing =>
                    match v with
                    | JObj _ => objectPath.setProperty to k (merge existing v)
                    | _ => to
                    end
                end) fs'
         end) to fs
  | _ => to
  end.

(** [schema.add(obj)] *)
Definition add (s : Schema) (obj : JS) : Schema :=
  MkSchema (merge (tree s) obj) (declare_all (declare_fields obj) (paths s)).

(** [new Schema(obj)] *)
Definition new (obj : JS) : Schema := add (MkSchema (JObj []) []) obj.

(** [schema.remove(name)]: the field, and the fields nested under it, leave
    [paths]; the node leaves the tree. *)
Definition remove (s : Schema) (name : string) : Schema :=
  MkSchema (objectPath.del (tree s) name)
           (filter (fun kv => negb ((fst kv =? name)
                                     || JSString.startsWith (name ++ ".") (fst kv)))
                   (paths s)).

(** [schema.path(name) !== undefined && schema.path(name).instance === "Array"] *)
Definition isArray (s : Schema) (name : string) : bool :=
  match path s name with
  | Some st => instance st =? "Array"
  | None => false
  end.

(** [schema.path(name).schema] *)
Definition elementSchema (s : Schema) (name : string) : option Schema :=
  match path s name with
  | Some st => schema st
  | None => None
  end.

End mongoose.

Import mongoose.

(** ** Path Resolver *)

(** The object that [getLastSchemaAndPaths] returns.  [schema] is the
    [Schema] object the terminal field lives in, as it is at resolution
    time; the object itself is reached again from the root along
    [subPaths] (see [updateOwner]). *)
Module Loc.
Record t : Type := mk {
  exists_ : bool;
  schema : Schema;
  path : string;
  fullPath : string;
  pathToLast : string;
  subPaths : list string
}.
End Loc.

(** The positional array marker of the store's update language. *)
Definition marker : string := ".$[]".

(** The terminal branch of [getLastSchemaAndPathsRecursive] (the [else] of
    its last conditional). *)
Definition terminal (currentSchema : Schema) (currentPath currentFullPath : string)
           (subPaths : list string) : Loc.t :=
  Loc.mk
    (negb (isUndefined (objectPath.get (tree currentSchema) currentPath)))
    currentSchema
    currentPath
    (if currentFullPath =? "" then currentPath
     else currentFullPath ++ ".$[]." ++ currentPath)
    (JSString.replace currentFullPath ".$[]" "")
    (subPaths ++ [currentPath])%list.

(** [getLastSchemaAndPathsRecursive(currentSchema, path, currentPathIndex,
    currentFullPath, subPaths)].  [currentPath] is the accumulated local path
    ([path[currentPathIndex]] on entry, then extended by the [while] loop) and
    [rest] holds the segments after [currentPathIndex], so that
    [currentPathIndex < path.length - 1] reads [rest <> []], and the loop's
    [currentPathIndex == path.length] reads [rest = []].

    One step of the function is either one turn of the [while] loop (the
    current path is not an array field: the next segment is appended, or the
    loop breaks at the end of the path), or the test that follows the loop
    (the current path is an array field: the function calls itself on the
    element schema when segments remain).  An array field without an element
    schema (an array of primitives) makes the recursive call read a property
    of [undefined]. *)
Fixpoint getLastSchemaAndPathsRecursive (currentSchema : Schema) (currentPath : string)
         (rest : list string) (currentFullPath : string) (subPaths : list string)
  : Err + Loc.t :=
  if isArray currentSchema currentPath then
    match rest with
    | next :: rest' =>
        match elementSchema currentSchema currentPath with
        | Some elements =>
            getLastSchemaAndPathsRecursive elements next rest'
              (if currentFullPath =? "" then currentPath
               else currentFullPath ++ ".$[]." ++ currentPath)
              (subPaths ++ [currentPath])%list
        | None => inl (TypeError "Cannot read property 'path' of undefined")
        end
    | [] => inr (terminal currentSchema currentPath currentFullPath subPaths)
    end
  else
    match rest with
    | next :: rest' =>
        getLastSchemaAndPathsRecursive currentSchema (currentPath ++ "." ++ next) rest'
          currentFullPath subPaths
    | [] => inr (terminal currentSchema currentPath currentFullPath subPaths)
    end.

(** [getLastSchemaAndPaths(schema, path)]:
    [getLastSchemaAndPathsRecursive(schema, path.split('.'), 0, "", [])].
    The split of a string is never empty. *)
Definition getLastSchemaAndPaths (schema : Schema) (path : string) : Err + Loc.t :=
  match JSString.split dot path with
  | first :: rest => getLastSchemaAndPathsRecursive schema first rest "" []
  | [] => inl (TypeError "unreachable: split returns at least one segment")
  end.

(** *** Example schemas *)

Definition tString : JS := JFun "String".

(** [{ a : [ { b : String, c : String } ], d : String }] *)
Definition schema_ab : Schema :=
  mongoose.new (JObj [("a", JArr [JObj [("b", tString); ("c", tString)]]);
                      ("d", tString)]).

(** [{ a : [ { b : [ { c : [ { d : String } ] } ] } ] }]: three nested arrays. *)
Definition schema_abcd : Schema :=
  mongoose.new
    (JObj [("a", JArr [JObj [("b", JArr [JObj [("c", JArr [JObj [("d", tString)]])]])]])]).

(** [{ a : { b : { c : String } } }] *)
Definition schema_nested : Schema :=
  mongoose.new (JObj [("a", JObj [("b", JObj [("c", tString)])])]).

(** ** Promises, the document store and the model *)

(** How a promise ends: resolved with a value, rejected with an error, or
    never settled. *)
Inductive Outcome : Type :=
| Resolved (value : JS)
| Rejected (error : Err)
| Pending.

(** What happens, in order, while an operation runs: a call of the
    operation's own [resolve] or [reject], or the completion of a store
    operation ([update], [find], [save]) with its success. *)
Inductive Event : Type :=
| Settle (o : Outcome)
| Completed (operation : string) (ok : bool).

(** The document store behind a model (external).  [update filter update docs]
    is the multi-document update; [find] fails or returns the documents;
    [save marked doc] persists one document, whose path [marked] was marked as
    modified, and returns it as stored. *)
Record Store : Type := {
  update : JS -> JS -> list JS -> Err + list JS;
  find : list JS -> option Err;
  save : string -> JS -> Err + JS
}.

(** A mongoose model: its schema, the documents of its collection and the
    store that holds them.  [model_subpaths] is [model.schema.subpaths], the
    positional paths (such as [a.0.b]) that the root schema has cached; it is
    kept beside [model_schema] because the module reads it nowhere:
    [removeSchemaField] deletes one of its keys, and that is all. *)
Record Model : Type := {
  model_schema : Schema;
  model_subpaths : list (string * mongoose.SchemaType);
  model_docs : list JS;
  model_store : Store
}.

Definition with_schema (m : Model) (s : Schema) : Model :=
  {| model_schema := s; model_subpaths := model_subpaths m;
     model_docs := model_docs m; model_store := model_store m |}.

Definition with_docs (m : Model) (ds : list JS) : Model :=
  {| model_schema := model_schema m; model_subpaths := model_subpaths m;
     model_docs := ds; model_store := model_store m |}.

Definition with_subpaths (m : Model) (sp : list (string * mongoose.SchemaType)) : Model :=
  {| model_schema := model_schema m; model_subpaths := sp;
     model_docs := model_docs m; model_store := model_store m |}.

(** The run of a promise-returning function: the events in the order they
    happen, and the model once everything the call started has completed. *)
Record Run : Type := {
  events : list Event;
  final : Model
}.

Definition isCompletion (e : Event) : bool :=
  match e with Completed _ _ => true | Settle _ => false end.

Definition completions (evs : list Event) : list Event := filter isCompletion evs.

(** A promise is settled by the first call of [resolve] or [reject]; later
    calls have no effect. *)
Fixpoint firstSettle (evs : list Event) : Outcome :=
  match evs with
  | [] => Pending
  | Settle o :: _ => o
  | Completed _ _ :: evs' => firstSettle evs'
  end.

Definition outcome (r : Run) : Outcome := firstSettle (events r).

(** [p.then(k)]: [k] runs once [p] is resolved; a rejection passes through;
    nothing follows a promise that never settles. *)
Definition then_ (p : Run) (k : JS -> Model -> Run) : Run :=
  match outcome p with
  | Resolved v =>
      let q := k v (final p) in
      {| events := (completions (events p) ++ events q)%list; final := final q |}
  | Rejected e =>
      {| events := (completions (events p) ++ [Settle (Rejected e)])%list;
         final := final p |}
  | Pending => {| events := completions (events p); final := final p |}
  end.

(** [resolve(v)] and [reject(e)] as runs without effect on the model. *)
Definition resolve (v : JS) (m : Model) : Run :=
  {| events := [Settle (Resolved v)]; final := m |}.

Definition reject (e : Err) (m : Model) : Run :=
  {| events := [Settle (Rejected e)]; final := m |}.

(** [p.then(() => resolve(msg)).catch(error => reject(error))] *)
Definition thenResolve (msg : string) (p : Run) : Run :=
  then_ p (fun _ m => resolve (JStr msg) m).

(** [p.then(() => resolve(msg))], without a [catch]: a rejection of [p] is
    not forwarded, the outer promise stays unsettled. *)
Definition thenResolveNoCatch (msg : string) (p : Run) : Run :=
  match outcome p with
  | Resolved _ =>
      {| events := (completions (events p) ++ [Settle (Resolved (JStr msg))])%list;
         final := final p |}
  | _ => {| events := completions (events p); final := final p |}
  end.

(** ** Document Migrator *)

(** The callbacks of the [save] calls of [updateDefaults], in document
    order: an error rejects; a success counts, and the last of [numToSave]
    successes resolves. *)
Fixpoint saveCallbacks (results : list (Err + JS)) (numSaved numToSave : nat) : list Event :=
  match results with
  | [] => []
  | inl error :: rest =>
      Completed "save" false :: Settle (Rejected error)
        :: saveCallbacks rest numSaved numToSave
  | inr _ :: rest =>
      (Completed "save" true
         :: (if (S numSaved =? numToSave)%nat then [Settle (Resolved JUndefined)] else []))
        ++ saveCallbacks rest (S numSaved) numToSave
  end%list.

(** The collection after the saves: a document whose save failed stays as it
    was stored. *)
Fixpoint persisted (stored : list JS) (results : list (Err + JS)) : list JS :=
  match stored, results with
  | d :: stored', inr d' :: results' => d' :: persisted stored' results'
  | d :: stored', inl _ :: results' => d :: persisted stored' results'
  | _, _ => stored
  end.

(** [updateDefaults(model, path)] *)
Definition updateDefaults (model : Model) (path : string) : Run :=
  match find (model_store model) (model_docs model) with
  | Some error =>
      {| events := [Completed "find" false; Settle (Rejected error)]; final := model |}
  | None =>
      let docs := model_docs model in
      let numToSave := List.length docs in
      if (numToSave =? 0)%nat then
        {| events := [Completed "find" true; Settle (Resolved JUndefined)]; final := model |}
      else
        let results := map (save (model_store model) path) docs in
        {| events := Completed "find" true :: saveCallbacks results 0 numToSave;
           final := with_docs model (persisted docs results) |}
  end.

(** [moveForAllSubArraysRecursive(doc, subPaths, lastDestPath, currentPathIndex)],
    by recursion on the sub-paths from [currentPathIndex] on.  The document
    is returned as modified; reading [forEach] from a value that is not an
    array raises. *)
Fixpoint moveForAllSubArraysRecursive (doc : JS) (subPaths : list string)
         (lastDestPath : string) : Err + JS :=
  match subPaths with
  | [] => inl (TypeError "no sub-path")
  | [last] => inr (objectPath.set doc lastDestPath (objectPath.get doc last))
  | hop :: rest =>
      match objectPath.get doc hop with
      | JArr subDocs =>
          let moved :=
            fold_right
              (fun subDoc acc =>
                 match moveForAllSubArraysRecursive subDoc rest lastDestPath, acc with
                 | inr d, inr ds => inr (d :: ds)
                 | inl e, _ => inl e
                 | _, inl e => inl e
                 end)
              (inr []) subDocs in
          match moved with
          | inr ds => inr (objectPath.set doc hop (JArr ds))
          | inl e => inl e
          end
      | _ => inl (TypeError "forEach is not a function")
      end
  end.

(** [moveForAllSubArrays(doc, subPaths, lastDestPath)] *)
Definition moveForAllSubArrays (doc : JS) (subPaths : list string) (lastDestPath : string)
  : Err + JS :=
  moveForAllSubArraysRecursive doc subPaths lastDestPath.

(** ** Schema Mutator *)

(** The [Schema] object that [lastSchemaAndPaths.schema] refers to is the
    one reached from the root schema through
    [currentSchema.path(hop).schema], hop after hop.  [ownerAt] reads that
    object in the current root and [updateOwner] applies a mutation to it. *)
Fixpoint ownerAt (root : Schema) (hops : list string) : Schema :=
  match hops with
  | [] => root
  | hop :: hops' =>
      match elementSchema root hop with
      | Some elements => ownerAt elements hops'
      | None => root
      end
  end.

Fixpoint updateOwner (root : Schema) (hops : list string) (f : Schema -> Schema) : Schema :=
  match hops with
  | [] => f root
  | hop :: hops' =>
      match mongoose.path root hop with
      | Some (MkSchemaType i (Some elements)) =>
          MkSchema (tree root)
                   (assign hop (MkSchemaType i (Some (updateOwner elements hops' f)))
                           (paths root))
      | _ => root
      end
  end.

(** The hops of a resolved location: its sub-paths without the last. *)
Definition hops (l : Loc.t) : list string := removelast (Loc.subPaths l).

(** The loop that keeps the replicated array trees up to date:
[[
for (var currentSchema = model.schema; subPaths.length > 1;
     currentSchema = currentSchema.path(subPaths[0]).schema, subPaths.shift())
  edit(currentSchema.tree, subPaths.join('.0.'))
]]
    with [edit] an [objectPath.set] or an [objectPath.del].  Returns the
    schema after the loop and the exception that interrupted it, if any. *)
Fixpoint propagate (edit : JS -> string -> JS) (currentSchema : Schema)
         (subPaths : list string) : Schema * option Err :=
  match subPaths with
  | hop :: ((_ :: more) as rest) =>
      let edited :=
        MkSchema (edit (tree currentSchema) (JSString.join ".0." subPaths))
                 (paths currentSchema) in
      match mongoose.path edited hop with
      | None => (edited, Some (TypeError "Cannot read property 'schema' of undefined"))
      | Some (MkSchemaType i None) =>
          match more with
          | [] => (edited, None)
          | _ => (edited, Some (TypeError "Cannot read property 'tree' of undefined"))
          end
      | Some (MkSchemaType i (Some elements)) =>
          let (elements', thrown) := propagate edit elements rest in
          (MkSchema (tree edited)
                    (assign hop (MkSchemaType i (Some elements')) (paths edited)),
           thrown)
      end
  | _ => (currentSchema, None)
  end.

(** ** Operation Orchestrator *)

(** [addSchemaAux(model, lastSchemaAndPaths, fieldDefinition)].  The loop
    has shifted [subPaths] down to its last element when [updateDefaults] is
    called with [subPaths[0]]. *)
Definition addSchemaAux (model : Model) (lastSchemaAndPaths : Loc.t) (fieldDefinition : JS)
  : Run :=
  let addQuery := objectPath.set (JObj []) (Loc.path lastSchemaAndPaths) fieldDefinition in
  let added :=
    updateOwner (model_schema model) (hops lastSchemaAndPaths)
                (fun s => mongoose.add s addQuery) in
  let (replicated, thrown) :=
    propagate (fun t p => objectPath.set t p fieldDefinition) added
              (Loc.subPaths lastSchemaAndPaths) in
  match thrown with
  | Some e => reject e (with_schema model replicated)
  | None =>
      then_ (updateDefaults (with_schema model replicated)
                            (last (Loc.subPaths lastSchemaAndPaths) ""))
            (fun _ m => resolve JUndefined m)
  end.

(** The filter of the bulk updates: documents with a non-empty array at
    [pathToLast], or every document when the field is in no array. *)
Definition updateQuery (l : Loc.t) : JS :=
  if negb (Loc.pathToLast l =? "")
  then JObj [(Loc.pathToLast l, JObj [("$gt", JArr [])])]
  else JObj [].

(** [removeSchemaField(model, path, removeSubdocumentIfEmpty = false)].  The
    function calls itself in its cascade branch, without its third argument;
    [fuel] bounds the depth of the calls.  After the two calls of [remove]
    the callback deletes from [model.schema.subpaths] the key made of the
    sub-paths joined by [.0.], then deletes the field in the replicated
    trees. *)
Fixpoint removeSchemaField_fuel (fuel : nat) (model : Model) (path : string)
         (removeSubdocumentIfEmpty : bool) : Run :=
  match fuel with
  | O => {| events := []; final := model |}
  | S fuel' =>
    if negb (pathIsValid path) then reject (Reason "The path is not valid") model
    else
      match getLastSchemaAndPaths (model_schema model) path with
      | inl thrown => reject thrown model
      | inr lastSchemaAndPaths =>
        if negb (Loc.exists_ lastSchemaAndPaths) then
          reject (Reason ("The field to remove does not exists (" ++ path ++ ")")) model
        else
          let unsetQuery := JObj [(Loc.fullPath lastSchemaAndPaths, JNum 1)] in
          match update (model_store model) (updateQuery lastSchemaAndPaths)
                       (JObj [("$unset", unsetQuery)]) (model_docs model) with
          | inl error =>
              {| events := [Completed "update" false; Settle (Rejected error)];
                 final := model |}
          | inr docs =>
            let s1 := mongoose.remove (model_schema model) (Loc.fullPath lastSchemaAndPaths) in
            let s2 := updateOwner s1 (hops lastSchemaAndPaths)
                        (fun s => mongoose.remove s (Loc.path lastSchemaAndPaths)) in
            let subpaths :=
              remove_key (JSString.join ".0." (Loc.subPaths lastSchemaAndPaths))
                         (model_subpaths model) in
            let (s3, thrown) := propagate objectPath.del s2 (Loc.subPaths lastSchemaAndPaths) in
            let model3 := with_subpaths (with_docs (with_schema model s3) docs) subpaths in
            let callback : Run :=
              match thrown with
              | Some e => reject e model3
              | None =>
                if removeSubdocumentIfEmpty then
                  let s4 :=
                    updateOwner s3 (hops lastSchemaAndPaths)
                      (fun s => MkSchema (objectPath.del (tree s) (Loc.path lastSchemaAndPaths))
                                         (paths s)) in
                  let model4 := with_schema model3 s4 in
                  let lastPathArray := JSString.split dot (Loc.path lastSchemaAndPaths) in
                  if (1 <? List.length lastPathArray)%nat then
                    let parent := JSString.join "." (removelast lastPathArray) in
                    match keysEmpty (objectPath.get (tree (ownerAt s4 (hops lastSchemaAndPaths)))
                                                    parent) with
                    | inl e => reject e model4
                    | inr true =>
                        thenResolveNoCatch "Field removed successfully"
                          (removeSchemaField_fuel fuel' model4
                             (if Loc.pathToLast lastSchemaAndPaths =? "" then parent
                              else Loc.pathToLast lastSchemaAndPaths ++ "." ++ parent)
                             false)
                    | inr false => resolve (JStr "Field removed successfully") model4
                    end
                  else resolve (JStr "Field removed successfully") model4
                else resolve (JStr "Field removed successfully") model3
              end in
            {| events := Completed "update" true :: events callback;
               final := final callback |}
          end
      end
  end.

(** Two levels of calls are all the function ever makes: the cascade call
    passes no flag (see [removeSchemaField_fuel_enough]). *)
Definition removeSchemaField (model : Model) (path : string)
           (removeSubdocumentIfEmpty : bool) : Run :=
  removeSchemaField_fuel 2 model path removeSubdocumentIfEmpty.

(** The test of [addSchemaField] on the field that will contain the new
    one: [previousField != undefined && ((Object.keys(previousField).length
    === 0) || (previousField.type && (Object.keys(previousField.type).length
    === 0)))]. *)
Definition isEmptyPlaceholder (previousField : JS) : bool :=
  let noKeys v := match keysEmpty v with inr b => b | inl _ => false end in
  let type := objectPath.getShallowProperty previousField "type" in
  negb (looseUndefined previousField)
  && (noKeys previousField || (truthy type && noKeys type)).

(** [addSchemaField(model, path, fieldDefinition)].
    [lastSchemaAndPaths.pathToLast + lastPaths] concatenates a string and an
    array: the array is written with commas between its elements. *)
Definition addSchemaField (model : Model) (path : string) (fieldDefinition : JS) : Run :=
  if negb (pathIsValid path) then reject (Reason "The path is not valid") model
  else
    match getLastSchemaAndPaths (model_schema model) path with
    | inl thrown => reject thrown model
    | inr lastSchemaAndPaths =>
      if Loc.exists_ lastSchemaAndPaths then
        reject (Reason ("The field to add already exists (" ++ path ++ ")")) model
      else
        let lastPaths := JSString.split dot (Loc.path lastSchemaAndPaths) in
        if (1 <? List.length lastPaths)%nat then
          let lastPaths' := removelast lastPaths in
          let previousField :=
            objectPath.get (tree (Loc.schema lastSchemaAndPaths))
                           (JSString.join "." lastPaths') in
          if isEmptyPlaceholder previousField then
            thenResolve "Field added successfully"
              (then_ (removeSchemaField model
                        (Loc.pathToLast lastSchemaAndPaths ++ JSString.join "," lastPaths')
                        false)
                     (fun _ m => addSchemaAux m lastSchemaAndPaths fieldDefinition))
          else
            thenResolve "Field added successfully"
              (addSchemaAux model lastSchemaAndPaths fieldDefinition)
        else
          thenResolve "Field added successfully"
            (addSchemaAux model lastSchemaAndPaths fieldDefinition)
    end.

(** The free identifiers of the module.  [moveSchemaField] reads an
    identifier [path] that neither the function nor the module declares: the
    language looks it up in the global scope, and raises a [ReferenceError]
    when it is not bound there.  [global_path] is the binding of that name in
    the global scope, if there is one. *)
Record Globals : Type := { global_path : option JS }.

(** The global scope of a module as the runtime starts it: no [path]. *)
Definition noGlobals : Globals := {| global_path := None |}.

(** [moveForAllSubArrays] over the documents in order, up to the first one
    that raises: the documents moved so far and the exception. *)
Fixpoint moveDocuments (docs : list JS) (subPaths : list string) (lastDestPath : string)
  : list JS * option Err :=
  match docs with
  | [] => ([], None)
  | doc :: docs' =>
      match moveForAllSubArrays doc subPaths lastDestPath with
      | inl thrown => ([], Some thrown)
      | inr doc' =>
          let (moved, thrown) := moveDocuments docs' subPaths lastDestPath in
          (doc' :: moved, thrown)
      end
  end.

(** The callbacks of the [save] calls of [moveSchemaField], but for what the
    last one starts: [if (error) reject(error); numUpdated++]. *)
Definition moveSaveCallbacks (results : list (Err + JS)) : list Event :=
  flat_map (fun r => match r with
                     | inl error => [Completed "save" false; Settle (Rejected error)]
                     | inr _ => [Completed "save" true]
                     end) results.

(** The loop that compares the sub-paths of origin and destination:
[[
for (var i = 0; i < origin.subPaths.length - 1; i++)
  if (origin.subPaths[i] !== dest.subPaths[i]) sameSubocument = false;
]]
    [n] is the number of turns left. *)
Fixpoint sameSubPaths (n : nat) (origin dest : list string) : bool :=
  match n with
  | O => true
  | S n' =>
      match origin, dest with
      | o :: origin', d :: dest' => (o =? d) && sameSubPaths n' origin' dest'
      | [], [] => true
      | _, _ => false
      end
  end.

Definition sameSubdocument (origin dest : list string) : bool :=
  sameSubPaths (List.length origin - 1) origin dest.

(** [moveSchemaField(model, origin, dest, removeSubdocumentIfEmpty = false)] *)
Definition moveSchemaField (globals : Globals) (model : Model) (origin dest : string)
           (removeSubdocumentIfEmpty : bool) : Run :=
  if negb (pathIsValid origin) then reject (Reason "The origin path is not valid") model
  else
    match global_path globals with
    | None => reject (ReferenceError "path is not defined") model
    | Some (JStr path) =>
      if negb (pathIsValid path) then
        reject (Reason "The destination path is not valid") model
      else
        match getLastSchemaAndPaths (model_schema model) origin,
              getLastSchemaAndPaths (model_schema model) dest with
        | inl thrown, _ => reject thrown model
        | _, inl thrown => reject thrown model
        | inr lastSchemaAndPathsOrigin, inr lastSchemaAndPathsDest =>
          if negb (Loc.exists_ lastSchemaAndPathsOrigin) then
            reject (Reason ("Origin path does not exists (" ++ origin ++ ")")) model
          else if Loc.exists_ lastSchemaAndPathsDest then
            reject (Reason ("Destination path already exists (" ++ dest ++ ")")) model
          else if negb (List.length (Loc.subPaths lastSchemaAndPathsOrigin)
                        =? List.length (Loc.subPaths lastSchemaAndPathsDest))%nat then
            reject (Reason "Origin and destination paths must refer to the same subdocument")
                   model
          else if negb (sameSubdocument (Loc.subPaths lastSchemaAndPathsOrigin)
                                        (Loc.subPaths lastSchemaAndPathsDest)) then
            reject (Reason "Origin and destination paths must refer to the same subdocument")
                   model
          else
            let fieldDefinition :=
              objectPath.get (tree (Loc.schema lastSchemaAndPathsOrigin))
                             (Loc.path lastSchemaAndPathsOrigin) in
            then_ (addSchemaField model dest fieldDefinition)
              (fun _ m =>
                 match find (model_store m) (model_docs m) with
                 | Some error =>
                     {| events := [Completed "find" false; Settle (Rejected error)];
                        final := m |}
                 | None =>
                   let docs := model_docs m in
                   if (List.length docs =? 0)%nat then
                     {| events := [Completed "find" true;
                                   Settle (Resolved (JStr "Field moved successfully"))];
                        final := m |}
                   else
                     let (moved, thrown) :=
                       moveDocuments docs (Loc.subPaths lastSchemaAndPathsOrigin)
                                     (Loc.path lastSchemaAndPathsDest) in
                     let results :=
                       map (save (model_store m)
                                 (hd "" (Loc.subPaths lastSchemaAndPathsDest))) moved in
                     let saved := with_docs m (persisted docs results) in
                     match thrown with
                     | Some e =>
                         {| events := (Completed "find" true :: Settle (Rejected e)
                                         :: moveSaveCallbacks results)%list;
                            final := saved |}
                     | None =>
                         let removal :=
                           thenResolve "Field moved successfully"
                             (removeSchemaField saved origin removeSubdocumentIfEmpty) in
                         {| events := (Completed "find" true :: moveSaveCallbacks results
                                         ++ events removal)%list;
                            final := final removal |}
                     end
                 end)
        end
    | Some _ => reject (TypeError "path.charAt is not a function") model
    end.

(** [changeFieldDefinition(model, path, newDefinition)].  The rejection of a
    missing field is not followed by a [return]: the function goes on. *)
Definition changeFieldDefinition (model : Model) (path : string) (newDefinition : JS)
  : Run :=
  if negb (pathIsValid path) then reject (Reason "The path is not valid") model
  else
    match getLastSchemaAndPaths (model_schema model) path with
    | inl thrown => reject thrown model
    | inr lastSchemaAndPaths =>
      let missing :=
        if negb (Loc.exists_ lastSchemaAndPaths) then
          [Settle (Rejected (Reason ("The path does not point to an existing field ("
                                       ++ path ++ ")")))]
        else [] in
      let chain :=
        thenResolve "Field definition modified"
          (then_ (then_ (removeSchemaField model path false)
                        (fun _ m => addSchemaField m path newDefinition))
                 (fun _ m => updateDefaults m (hd "" (Loc.subPaths lastSchemaAndPaths)))) in
      {| events := (missing ++ events chain)%list; final := final chain |}
    end.

(** The assignments of [changeFieldType] to the definition it found:
[[
fieldDefinitionSuper.type = newType;
if (defaultValue != undefined) fieldDefinitionSuper.default = defaultValue;
else delete fieldDefinitionSuper.default;
if (required) fieldDefinitionSuper.required = required;
else delete fieldDefinitionSuper.required;
]]
    Writing a property of [undefined] or [null] raises, and so does, in
    strict mode, creating a property on a primitive value.  On a constructor
    function or an array the assignments write properties that the values
    of [JS] do not hold, and the value is returned as it is: the properties
    below are stated for definitions that are objects. *)
Definition retype (fieldDefinitionSuper newType defaultValue required : JS) : Err + JS :=
  match fieldDefinitionSuper with
  | JUndefined | JNull => inl (TypeError "Cannot set property 'type' of undefined")
  | JBool _ | JNum _ | JStr _ => inl (TypeError "Cannot create property 'type'")
  | JObj fs =>
      let fs1 := assign "type" newType fs in
      let fs2 := if negb (looseUndefined defaultValue)
                 then assign "default" defaultValue fs1
                 else remove_key "default" fs1 in
      let fs3 := if truthy required
                 then assign "required" required fs2
                 else remove_key "required" fs2 in
      inr (JObj fs3)
  | other => inr other
  end.

(** The first statements of [changeFieldType] after the resolution:
[[
var fieldDefinition = {};
objectPath.set(fieldDefinition, path, objectPath.get(schema.tree, path));
var fieldDefinitionSuper = objectPath.get(fieldDefinition, path);
]] *)
Definition fieldDefinition0 (l : Loc.t) : JS :=
  objectPath.set (JObj []) (Loc.path l)
                 (objectPath.get (tree (Loc.schema l)) (Loc.path l)).

Definition fieldDefinitionSuper (l : Loc.t) : JS :=
  objectPath.get (fieldDefinition0 l) (Loc.path l).

(** [changeFieldType(model, path, newType, defaultValue, required = false,
    keepValues = false)].  [fieldDefinition] is [{}] with the retyped
    definition at [path] (the definition itself when [path] is empty, where
    [objectPath.get] returns [fieldDefinition]).  The last statement of the
    function, [resolve("Field type changed")], runs as soon as the migration
    has been started: its event comes before the completion of the store
    operation. *)
Definition changeFieldType (model : Model) (path : string)
           (newType defaultValue required : JS) (keepValues : bool) : Run :=
  if negb (pathIsValid path) then reject (Reason "The path is not valid") model
  else
    match getLastSchemaAndPaths (model_schema model) path with
    | inl thrown => reject thrown model
    | inr lastSchemaAndPaths =>
      let missing :=
        if negb (Loc.exists_ lastSchemaAndPaths) then
          [Settle (Rejected (Reason ("The path does not point to an existing field ("
                                       ++ path ++ ")")))]
        else [] in
      let localPath := Loc.path lastSchemaAndPaths in
      match retype (fieldDefinitionSuper lastSchemaAndPaths)
                   newType defaultValue required with
      | inl thrown =>
          {| events := (missing ++ [Settle (Rejected thrown)])%list; final := model |}
      | inr retyped =>
        let fieldDefinition :=
          if localPath =? "" then retyped
          else objectPath.set (fieldDefinition0 lastSchemaAndPaths) localPath retyped in
        let changed :=
          updateOwner (model_schema model) (hops lastSchemaAndPaths)
            (fun s => mongoose.add (mongoose.remove s localPath) fieldDefinition) in
        let model1 := with_schema model changed in
        let migration : Run :=
          if negb keepValues then
            let update_ := JObj [(Loc.fullPath lastSchemaAndPaths, defaultValue)] in
            match update (model_store model1) (updateQuery lastSchemaAndPaths)
                         (JObj [("$set", update_)]) (model_docs model1) with
            | inl error =>
                {| events := [Completed "update" false; Settle (Rejected error)];
                   final := model1 |}
            | inr docs =>
                {| events := [Completed "update" true;
                              Settle (Resolved (JStr "Field type changed"))];
                   final := with_docs model1 docs |}
            end
          else
            thenResolve "Field type changed"
              (updateDefaults model1 (hd "" (Loc.subPaths lastSchemaAndPaths))) in
        {| events := (missing ++ Settle (Resolved (JStr "Field type changed"))
                        :: events migration)%list;
           final := final migration |}
      end
    end.

(** ** A store in memory

    A simple document store, used to run the operations on examples:
    [$unset] and [$set] along a field path in which [$[]] means every
    element of the array, on the documents that the filter selects. *)
Module MemoryStore.

Fixpoint along (leaf : JS -> string -> JS) (doc : JS) (keys : list string)
         {struct keys} : JS :=
  match keys with
  | [] => doc
  | [k] => leaf doc k
  | k :: ((k1 :: keys') as rest) =>
      if k1 =? "$[]" then
        match objectPath.getShallowProperty doc k with
        | JArr es => objectPath.setProperty doc k (JArr (map (fun e => along leaf e keys') es))
        | _ => doc
        end
      else
        match objectPath.getShallowProperty doc k with
        | JUndefined => doc
        | sub => objectPath.setProperty doc k (along leaf sub rest)
        end
  end.

Definition selected (filter doc : JS) : bool :=
  match filter with
  | JObj [(p, JObj [("$gt", JArr [])])] =>
      match objectPath.get doc p with
      | JArr (_ :: _) => true
      | _ => false
      end
  | _ => true
  end.

Definition modify (update_ : JS) (doc : JS) : JS :=
  match update_ with
  | JObj [("$unset", JObj [(p, _)])] =>
      along objectPath.deleteProperty doc (JSString.split dot p)
  | JObj [("$set", JObj [(p, v)])] =>
      along (fun o k => objectPath.setProperty o k v) doc (JSString.split dot p)
  | _ => doc
  end.

Definition store : Store :=
  {| update := fun filter update_ docs =>
                 inr (map (fun d => if selected filter d then modify update_ d else d) docs);
     find := fun _ => None;
     save := fun _ doc => inr doc |}.

(** The same store once the connection is lost: every operation fails. *)
Definition unavailable : Store :=
  {| update := fun _ _ _ => inl (StoreUnavailable "connection lost");
     find := fun _ => Some (StoreUnavailable "connection lost");
     save := fun _ _ => inl (StoreUnavailable "connection lost") |}.

End MemoryStore.

Definition model_of (s : Schema) (docs : list JS) : Model :=
  {| model_schema := s; model_subpaths := []; model_docs := docs;
     model_store := MemoryStore.store |}.

(** A field name: a string without the separator. *)
Fixpoint isName (s : string) : bool :=
  match s with
  | EmptyString => true
  | String c s' => negb (Ascii.eqb c dot) && isName s'
  end.

(** A collection for the schema [schema_ab]. *)
Definition docs_ab : list JS :=
  [JObj [("a", JArr [JObj [("b", JStr "x"); ("c", JStr "y")];
                     JObj [("b", JStr "z"); ("c", JStr "t")]]);
         ("d", JStr "w")]].

(** A global scope in which [path] is bound to a valid path string: the
    destination check of [moveSchemaField] then passes, whatever [dest] is. *)
Definition pathBound : Globals := {| global_path := Some (JStr "x") |}.

(** A string field [n] and one document; the connection to the store is
    lost. *)
Definition schema_n : Schema := mongoose.new (JObj [("n", JObj [("type", tString)])]).

Definition model_n_unavailable : Model :=
  {| model_schema := schema_n;
     model_subpaths := [];
     model_docs := [JObj [("n", JStr "1")]];
     model_store := MemoryStore.unavailable |}.

(** The preconditions of the operations on the field a path designates,
    and the outcome of an operation that fails one: a rejection, and the
    model (schema trees and documents) as it was. *)
Definition fieldExists (s : Schema) (path : string) : Prop :=
  exists l, getLastSchemaAndPaths s path = inr l /\ Loc.exists_ l = true.

Definition fieldMissing (s : Schema) (path : string) : Prop :=
  exists l, getLastSchemaAndPaths s path = inr l /\ Loc.exists_ l = false.

Definition rejectedUnchanged (m : Model) (r : Run) : Prop :=
  (exists e, outcome r = Rejected e) /\ final r = m.

(** The schema in which a path resolves holds a tree. *)
Definition ownerHasTree (s : Schema) (path : string) : Prop :=
  forall l, getLastSchemaAndPaths s path = inr l -> tree (Loc.schema l) <> JUndefined.

(** ** Reading a resolution

    What follows names the parts of a resolved location and of the schema
    around it, for the statements about additions and removals. *)

(** The hops lead somewhere: each one is a declared field with an element
    schema, in the schema the previous one leads to. *)
Fixpoint hopsValid (s : Schema) (hs : list string) : Prop :=
  match hs with
  | [] => True
  | h :: hs' =>
      exists i e, mongoose.path s h = Some (MkSchemaType i (Some e)) /\ hopsValid e hs'
  end.

(** The query path as the resolver extends it at an array boundary and at
    the end. *)
Definition extendFull (currentFullPath currentPath : string) : string :=
  if currentFullPath =? "" then currentPath
  else currentFullPath ++ ".$[]." ++ currentPath.

Fixpoint fullAfter (currentFullPath : string) (hs : list string) : string :=
  match hs with
  | [] => currentFullPath
  | h :: hs' => fullAfter (extendFull currentFullPath h) hs'
  end.

(** The schema after one edit of the owner ([f]) and the edit of each
    replicated tree above it ([edit], at the sub-paths joined by [.0.]). *)
Fixpoint editAlong (edit : JS -> string -> JS) (f : Schema -> Schema)
         (s : Schema) (hs : list string) (localPath : string) : Schema :=
  match hs with
  | [] => f s
  | h :: hs' =>
      match mongoose.path s h with
      | Some (MkSchemaType i (Some e)) =>
          MkSchema (edit (tree s) (JSString.join ".0." (hs ++ [localPath])))
                   (assign h (MkSchemaType i (Some (editAlong edit f e hs' localPath)))
                           (paths s))
      | _ => s
      end
  end.


(** In the tree [t], the path [p] has its parent, an object, and is not a
    property of it. *)
Definition parentHolds (t : JS) (p : string) : Prop :=
  exists pfs,
    objectPath.get_keys t (removelast (JSString.split dot p)) = JObj pfs
    /\ assoc (last (JSString.split dot p) "") pfs = None.



(** The schema that the callback of [removeSchemaField] leaves before its
    cascade branch: the field removed from the root (by its query path) and
    from the owner, then deleted in each replicated tree. *)
Definition removedSchema (s : Schema) (l : Loc.t) : Schema :=
  fst (propagate objectPath.del
                 (updateOwner (mongoose.remove s (Loc.fullPath l)) (hops l)
                    (fun o => mongoose.remove o (Loc.path l)))
                 (Loc.subPaths l)).


Definition schema_placeholder : Schema :=
  mongoose.new (JObj [("a", JObj []); ("x", tString)]).

(** Two schemas tell the same fields to be arrays along the hops of a
    location: at each hop for the names no longer than the hop, with the
    element schemas of the hop alike in turn, and in the owner for the names
    shorter than the local path. *)
Fixpoint sameArrays (hs : list string) (localPath : string) (s s' : Schema) : Prop :=
  match hs with
  | [] =>
      forall c, String.length c < String.length localPath -> isArray s' c = isArray s c
  | h :: hs' =>
      (forall c, String.length c <= String.length h -> isArray s' c = isArray s c)
      /\ exists e e',
           elementSchema s h = Some e /\ elementSchema s' h = Some e'
           /\ sameArrays hs' localPath e e'
  end.


(** [{ items : [ { meta : { note : String }, name : String } ] }] and a
    collection for it. *)
Definition schema_items : Schema :=
  mongoose.new
    (JObj [("items", JArr [JObj [("meta", JObj [("note", tString)]); ("name", tString)]])]).

Definition docs_items : list JS :=
  [JObj [("items", JArr [JObj [("meta", JObj [("note", JStr "n")]); ("name", JStr "x")]])]].


(** The hops are fields declared as arrays, each with the schema of its
    elements. *)
Fixpoint arrayHops (s : Schema) (hs : list string) : Prop :=
  match hs with
  | [] => True
  | h :: hs' =>
      isArray s h = true
      /\ exists e, elementSchema s h = Some e /\ arrayHops e hs'
  end.


(** [{ tags : [String], name : String }]: an array of primitive values. *)
Definition schema_tags : Schema :=
  mongoose.new (JObj [("tags", JArr [tString]); ("name", tString)]).


(** The error of the first save that failed, if any, and the completion
    event of a save. *)
Fixpoint firstError (results : list (Err + JS)) : option Err :=
  match results with
  | [] => None
  | inl error :: _ => Some error
  | inr _ :: rest => firstError rest
  end.

Definition saveCompleted (result : Err + JS) : Event :=
  Completed "save" (match result with inr _ => true | inl _ => false end).


(** [{ a : [ { m : { b : String, c : String } } ] }] and a collection for
    it. *)
Definition schema_nested_two : Schema :=
  mongoose.new
    (JObj [("a", JArr [JObj [("m", JObj [("b", tString); ("c", tString)])]])]).

Definition docs_nested_two : list JS :=
  [JObj [("a", JArr [JObj [("m", JObj [("b", JStr "x"); ("c", JStr "y")])]])]].


(** [{ items : [ { meta : {}, name : String } ] }],
    [{ a : { b : {} }, x : String }] and [{ a : String, x : String }]:
    fields under which nothing is declared yet. *)
Definition schema_items_empty_meta : Schema :=
  mongoose.new (JObj [("items", JArr [JObj [("meta", JObj []); ("name", tString)]])]).

Definition schema_deep_placeholder : Schema :=
  mongoose.new (JObj [("a", JObj [("b", JObj [])]); ("x", tString)]).

Definition schema_ax : Schema :=
  mongoose.new (JObj [("a", tString); ("x", tString)]).

Definition docs_ax : list JS := [JObj [("a", JStr "v"); ("x", JStr "w")]].




(** [{ a : [ { b : { type : String, trim : true } } ] }]: a field declared
    with an object definition, inside an array. *)
Definition schema_typed : Schema :=
  mongoose.new
    (JObj [("a", JArr [JObj [("b", JObj [("type", tString); ("trim", JBool true)])]])]).

Definition docs_typed : list JS :=
  [JObj [("a", JArr [JObj [("b", JStr "x")]; JObj [("b", JStr "y")]])]].


(** * The module [index.js]

    The library as [index.js] holds it: the same operations without the
    validation of the paths, without [updateDefaults] and without the
    removal of emptied subdocuments.  The resolver differs in the query
    paths it builds; the schema capability, the store, the promises and the
    loop over the replicated trees are the ones above. *)
Module Index.

(** The [else] of the last conditional of [getLastSchemaAndPathsRecursive]:
[[
fullPath: ((currentFullPath !== "") ? (currentFullPath + "." + currentPath) : currentPath),
pathToLast: currentFullPath.replace(".$[]", ""),
]] *)
Definition terminal (currentSchema : Schema) (currentPath currentFullPath : string)
           (subPaths : list string) : Loc.t :=
  Loc.mk
    (negb (isUndefined (objectPath.get (tree currentSchema) currentPath)))
    currentSchema
    currentPath
    (if negb (currentFullPath =? "") then currentFullPath ++ "." ++ currentPath
     else currentPath)
    (JSString.replace currentFullPath ".$[]" "")
    (subPaths ++ [currentPath])%list.

(** [getLastSchemaAndPathsRecursive(currentSchema, path, currentPathIndex,
    currentFullPath, subPaths)], with [currentPath] and [rest] as above.  The
    recursive call passes [currentPath + ".$[]"] as the new
    [currentFullPath]: what the arrays crossed before contributed is
    dropped. *)
Fixpoint getLastSchemaAndPathsRecursive (currentSchema : Schema) (currentPath : string)
         (rest : list string) (currentFullPath : string) (subPaths : list string)
  : Err + Loc.t :=
  if isArray currentSchema currentPath then
    match rest with
    | next :: rest' =>
        match elementSchema currentSchema currentPath with
        | Some elements =>
            getLastSchemaAndPathsRecursive elements next rest'
              (currentPath ++ ".$[]")
              (subPaths ++ [currentPath])%list
        | None => inl (TypeError "Cannot read property 'path' of undefined")
        end
    | [] => inr (terminal currentSchema currentPath currentFullPath subPaths)
    end
  else
    match rest with
    | next :: rest' =>
        getLastSchemaAndPathsRecursive currentSchema (currentPath ++ "." ++ next) rest'
          currentFullPath subPaths
    | [] => inr (terminal currentSchema currentPath currentFullPath subPaths)
    end.

(** [getLastSchemaAndPaths(schema, path)] *)
Definition getLastSchemaAndPaths (schema : Schema) (path : string) : Err + Loc.t :=
  match JSString.split dot path with
  | first :: rest => getLastSchemaAndPathsRecursive schema first rest "" []
  | [] => inl (TypeError "unreachable: split returns at least one segment")
  end.

(** [addSchemaField(model, path, fieldDefinition)]: the field joins the
    schema the path resolves in and the replicated trees, and the promise is
    resolved in the same turn.  An exception in the executor rejects the
    promise. *)
Definition addSchemaField (model : Model) (path : string) (fieldDefinition : JS) : Run :=
  match getLastSchemaAndPaths (model_schema model) path with
  | inl thrown => reject thrown model
  | inr lastSchemaAndPaths =>
    if Loc.exists_ lastSchemaAndPaths then
      reject (Reason ("The field to add already exists (" ++ path ++ ")")) model
    else
      let addQuery := objectPath.set (JObj []) (Loc.path lastSchemaAndPaths) fieldDefinition in
      let added :=
        updateOwner (model_schema model) (hops lastSchemaAndPaths)
                    (fun s => mongoose.add s addQuery) in
      let (replicated, thrown) :=
        propagate (fun t p => objectPath.set t p fieldDefinition) added
                  (Loc.subPaths lastSchemaAndPaths) in
      match thrown with
      | Some e => reject e (with_schema model replicated)
      | None => resolve (JStr "Field added successfully") (with_schema model replicated)
      end
  end.

(** [removeSchemaField(model, path)] *)
Definition removeSchemaField (model : Model) (path : string) : Run :=
  match getLastSchemaAndPaths (model_schema model) path with
  | inl thrown => reject thrown model
  | inr lastSchemaAndPaths =>
    if negb (Loc.exists_ lastSchemaAndPaths) then
      reject (Reason ("The field to remove does not exists (" ++ path ++ ")")) model
    else
      let unsetQuery := JObj [(Loc.fullPath lastSchemaAndPaths, JNum 1)] in
      match update (model_store model) (updateQuery lastSchemaAndPaths)
                   (JObj [("$unset", unsetQuery)]) (model_docs model) with
      | inl error =>
          {| events := [Completed "update" false; Settle (Rejected error)];
             final := model |}
      | inr docs =>
        let s1 := mongoose.remove (model_schema model) (Loc.fullPath lastSchemaAndPaths) in
        let s2 := updateOwner s1 (hops lastSchemaAndPaths)
                    (fun s => mongoose.remove s (Loc.path lastSchemaAndPaths)) in
        let (s3, thrown) := propagate objectPath.del s2 (Loc.subPaths lastSchemaAndPaths) in
        let model3 := with_docs (with_schema model s3) docs in
        let callback : Run :=
          match thrown with
          | Some e => reject e model3
          | None => resolve (JStr "Field removed successfully") model3
          end in
        {| events := Completed "update" true :: events callback;
           final := final callback |}
      end
  end.

(** [moveForAllSubdocumentsRecursive(doc, subPaths, lastDestPath,
    currentPathIndex)], by recursion on the sub-paths from
    [currentPathIndex] on. *)
Fixpoint moveForAllSubdocumentsRecursive (doc : JS) (subPaths : list string)
         (lastDestPath : string) : Err + JS :=
  match subPaths with
  | [] => inl (TypeError "no sub-path")
  | [last] => inr (objectPath.set doc lastDestPath (objectPath.get doc last))
  | hop :: rest =>
      match objectPath.get doc hop with
      | JArr subDocs =>
          let moved :=
            fold_right
              (fun subDoc acc =>
                 match moveForAllSubdocumentsRecursive subDoc rest lastDestPath, acc with
                 | inr d, inr ds => inr (d :: ds)
                 | inl e, _ => inl e
                 | _, inl e => inl e
                 end)
              (inr []) subDocs in
          match moved with
          | inr ds => inr (objectPath.set doc hop (JArr ds))
          | inl e => inl e
          end
      | _ => inl (TypeError "forEach is not a function")
      end
  end.

(** [moveForAllSubdocuments(doc, subPaths, lastDestPath)] *)
Definition moveForAllSubdocuments (doc : JS) (subPaths : list string) (lastDestPath : string)
  : Err + JS :=
  moveForAllSubdocumentsRecursive doc subPaths lastDestPath.

(** [moveForAllSubdocuments] over the documents in order, up to the first
    one that raises. *)
Fixpoint moveDocuments (docs : list JS) (subPaths : list string) (lastDestPath : string)
  : list JS * option Err :=
  match docs with
  | [] => ([], None)
  | doc :: docs' =>
      match moveForAllSubdocuments doc subPaths lastDestPath with
      | inl thrown => ([], Some thrown)
      | inr doc' =>
          let (moved, thrown) := moveDocuments docs' subPaths lastDestPath in
          (doc' :: moved, thrown)
      end
  end.

(** [p.then(undefined).catch(error => reject(error))]: what the promise of
    the removal still does once [moveSchemaField] has called its [resolve]. *)
Definition catchReject (p : Run) : list Event :=
  (completions (events p)
     ++ match outcome p with
        | Rejected e => [Settle (Rejected e)]
        | _ => []
        end)%list.

(** [moveSchemaField(model, origin, dest)].  The callback of every [save]
    counts the document, whether the save failed or not, and the callback of
    the last one starts the removal of the origin;
    [.then(resolve("Field moved successfully"))] calls [resolve] while the
    argument of [then] is evaluated, before the removal has done anything.
    With no document no callback runs. *)
Definition moveSchemaField (model : Model) (origin dest : string) : Run :=
  match getLastSchemaAndPaths (model_schema model) origin,
        getLastSchemaAndPaths (model_schema model) dest with
  | inl thrown, _ => reject thrown model
  | _, inl thrown => reject thrown model
  | inr lastSchemaAndPathsOrigin, inr lastSchemaAndPathsDest =>
    if negb (Loc.exists_ lastSchemaAndPathsOrigin) then
      reject (Reason ("Origin path does not exists (" ++ origin ++ ")")) model
    else if Loc.exists_ lastSchemaAndPathsDest then
      reject (Reason ("Destination path already exists (" ++ dest ++ ")")) model
    else if negb (List.length (Loc.subPaths lastSchemaAndPathsOrigin)
                  =? List.length (Loc.subPaths lastSchemaAndPathsDest))%nat then
      reject (Reason "Origin and destination paths must refer to the same subdocument")
             model
    else if negb (sameSubdocument (Loc.subPaths lastSchemaAndPathsOrigin)
                                  (Loc.subPaths lastSchemaAndPathsDest)) then
      reject (Reason "Origin and destination paths must refer to the same subdocument")
             model
    else
      let fieldDefinition :=
        objectPath.get (tree (Loc.schema lastSchemaAndPathsOrigin))
                       (Loc.path lastSchemaAndPathsOrigin) in
      then_ (addSchemaField model dest fieldDefinition)
        (fun _ m =>
           match find (model_store m) (model_docs m) with
           | Some error =>
               {| events := [Completed "find" false; Settle (Rejected error)];
                  final := m |}
           | None =>
             let docs := model_docs m in
             let (moved, thrown) :=
               moveDocuments docs (Loc.subPaths lastSchemaAndPathsOrigin)
                             (Loc.path lastSchemaAndPathsDest) in
             let results :=
               map (save (model_store m)
                         (hd "" (Loc.subPaths lastSchemaAndPathsOrigin))) moved in
             let saved := with_docs m (persisted docs results) in
             match thrown with
             | Some e =>
                 {| events := (Completed "find" true :: Settle (Rejected e)
                                 :: moveSaveCallbacks results)%list;
                    final := saved |}
             | None =>
                 if (List.length docs =? 0)%nat then
                   {| events := [Completed "find" true]; final := m |}
                 else
                   let removal := removeSchemaField saved origin in
                   {| events := (Completed "find" true :: moveSaveCallbacks results
                                   ++ Settle (Resolved (JStr "Field moved successfully"))
                                   :: catchReject removal)%list;
                      final := final removal |}
             end
           end)
  end.

(** [changeFieldDefinition(model, path, newDefinition)] *)
Definition changeFieldDefinition (model : Model) (path : string) (newDefinition : JS)
  : Run :=
  match getLastSchemaAndPaths (model_schema model) path with
  | inl thrown => reject thrown model
  | inr lastSchemaAndPaths =>
    let missing :=
      if negb (Loc.exists_ lastSchemaAndPaths) then
        [Settle (Rejected (Reason ("The path does not point to an existing field ("
                                     ++ path ++ ")")))]
      else [] in
    let chain :=
      thenResolve "Field definition modified"
        (then_ (removeSchemaField model path)
               (fun _ m => addSchemaField m path newDefinition)) in
    {| events := (missing ++ events chain)%list; final := final chain |}
  end.

(** The assignments of [changeFieldType]:
[[
fieldDefinitionSuper.type = newType;
if (defaultValue != undefined) fieldDefinitionSuper.default = defaultValue;
else delete fieldDefinitionSuper.default;
if (required != undefined) fieldDefinitionSuper.required = required;
else delete fieldDefinitionSuper.required;
]] *)
Definition retype (fieldDefinitionSuper newType defaultValue required : JS) : Err + JS :=
  match fieldDefinitionSuper with
  | JUndefined | JNull => inl (TypeError "Cannot set property 'type' of undefined")
  | JBool _ | JNum _ | JStr _ => inl (TypeError "Cannot create property 'type'")
  | JObj fs =>
      let fs1 := assign "type" newType fs in
      let fs2 := if negb (looseUndefined defaultValue)
                 then assign "default" defaultValue fs1
                 else remove_key "default" fs1 in
      let fs3 := if negb (looseUndefined required)
                 then assign "required" required fs2
                 else remove_key "required" fs2 in
      inr (JObj fs3)
  | other => inr other
  end.

(** [changeFieldType(model, path, newType, defaultValue, required)]: the
    definition is replaced in the schema the path resolves in, and the
    promise is resolved in the same turn; nothing is asked of the store. *)
Definition changeFieldType (model : Model) (path : string)
           (newType defaultValue required : JS) : Run :=
  match getLastSchemaAndPaths (model_schema model) path with
  | inl thrown => reject thrown model
  | inr lastSchemaAndPaths =>
    let missing :=
      if negb (Loc.exists_ lastSchemaAndPaths) then
        [Settle (Rejected (Reason ("The path does not point to an existing field ("
                                     ++ path ++ ")")))]
      else [] in
    let localPath := Loc.path lastSchemaAndPaths in
    match retype (fieldDefinitionSuper lastSchemaAndPaths)
                 newType defaultValue required with
    | inl thrown =>
        {| events := (missing ++ [Settle (Rejected thrown)])%list; final := model |}
    | inr retyped =>
      let fieldDefinition :=
        if localPath =? "" then retyped
        else objectPath.set (fieldDefinition0 lastSchemaAndPaths) localPath retyped in
      let changed :=
        updateOwner (model_schema model) (hops lastSchemaAndPaths)
          (fun s => mongoose.add (mongoose.remove s localPath) fieldDefinition) in
      {| events := (missing ++ [Settle (Resolved (JStr "Field type changed"))])%list;
         final := with_schema model changed |}
    end
  end.

End Index.


(** What the resolver of [index.js] carries as [currentFullPath] after the
    hops [hs]: the last hop and the marker. *)
Definition lastHopFull (currentFullPath : string) (hs : list string) : string :=
  match hs with
  | [] => currentFullPath
  | _ :: _ => last hs "" ++ ".$[]"
  end.


(** Closes a goal [outcome r <> Resolved v] on a run whose events are
    known. *)
Ltac not_resolved :=
  let H := fresh "H" in intros H; cbn in H; discriminate H.

(** A model on [schema_ab] whose store searches and saves, and refuses the
    bulk updates. *)
Definition model_ab_no_update : Model :=
  {| model_schema := schema_ab;
     model_subpaths := [];
     model_docs := docs_ab;
     model_store :=
       {| update := fun _ _ _ => inl (StoreUnavailable "connection lost");
          find := fun _ => None;
          save := fun _ doc => inr doc |} |}.


(** ** Conditions of the properties *)

(** A definition as the schemas of this development hold them: a
    constructor, an object of options whose [type] is a constructor, an
    object of nested definitions, or an array of at most one definition.
    [schema.add] raises on other values, which the schema capability above
    leaves out. *)
Fixpoint isDefinition (v : JS) {struct v} : bool :=
  match v with
  | JFun _ => true
  | JObj fs =>
      match assoc "type" fs with
      | Some (JFun _) => true
      | Some _ => false
      | None =>
          (fix all (fs : list (string * JS)) {struct fs} : bool :=
             match fs with
             | [] => true
             | (_, w) :: fs' => isDefinition w && all fs'
             end) fs
      end
  | JArr [] => true
  | JArr [e] => isDefinition e
  | _ => false
  end.






(** * Properties *)

(** ** The path validator *)

Section StringFacts.

Lemma startsWith_iff p s :
  JSString.startsWith p s = true <-> exists t, s = p ++ t.
Proof.
  revert s. induction p as [|a p IH]; intros s; simpl.
  - split; [intros _; now exists s | reflexivity].
  - destruct s as [|b s].
    + split; [discriminate | intros [t H]; discriminate].
    + destruct (Ascii.eqb a b) eqn:E.
      * apply Ascii.eqb_eq in E. subst b. rewrite IH.
        split; intros [t H]; exists t; [now rewrite H | now injection H].
      * apply Ascii.eqb_neq in E. split; [discriminate|].
        intros [t H]. injection H as H1 _. congruence.
Qed.

Lemma includes_iff s sub :
  JSString.includes s sub = true <-> contains sub s.
Proof.
  induction s as [|c s IH]; simpl.
  - destruct (JSString.startsWith sub "") eqn:E.
    + split; [intros _|reflexivity].
      apply startsWith_iff in E. destruct E as [t E]. now exists "", t.
    + split; [discriminate|]. intros [a [b H]].
      destruct a; [|discriminate]. simpl in H.
      assert (JSString.startsWith sub "" = true) by (apply startsWith_iff; eauto).
      congruence.
  - destruct (JSString.startsWith sub (String c s)) eqn:E.
    + split; [intros _|reflexivity].
      apply startsWith_iff in E. destruct E as [t E]. now exists "", t.
    + rewrite IH. split.
      * intros [a [b H]]. exists (String c a), b. simpl. now rewrite H.
      * intros [a [b H]]. destruct a as [|c' a].
        -- simpl in H.
           assert (JSString.startsWith sub (String c s) = true)
             by (apply startsWith_iff; eauto).
           congruence.
        -- simpl in H. injection H as _ H. now exists a, b.
Qed.

Lemma charAt_0_dot p :
  (JSString.charAt p 0 =? ".") = true <-> starts_with_separator p.
Proof.
  unfold JSString.charAt, starts_with_separator.
  change (0 <? 0)%Z with false. cbv iota. change (Z.to_nat 0) with 0.
  destruct p as [|c p]; cbn [String.get].
  - split; [discriminate | intros [t H]; discriminate].
  - rewrite String.eqb_eq. split.
    + intros H. injection H as ->. now exists p.
    + intros [t H]. simpl in H. injection H as -> _. reflexivity.
Qed.

Lemma get_last s c :
  String.get (String.length s) (s ++ String c "") = Some c.
Proof. induction s; simpl; auto. Qed.

Lemma get_last_inv s c :
  String.get (String.length s - 1) s = Some c -> exists t, s = t ++ String c "".
Proof.
  induction s as [|a s IH]; simpl; [discriminate|].
  rewrite Nat.sub_0_r. destruct s as [|b s].
  - simpl. intros H. injection H as ->. now exists "".
  - intros H. simpl in IH. rewrite Nat.sub_0_r in IH.
    simpl in H. destruct (IH H) as [t Ht].
    exists (String a t). simpl. now rewrite <- Ht.
Qed.

Lemma append_length s t :
  String.length (s ++ t) = String.length s + String.length t.
Proof. induction s; simpl; auto. Qed.

Lemma charAt_last_dot p :
  (JSString.charAt p (JSString.length p - 1) =? ".") = true
  <-> ends_with_separator p.
Proof.
  unfold JSString.charAt, JSString.length, ends_with_separator.
  destruct p as [|c p].
  - simpl. split; [discriminate|]. intros [t H]. destruct t; discriminate.
  - assert (Hlen : (Z.of_nat (String.length (String c p)) - 1 <? 0)%Z = false).
    { apply Z.ltb_ge. simpl String.length. lia. }
    rewrite Hlen.
    replace (Z.to_nat (Z.of_nat (String.length (String c p)) - 1))
      with (String.length (String c p) - 1) by lia.
    split.
    + intros H.
      destruct (String.get (String.length (String c p) - 1) (String c p))
        as [d|] eqn:G; [|discriminate].
      apply String.eqb_eq in H. injection H as ->.
      apply get_last_inv in G. exact G.
    + intros [t H]. rewrite H.
      rewrite append_length. simpl String.length.
      replace (String.length t + 1 - 1) with (String.length t) by lia.
      now rewrite get_last.
Qed.

End StringFacts.

Lemma pathIsValid_spec (p : string) :
  (pathIsValid p = false <->
     starts_with_separator p \/ ends_with_separator p \/
     has_consecutive_separators p \/ has_reserved_character p)
  /\ (pathIsValid p = true <->
     ~ (starts_with_separator p \/ ends_with_separator p \/
        has_consecutive_separators p \/ has_reserved_character p)).
Proof.
  assert (R : pathIsValid p = false <->
     starts_with_separator p \/ ends_with_separator p \/
     has_consecutive_separators p \/ has_reserved_character p).
  { unfold pathIsValid, has_consecutive_separators, has_reserved_character.
    rewrite negb_false_iff, !orb_true_iff.
    rewrite charAt_0_dot, charAt_last_dot, !includes_iff. tauto. }
  split; [exact R|].
  rewrite <- R. destruct (pathIsValid p); split; congruence.
Qed.

(** [C7] The path validator is a pure boolean function: it rejects a path
    exactly when the path starts with the separator, ends with the separator,
    contains two consecutive separators or contains the reserved character
    [$]; every other path is accepted. *)
Theorem pathIsValid_rejects_iff (p : string) :
  (pathIsValid p = false <->
     starts_with_separator p \/ ends_with_separator p \/
     has_consecutive_separators p \/ has_reserved_character p)
  /\ (pathIsValid p = true <->
     ~ (starts_with_separator p \/ ends_with_separator p \/
        has_consecutive_separators p \/ has_reserved_character p)).
Proof. exact (pathIsValid_spec p). Qed.


(** ** Splitting and joining paths *)

Section SplitFacts.

Lemma append_assoc (a b c : string) : (a ++ b) ++ c = a ++ (b ++ c).
Proof. induction a; simpl; congruence. Qed.

Lemma append_empty_r (a : string) : a ++ "" = a.
Proof. induction a; simpl; congruence. Qed.

Lemma split_aux_name acc s :
  isName s = true -> JSString.split_aux dot acc s = [acc ++ s].
Proof.
  revert acc. induction s as [|c s IH]; intros acc H; simpl in *.
  - now rewrite append_empty_r.
  - apply andb_true_iff in H. destruct H as [Hc Hs].
    apply negb_true_iff in Hc. rewrite Hc, IH by assumption.
    now rewrite append_assoc.
Qed.

Lemma split_aux_dot acc a r :
  isName a = true ->
  JSString.split_aux dot acc (a ++ "." ++ r) = (acc ++ a) :: JSString.split_aux dot "" r.
Proof.
  revert acc. induction a as [|c a IH]; intros acc H; simpl in *.
  - now rewrite append_empty_r.
  - apply andb_true_iff in H. destruct H as [Hc Ha].
    apply negb_true_iff in Hc. rewrite Hc, IH by assumption.
    now rewrite append_assoc.
Qed.

Lemma split_name s : isName s = true -> JSString.split dot s = [s].
Proof. intros H. unfold JSString.split. now rewrite split_aux_name. Qed.

Lemma split_dot a r :
  isName a = true ->
  JSString.split dot (a ++ "." ++ r) = a :: JSString.split dot r.
Proof. intros H. unfold JSString.split. now rewrite split_aux_dot. Qed.

End SplitFacts.

(** ** The resolver on an array of subdocuments *)

(** [C8] In every schema where the field [a] is an array of subdocuments
    whose element tree contains the field [b], resolving the logical path
    [a.b] yields exactly one array boundary, at [a]: the sub-paths are [a]
    and [b], the container path [pathToLast] is [a] and the query path is [a]
    followed by one array marker and [b].  The field is found in the element
    schema, at the local path [b]. *)
Theorem resolve_array_boundary (s elements : Schema) (a b : string) :
  isName a = true -> a <> "" -> isName b = true ->
  mongoose.path s a = Some (MkSchemaType "Array" (Some elements)) ->
  objectPath.get (tree elements) b <> JUndefined ->
  exists l,
    getLastSchemaAndPaths s (a ++ "." ++ b) = inr l
    /\ Loc.subPaths l = [a; b]
    /\ Loc.pathToLast l = a
    /\ Loc.fullPath l = a ++ marker ++ "." ++ b
    /\ Loc.exists_ l = true
    /\ Loc.path l = b
    /\ Loc.schema l = elements.
Proof.
  intros Ha Hne Hb Hpath Hget.
  unfold getLastSchemaAndPaths.
  rewrite (split_dot a b Ha), (split_name b Hb).
  cbn [getLastSchemaAndPathsRecursive].
  unfold isArray, elementSchema. rewrite Hpath. cbn [instance mongoose.schema].
  change ("Array" =? "Array") with true. cbv iota.
  change ("" =? "") with true. cbv iota.
  exists (terminal elements b a [a]). split.
  { destruct (match mongoose.path elements b with
              | Some st => instance st =? "Array" | None => false end); reflexivity. }
  unfold terminal; cbn [Loc.subPaths Loc.pathToLast Loc.fullPath Loc.exists_ Loc.path Loc.schema].
  repeat split.
  - clear -Ha. induction a as [|c a IH]; [reflexivity|].
    simpl in Ha. apply andb_true_iff in Ha. destruct Ha as [Hc Ha'].
    apply negb_true_iff in Hc.
    assert (Hc' : Ascii.eqb "."%char c = false) by (rewrite Ascii.eqb_sym; exact Hc).
    cbn [JSString.replace JSString.startsWith]. rewrite Hc'. now rewrite IH.
  - apply String.eqb_neq in Hne. rewrite Hne. reflexivity.
  - destruct (objectPath.get (tree elements) b); try reflexivity. now elim Hget.
Qed.

(** The schema [{ a : [ { b : String, c : String } ], d : String }] is such a
    schema. *)
Lemma resolve_array_boundary_witness :
  exists l,
    getLastSchemaAndPaths schema_ab "a.b" = inr l
    /\ Loc.subPaths l = ["a"; "b"]
    /\ Loc.pathToLast l = "a"
    /\ Loc.fullPath l = "a.$[].b"
    /\ Loc.exists_ l = true
    /\ Loc.path l = "b"
    /\ Loc.schema l = mongoose.new (JObj [("b", tString); ("c", tString)]).
Proof.
  apply (resolve_array_boundary schema_ab
           (mongoose.new (JObj [("b", tString); ("c", tString)])) "a" "b").
  - reflexivity.
  - discriminate.
  - reflexivity.
  - reflexivity.
  - vm_compute. discriminate.
Defined.

(** ** The container path across several arrays *)

(** [C5] On the schema [{ a : [ { b : [ { c : [ { d : String } ] } ] } ] }]
    the path [a.b.c.d] crosses three array boundaries and the resolver
    returns the container path [a.b.$[].c]: only the first array marker has
    been removed ([String.replace] with a string pattern), where the path to
    the last array is the plain dot-path [a.b.c]. *)
Theorem pathToLast_keeps_a_marker :
  exists l,
    getLastSchemaAndPaths schema_abcd "a.b.c.d" = inr l
    /\ Loc.subPaths l = ["a"; "b"; "c"; "d"]
    /\ Loc.fullPath l = "a.$[].b.$[].c.$[].d"
    /\ Loc.pathToLast l = "a.b.$[].c"
    /\ JSString.includes (Loc.pathToLast l) marker = true.
Proof. eexists. split; [reflexivity|]. repeat split. Qed.

(** With two array boundaries the single replacement is enough. *)
Example pathToLast_two_boundaries :
  exists l,
    getLastSchemaAndPaths schema_abcd "a.b.c" = inr l
    /\ Loc.pathToLast l = "a.b"
    /\ JSString.includes (Loc.pathToLast l) marker = false.
Proof. eexists. split; [reflexivity|]. split; reflexivity. Qed.

(** ** Moving a field *)

(** [C1] In the module as it is loaded ([path] is bound nowhere),
    [moveSchemaField] called with a valid origin rejects with the
    [ReferenceError] raised by its destination check, whatever the schema,
    the collection and the destination are: it never reaches the resolution,
    neither moves siblings nor reports a move across array levels, and leaves
    the model as it was. *)
Theorem moveSchemaField_rejects_on_unbound_path
        (m : Model) (origin dest : string) (removeSubdocumentIfEmpty : bool) :
  pathIsValid origin = true ->
  moveSchemaField noGlobals m origin dest removeSubdocumentIfEmpty
  = reject (ReferenceError "path is not defined") m.
Proof.
  intros H. unfold moveSchemaField. rewrite H. reflexivity.
Qed.

(** The sibling move [a.b] to [a.e] of the specification. *)
Lemma moveSchemaField_rejects_on_unbound_path_witness :
  pathIsValid "a.b" = true
  /\ moveSchemaField noGlobals (model_of schema_ab docs_ab) "a.b" "a.e" false
     = reject (ReferenceError "path is not defined") (model_of schema_ab docs_ab).
Proof.
  split; [reflexivity|].
  apply (moveSchemaField_rejects_on_unbound_path
           (model_of schema_ab docs_ab) "a.b" "a.e" false).
  reflexivity.
Defined.

(** The move across array levels [a.b] to [c] ends the same way, not with
    the message about differing subdocuments. *)
Example moveSchemaField_cross_level_unbound_path :
  outcome (moveSchemaField noGlobals (model_of schema_ab docs_ab) "a.b" "c" false)
  = Rejected (ReferenceError "path is not defined").
Proof. reflexivity. Qed.

(** Past the destination check the two cases of the specification behave
    as it says. *)
Example moveSchemaField_siblings_when_path_is_bound :
  outcome (moveSchemaField pathBound (model_of schema_ab docs_ab) "a.b" "a.e" false)
  = Resolved (JStr "Field moved successfully").
Proof. reflexivity. Qed.

Example moveSchemaField_cross_level_when_path_is_bound :
  outcome (moveSchemaField pathBound (model_of schema_ab docs_ab) "a.b" "c" false)
  = Rejected (Reason "Origin and destination paths must refer to the same subdocument").
Proof. reflexivity. Qed.


(** Were [path] bound to a valid path, the branch of an empty collection
    would be reached: it resolves with "Field moved successfully" as soon as
    [find] has returned no document, [removeSchemaField(origin)] is not
    called, and the origin field [b] is still in the element tree of [a], in
    the tree of the root and among the declared fields, next to the new
    field [e]. *)
Example moveSchemaField_empty_collection_keeps_origin :
  let r := moveSchemaField pathBound (model_of schema_ab []) "a.b" "a.e" false in
  outcome r = Resolved (JStr "Field moved successfully")
  /\ events r = [Completed "find" true; Completed "find" true;
                 Settle (Resolved (JStr "Field moved successfully"))]
  /\ (exists l, getLastSchemaAndPaths (model_schema (final r)) "a.b" = inr l
                /\ Loc.exists_ l = true)
  /\ objectPath.get (tree (model_schema (final r))) "a.0.b" = tString
  /\ (exists l, getLastSchemaAndPaths (model_schema (final r)) "a.e" = inr l
                /\ Loc.exists_ l = true).
Proof.
  cbv zeta. split; [reflexivity|]. split; [reflexivity|].
  split; [eexists; split; reflexivity|]. split; [reflexivity|].
  eexists; split; reflexivity.
Qed.

(** With a document in the collection the same call does remove the
    origin, and the values have moved. *)
Example moveSchemaField_with_documents :
  let r := moveSchemaField pathBound (model_of schema_ab docs_ab) "a.b" "a.e" false in
  outcome r = Resolved (JStr "Field moved successfully")
  /\ (exists l, getLastSchemaAndPaths (model_schema (final r)) "a.b" = inr l
                /\ Loc.exists_ l = false)
  /\ model_docs (final r)
     = [JObj [("a", JArr [JObj [("c", JStr "y"); ("e", JStr "x")];
                          JObj [("c", JStr "t"); ("e", JStr "z")]]);
              ("d", JStr "w")]].
Proof.
  cbv zeta. split; [reflexivity|]. split; [eexists; split; reflexivity|]. reflexivity.
Qed.

(** ** Changing the type of a field *)

Section PromiseFacts.

Lemma updateDefaults_starts_with_find (m : Model) (p : string) :
  exists ok rest, events (updateDefaults m p) = Completed "find" ok :: rest.
Proof.
  unfold updateDefaults.
  destruct (find (model_store m) (model_docs m)); [now eexists; eexists|].
  destruct (List.length (model_docs m) =? 0)%nat; now eexists; eexists.
Qed.

(** What has completed before a [then] is still there, in front. *)
Lemma then_keeps_first_completion (p : Run) (k : JS -> Model -> Run) op ok rest :
  events p = Completed op ok :: rest ->
  exists rest', events (then_ p k) = Completed op ok :: rest'.
Proof.
  intros H. unfold then_.
  destruct (outcome p); cbn [events]; rewrite H; cbn; now eexists.
Qed.

Lemma then_reject (e : Err) (m : Model) (k : JS -> Model -> Run) :
  then_ (reject e m) k = reject e m.
Proof. reflexivity. Qed.

End PromiseFacts.

(** [C2] Whenever [changeFieldType] finds the field and retypes its
    definition, the promise is resolved with "Field type changed" by the last
    statement of the function, before the store operation of the chosen
    branch completes (the bulk [$set] without [keepValues], the [find] of the
    reapply-defaults pass with it): the resolution is the first event of the
    run and the completion comes after it, so that a failure of the
    migration can no longer reject the promise. *)
Theorem changeFieldType_resolves_before_migration
        (m : Model) (path : string) (newType defaultValue required : JS)
        (keepValues : bool) (l : Loc.t) (retyped : JS) :
  pathIsValid path = true ->
  getLastSchemaAndPaths (model_schema m) path = inr l ->
  Loc.exists_ l = true ->
  retype (fieldDefinitionSuper l) newType defaultValue required = inr retyped ->
  let r := changeFieldType m path newType defaultValue required keepValues in
  outcome r = Resolved (JStr "Field type changed")
  /\ exists ok rest,
      events r = Settle (Resolved (JStr "Field type changed"))
                   :: Completed (if keepValues then "find" else "update") ok :: rest.
Proof.
  intros Hv Hl He Hr. cbv zeta. unfold changeFieldType, outcome.
  rewrite Hv, Hl, He, Hr. cbn [negb app events firstSettle].
  split; [reflexivity|].
  destruct keepValues; cbn [negb].
  - match goal with
    | |- context [updateDefaults ?m' ?p'] =>
        destruct (updateDefaults_starts_with_find m' p') as [ok [rest H]];
        destruct (then_keeps_first_completion
                    (updateDefaults m' p')
                    (fun _ m0 => resolve (JStr "Field type changed") m0) _ _ _ H)
          as [rest' H']
    end.
    unfold thenResolve. rewrite H'. now eexists; eexists.
  - match goal with
    | |- context [update ?s ?q ?u ?d] => destruct (update s q u d)
    end; now eexists; eexists.
Qed.

(** The bulk update fails and the promise is resolved all the same. *)
Lemma changeFieldType_resolves_before_migration_witness :
  let r := changeFieldType model_n_unavailable "n" (JFun "Number") (JNum 0) JUndefined false in
  outcome r = Resolved (JStr "Field type changed")
  /\ exists ok rest,
      events r = Settle (Resolved (JStr "Field type changed"))
                   :: Completed "update" ok :: rest.
Proof.
  apply (changeFieldType_resolves_before_migration
           model_n_unavailable "n" (JFun "Number") (JNum 0) JUndefined false
           (terminal schema_n "n" "" [])
           (JObj [("type", JFun "Number"); ("default", JNum 0)])).
  - reflexivity.
  - reflexivity.
  - reflexivity.
  - reflexivity.
Defined.

Example changeFieldType_update_fails :
  events (changeFieldType model_n_unavailable "n" (JFun "Number") (JNum 0) JUndefined false)
  = [Settle (Resolved (JStr "Field type changed"));
     Completed "update" false;
     Settle (Rejected (StoreUnavailable "connection lost"))].
Proof. reflexivity. Qed.

Example changeFieldType_defaults_fail :
  events (changeFieldType model_n_unavailable "n" (JFun "Number") (JNum 0) JUndefined true)
  = [Settle (Resolved (JStr "Field type changed"));
     Completed "find" false;
     Settle (Rejected (StoreUnavailable "connection lost"))].
Proof. reflexivity. Qed.

(** ** Failed preconditions *)

Section ObjectPathFacts.

Lemma assoc_assign_same {A : Type} (k : string) (v : A) (l : list (string * A)) :
  assoc k (assign k v l) = Some v.
Proof.
  induction l as [|[k' v'] l IH]; simpl.
  - now rewrite String.eqb_refl.
  - destruct (k' =? k) eqn:E; simpl; rewrite E; auto.
Qed.

Lemma nth_assign_index (i : nat) (v : JS) (es : list JS) :
  nth i (objectPath.assign_index i v es) JUndefined = v.
Proof.
  revert es. induction i as [|i IH]; intros [|e es]; simpl; auto.
Qed.

Lemma getShallowProperty_setProperty (obj : JS) (k : string) (v : JS) :
  objectPath.getShallowProperty (objectPath.setProperty obj k v) k = v
  \/ objectPath.getShallowProperty (objectPath.setProperty obj k v) k = JUndefined.
Proof.
  destruct obj; simpl; auto.
  - left. now rewrite assoc_assign_same.
  - destruct (objectPath.getKey k) eqn:E; simpl; rewrite E; auto.
    left. apply nth_assign_index.
Qed.

Lemma get_keys_undefined (ks : list string) : objectPath.get_keys JUndefined ks = JUndefined.
Proof. destruct ks; reflexivity. Qed.

Lemma set_keys_cons2 (obj : JS) (k k1 : string) (ks : list string) (v : JS) :
  objectPath.set_keys obj (k :: k1 :: ks) v
  = objectPath.setProperty obj k
      (objectPath.set_keys
         (match objectPath.getShallowProperty obj k with
          | JUndefined => if objectPath.isNumberKey k1 then JArr [] else JObj []
          | c => c
          end) (k1 :: ks) v).
Proof. reflexivity. Qed.

Lemma get_keys_cons (obj : JS) (k : string) (ks : list string) :
  objectPath.get_keys obj (k :: ks)
  = match obj with
    | JUndefined | JNull => JUndefined
    | _ => match objectPath.getShallowProperty obj k with
           | JUndefined => JUndefined
           | next => objectPath.get_keys next ks
           end
    end.
Proof. reflexivity. Qed.

(** Reading back a path at which [undefined] was stored gives [undefined]. *)
Lemma get_set_undefined (ks : list string) (obj : JS) :
  ks <> [] ->
  objectPath.get_keys (objectPath.set_keys obj ks JUndefined) ks = JUndefined.
Proof.
  revert obj. induction ks as [|k ks IH]; intros obj Hne; [congruence|].
  destruct ks as [|k1 ks'].
  - cbn [objectPath.set_keys objectPath.get_keys].
    destruct (getShallowProperty_setProperty obj k JUndefined) as [H | H]; rewrite H;
      destruct (objectPath.setProperty obj k JUndefined); reflexivity.
  - rewrite set_keys_cons2.
    set (sub := objectPath.set_keys _ (k1 :: ks') JUndefined).
    assert (Hsub : objectPath.get_keys sub (k1 :: ks') = JUndefined)
      by (apply IH; discriminate).
    rewrite get_keys_cons. clearbody sub.
    destruct (getShallowProperty_setProperty obj k sub) as [H | H]; rewrite H.
    + destruct (objectPath.setProperty obj k sub); try reflexivity;
        destruct sub; try reflexivity; exact Hsub.
    + destruct (objectPath.setProperty obj k sub); reflexivity.
Qed.

Lemma split_aux_nonempty (acc s : string) : JSString.split_aux dot acc s <> [].
Proof.
  revert acc. induction s as [|c s IH]; intros acc; simpl; [discriminate|].
  destruct (Ascii.eqb c dot); [discriminate | apply IH].
Qed.

Lemma split_nonempty (s : string) : JSString.split dot s <> [].
Proof. apply split_aux_nonempty. Qed.

End ObjectPathFacts.

Section FailedPreconditions.

Variable m : Model.

Lemma rejected_unchanged (e : Err) : rejectedUnchanged m (reject e m).
Proof. split; [now exists e | reflexivity]. Qed.

Lemma addSchemaField_fails (path : string) (d : JS) :
  pathIsValid path = false \/ fieldExists (model_schema m) path ->
  rejectedUnchanged m (addSchemaField m path d).
Proof.
  intros H. unfold addSchemaField.
  destruct (pathIsValid path) eqn:V; cbn [negb]; [|apply rejected_unchanged].
  destruct H as [H | [l [Hl He]]]; [discriminate|].
  rewrite Hl, He. apply rejected_unchanged.
Qed.

Lemma removeSchemaField_fails_eq (path : string) (flag : bool) :
  pathIsValid path = false \/ fieldMissing (model_schema m) path ->
  exists e, removeSchemaField m path flag = reject e m.
Proof.
  intros H. unfold removeSchemaField, removeSchemaField_fuel.
  destruct (pathIsValid path) eqn:V; cbn [negb]; [|now eexists].
  destruct H as [H | [l [Hl He]]]; [discriminate|].
  rewrite Hl, He. cbn [negb]. now eexists.
Qed.

Lemma removeSchemaField_fails (path : string) (flag : bool) :
  pathIsValid path = false \/ fieldMissing (model_schema m) path ->
  rejectedUnchanged m (removeSchemaField m path flag).
Proof.
  intros H. destruct (removeSchemaField_fails_eq path flag H) as [e ->].
  apply rejected_unchanged.
Qed.

Lemma moveSchemaField_fails (g : Globals) (origin dest : string) (flag : bool) :
  pathIsValid origin = false \/ pathIsValid dest = false
  \/ fieldMissing (model_schema m) origin \/ fieldExists (model_schema m) dest ->
  rejectedUnchanged m (moveSchemaField g m origin dest flag).
Proof.
  intros H. unfold moveSchemaField.
  destruct (pathIsValid origin) eqn:Vo; cbn [negb]; [|apply rejected_unchanged].
  destruct (global_path g) as [[| | | |gp| | |]|]; try apply rejected_unchanged.
  destruct (pathIsValid gp); cbn [negb]; [|apply rejected_unchanged].
  destruct (getLastSchemaAndPaths (model_schema m) origin) as [e|lo] eqn:Lo;
    [apply rejected_unchanged|].
  destruct (getLastSchemaAndPaths (model_schema m) dest) as [e|ld] eqn:Ld;
    [apply rejected_unchanged|].
  destruct (Loc.exists_ lo) eqn:Eo; cbn [negb]; [|apply rejected_unchanged].
  destruct (Loc.exists_ ld) eqn:Ed; [apply rejected_unchanged|].
  destruct (negb _); [apply rejected_unchanged|].
  destruct (negb _); [apply rejected_unchanged|].
  destruct H as [H | [H | [[l [Hl He]] | [l [Hl He]]]]].
  - discriminate.
  - unfold addSchemaField. rewrite H. cbn [negb]. rewrite then_reject.
    apply rejected_unchanged.
  - congruence.
  - congruence.
Qed.

Lemma changeFieldDefinition_fails (path : string) (d : JS) :
  pathIsValid path = false \/ fieldMissing (model_schema m) path ->
  rejectedUnchanged m (changeFieldDefinition m path d).
Proof.
  intros H. unfold changeFieldDefinition.
  destruct (pathIsValid path) eqn:V; cbn [negb]; [|apply rejected_unchanged].
  destruct H as [H | H]; [discriminate|].
  destruct (removeSchemaField_fails_eq path false (or_intror H)) as [e He].
  destruct H as [l [Hl Hex]].
  rewrite Hl, Hex, He. cbn [negb]. unfold thenResolve. rewrite !then_reject.
  split; [|reflexivity]. unfold outcome. cbn. now eexists.
Qed.

(** The flag [exists] of a resolution is the result of reading the local
    path in the tree of the owning schema. *)
Lemma resolution_exists (s : Schema) (cp : string) (rest : list string)
      (full : string) (subs : list string) (l : Loc.t) :
  getLastSchemaAndPathsRecursive s cp rest full subs = inr l ->
  Loc.exists_ l
  = negb (isUndefined (objectPath.get (tree (Loc.schema l)) (Loc.path l))).
Proof.
  revert s cp full subs. induction rest as [|next rest IH]; intros s cp full subs H.
  - cbn in H. destruct (isArray s cp); injection H as <-; reflexivity.
  - cbn in H. destruct (isArray s cp).
    + destruct (elementSchema s cp); [|discriminate]. eapply IH; eassumption.
    + eapply IH; eassumption.
Qed.

Lemma getLastSchemaAndPaths_exists (s : Schema) (path : string) (l : Loc.t) :
  getLastSchemaAndPaths s path = inr l ->
  Loc.exists_ l
  = negb (isUndefined (objectPath.get (tree (Loc.schema l)) (Loc.path l))).
Proof.
  unfold getLastSchemaAndPaths. destruct (JSString.split dot path); [discriminate|].
  apply resolution_exists.
Qed.

(** The definition that [changeFieldType] finds for a missing field is
    [undefined]. *)
Lemma fieldDefinitionSuper_missing (s : Schema) (path : string) (l : Loc.t) :
  getLastSchemaAndPaths s path = inr l ->
  Loc.exists_ l = false ->
  tree (Loc.schema l) <> JUndefined ->
  fieldDefinitionSuper l = JUndefined.
Proof.
  intros Hl He Ht. rewrite (getLastSchemaAndPaths_exists _ _ _ Hl) in He.
  apply negb_false_iff in He.
  unfold fieldDefinitionSuper, fieldDefinition0.
  unfold objectPath.get, objectPath.set in *.
  destruct (Loc.path l =? "") eqn:E.
  - destruct (tree (Loc.schema l)); try discriminate. now elim Ht.
  - destruct (objectPath.get_keys (tree (Loc.schema l)) (JSString.split dot (Loc.path l)));
      try discriminate.
    apply get_set_undefined. apply split_nonempty.
Qed.

Lemma changeFieldType_fails (path : string) (newType defaultValue required : JS)
      (keepValues : bool) :
  pathIsValid path = false
  \/ (fieldMissing (model_schema m) path /\ ownerHasTree (model_schema m) path) ->
  rejectedUnchanged m (changeFieldType m path newType defaultValue required keepValues).
Proof.
  intros H. unfold changeFieldType.
  destruct (pathIsValid path) eqn:V; cbn [negb]; [|apply rejected_unchanged].
  destruct H as [H | [[l [Hl He]] Ht]]; [discriminate|].
  rewrite Hl, He. cbn [negb].
  rewrite (fieldDefinitionSuper_missing _ _ _ Hl He (Ht l Hl)). cbn [retype].
  split; [|reflexivity]. unfold outcome. cbn. now eexists.
Qed.

End FailedPreconditions.

(** [C9] Each public operation that fails path validation or its existence
    precondition (the field exists already for an addition and for the
    destination of a move; the field is missing for a removal, for the origin
    of a move, for a redefinition and for a retyping) rejects, and the model
    is what it was: the schema, with every replicated tree, and every stored
    document.  This holds whatever the global scope binds [path] to. *)
Theorem failed_precondition_changes_nothing (g : Globals) (m : Model) :
  (forall path d,
      pathIsValid path = false \/ fieldExists (model_schema m) path ->
      rejectedUnchanged m (addSchemaField m path d))
  /\ (forall path flag,
      pathIsValid path = false \/ fieldMissing (model_schema m) path ->
      rejectedUnchanged m (removeSchemaField m path flag))
  /\ (forall origin dest flag,
      pathIsValid origin = false \/ pathIsValid dest = false
      \/ fieldMissing (model_schema m) origin \/ fieldExists (model_schema m) dest ->
      rejectedUnchanged m (moveSchemaField g m origin dest flag))
  /\ (forall path d,
      pathIsValid path = false \/ fieldMissing (model_schema m) path ->
      rejectedUnchanged m (changeFieldDefinition m path d))
  /\ (forall path newType defaultValue required keepValues,
      pathIsValid path = false
      \/ (fieldMissing (model_schema m) path /\ ownerHasTree (model_schema m) path) ->
      rejectedUnchanged m
        (changeFieldType m path newType defaultValue required keepValues)).
Proof.
  split; [intros p d H; now apply addSchemaField_fails|].
  split; [intros p flag H; now apply removeSchemaField_fails|].
  split; [intros origin dest flag H; now apply moveSchemaField_fails|].
  split; [intros p d H; now apply changeFieldDefinition_fails|].
  intros p newType defaultValue required keepValues H.
  now apply changeFieldType_fails.
Qed.

(** On the schema [{ a : [ { b, c } ], d }] with one document: adding the
    existing [a.b], removing the missing [a.e], moving the missing [a.e],
    redefining the missing [a.e] and retyping with the invalid path [a..b]. *)
Lemma failed_precondition_changes_nothing_witness :
  let m := model_of schema_ab docs_ab in
  rejectedUnchanged m (addSchemaField m "a.b" tString)
  /\ rejectedUnchanged m (removeSchemaField m "a.e" true)
  /\ rejectedUnchanged m (moveSchemaField pathBound m "a.e" "a.f" false)
  /\ rejectedUnchanged m (changeFieldDefinition m "a.e" tString)
  /\ rejectedUnchanged m (changeFieldType m "a.e" tString JUndefined JUndefined false)
  /\ rejectedUnchanged m (changeFieldType m "a..b" tString JUndefined JUndefined false).
Proof.
  cbv zeta.
  destruct (failed_precondition_changes_nothing pathBound (model_of schema_ab docs_ab))
    as [Hadd [Hrm [Hmv [Hdef Hty]]]].
  split; [apply Hadd; right; eexists; split; reflexivity|].
  split; [apply Hrm; right; eexists; split; reflexivity|].
  split; [apply Hmv; right; right; left; eexists; split; reflexivity|].
  split; [apply Hdef; right; eexists; split; reflexivity|].
  split.
  - apply Hty. right. split.
    + eexists. split; reflexivity.
    + intros l Hl. vm_compute in Hl. injection Hl as <-. discriminate.
  - apply Hty. left. reflexivity.
Defined.

(** ** The empty path *)

Lemma resolve_empty_path (s : Schema) :
  getLastSchemaAndPaths s "" = inr (terminal s "" "" []).
Proof.
  unfold getLastSchemaAndPaths. cbn. now destruct (isArray s "").
Qed.

Lemma removeSchemaField_empty_path (m : Model) (fs : list (string * JS)) (flag : bool) :
  tree (model_schema m) = JObj fs ->
  exists ok rest, events (removeSchemaField m "" flag) = Completed "update" ok :: rest.
Proof.
  intros Ht. unfold removeSchemaField, removeSchemaField_fuel.
  change (pathIsValid "") with true. cbn [negb].
  rewrite resolve_empty_path.
  unfold terminal at 1. cbn [Loc.exists_]. unfold objectPath.get at 1.
  change ("" =? "") with true. cbv iota. rewrite Ht. cbn [isUndefined negb].
  match goal with
  | |- context [update ?s ?q ?u ?d] => destruct (update s q u d)
  end; [now eexists; eexists|].
  match goal with
  | |- context [propagate ?e ?s ?p] => destruct (propagate e s p)
  end.
  now eexists; eexists.
Qed.

(** The empty origin passes the validation of [moveSchemaField] and the
    call ends on the [ReferenceError] of the destination check, the schema not
    having been consulted: the empty path does not reach the resolution in
    this operation. *)
Lemma empty_origin_stops_before_resolution :
  pathIsValid "" = true
  /\ moveSchemaField noGlobals (model_of schema_ab docs_ab) "" "e" false
     = reject (ReferenceError "path is not defined") (model_of schema_ab docs_ab).
Proof. split; reflexivity. Qed.

(** [C10] The validator accepts the empty string, and in [addSchemaField],
    [removeSchemaField], [changeFieldDefinition] and [changeFieldType] the
    empty path goes on to the resolution, which finds the tree of the schema
    itself: the addition is rejected because the field exists, the removal and
    the redefinition issue their bulk update, the retyping resolves.  In
    [moveSchemaField] the empty origin is accepted as well, and the call ends
    there, on the [ReferenceError] of the destination check: the empty path
    does not reach the resolution in this operation. *)
Theorem empty_path_after_validation (m : Model) (fs : list (string * JS)) :
  tree (model_schema m) = JObj fs ->
  pathIsValid "" = true
  /\ (exists l, getLastSchemaAndPaths (model_schema m) "" = inr l
                /\ Loc.exists_ l = true /\ Loc.path l = "" /\ Loc.subPaths l = [""])
  /\ (forall d,
        addSchemaField m "" d = reject (Reason "The field to add already exists ()") m)
  /\ (forall flag, exists ok rest,
        events (removeSchemaField m "" flag) = Completed "update" ok :: rest)
  /\ (forall d, exists ok rest,
        events (changeFieldDefinition m "" d) = Completed "update" ok :: rest)
  /\ (forall newType defaultValue required keepValues, exists rest,
        events (changeFieldType m "" newType defaultValue required keepValues)
        = Settle (Resolved (JStr "Field type changed")) :: rest)
  /\ (forall dest flag,
        moveSchemaField noGlobals m "" dest flag
        = reject (ReferenceError "path is not defined") m).
Proof.
  intros Ht.
  assert (Hex : Loc.exists_ (terminal (model_schema m) "" "" []) = true).
  { unfold terminal. cbn [Loc.exists_]. unfold objectPath.get.
    change ("" =? "") with true. cbv iota. now rewrite Ht. }
  split; [reflexivity|].
  split; [exists (terminal (model_schema m) "" "" []); repeat split;
          [apply resolve_empty_path | exact Hex]|].
  split.
  { intros d. unfold addSchemaField. change (pathIsValid "") with true. cbn [negb].
    rewrite resolve_empty_path, Hex. reflexivity. }
  split; [intros flag; eapply removeSchemaField_empty_path; eassumption|].
  split.
  { intros d. unfold changeFieldDefinition. change (pathIsValid "") with true.
    cbn [negb]. rewrite resolve_empty_path, Hex. cbn [negb app events].
    destruct (removeSchemaField_empty_path m fs false Ht) as [ok [rest H]].
    destruct (then_keeps_first_completion _
                (fun _ m0 => addSchemaField m0 "" d) _ _ _ H) as [rest1 H1].
    destruct (then_keeps_first_completion _
                (fun _ m0 => updateDefaults m0
                               (hd "" (Loc.subPaths (terminal (model_schema m) "" "" []))))
                _ _ _ H1) as [rest2 H2].
    destruct (then_keeps_first_completion _
                (fun _ m0 => resolve (JStr "Field definition modified") m0)
                _ _ _ H2) as [rest3 H3].
    unfold thenResolve. rewrite H3. now eexists; eexists. }
  split; [|intros dest flag; reflexivity].
  intros newType defaultValue required keepValues.
  unfold changeFieldType. change (pathIsValid "") with true. cbn [negb].
  rewrite resolve_empty_path, Hex. cbn [negb app].
  assert (Hs : fieldDefinitionSuper (terminal (model_schema m) "" "" []) = JObj []).
  { reflexivity. }
  rewrite Hs. cbn [retype events]. now eexists.
Qed.

Lemma empty_path_after_validation_witness :
  let m := model_of schema_ab docs_ab in
  pathIsValid "" = true
  /\ (exists l, getLastSchemaAndPaths (model_schema m) "" = inr l
                /\ Loc.exists_ l = true /\ Loc.path l = "" /\ Loc.subPaths l = [""])
  /\ (forall d,
        addSchemaField m "" d = reject (Reason "The field to add already exists ()") m)
  /\ (forall flag, exists ok rest,
        events (removeSchemaField m "" flag) = Completed "update" ok :: rest)
  /\ (forall d, exists ok rest,
        events (changeFieldDefinition m "" d) = Completed "update" ok :: rest)
  /\ (forall newType defaultValue required keepValues, exists rest,
        events (changeFieldType m "" newType defaultValue required keepValues)
        = Settle (Resolved (JStr "Field type changed")) :: rest)
  /\ (forall dest flag,
        moveSchemaField noGlobals m "" dest flag
        = reject (ReferenceError "path is not defined") m).
Proof.
  cbv zeta.
  apply (empty_path_after_validation (model_of schema_ab docs_ab)
           [("a", JArr [JObj [("b", tString); ("c", tString)]]); ("d", tString)]).
  reflexivity.
Defined.

(** ** Writing and deleting in a tree *)

Section TreeFacts.

Lemma assoc_assign_other {A : Type} (k k' : string) (v : A) (l : list (string * A)) :
  k' <> k -> assoc k' (assign k v l) = assoc k' l.
Proof.
  intros Hne. induction l as [|[k0 v0] l IH]; simpl.
  - apply String.eqb_neq in Hne. now rewrite String.eqb_sym, Hne.
  - destruct (k0 =? k) eqn:E; simpl.
    + apply String.eqb_eq in E. subst k0.
      apply not_eq_sym in Hne. apply String.eqb_neq in Hne. now rewrite Hne.
    + destruct (k0 =? k'); auto.
Qed.

Lemma assign_assign {A : Type} (k : string) (v w : A) (l : list (string * A)) :
  assign k w (assign k v l) = assign k w l.
Proof.
  induction l as [|[k0 v0] l IH]; simpl.
  - now rewrite String.eqb_refl.
  - destruct (k0 =? k) eqn:E; simpl; rewrite E; congruence.
Qed.

Lemma assign_same {A : Type} (k : string) (v : A) (l : list (string * A)) :
  assoc k l = Some v -> assign k v l = l.
Proof.
  induction l as [|[k0 v0] l IH]; simpl; [discriminate|].
  destruct (k0 =? k) eqn:E.
  - intros H. injection H as ->. reflexivity.
  - intros H. now rewrite IH.
Qed.



Lemma nth_defined_lt (i : nat) (es : list JS) :
  nth i es JUndefined <> JUndefined -> i < List.length es.
Proof.
  revert es. induction i as [|i IH]; intros [|e es] H; simpl in *;
    try congruence; try lia.
  apply IH in H. lia.
Qed.


Lemma assign_index_same (i : nat) (es : list JS) :
  i < List.length es -> objectPath.assign_index i (nth i es JUndefined) es = es.
Proof.
  revert es. induction i as [|i IH]; intros [|e es] H; simpl in *; try lia; auto.
  f_equal. apply IH. lia.
Qed.


(** A value with a defined property is an object or an array. *)
Lemma getShallowProperty_defined (t : JS) (k : string) :
  objectPath.getShallowProperty t k <> JUndefined ->
  (exists fs v, t = JObj fs /\ assoc k fs = Some v)
  \/ (exists es i, t = JArr es /\ objectPath.getKey k = Some i /\ i < List.length es).
Proof.
  destruct t; simpl; try congruence.
  - destruct (assoc k fields) as [j|] eqn:E; [|congruence]. intros _. left.
    exists fields, j. now split.
  - destruct (objectPath.getKey k) eqn:E; [|congruence].
    intros H. right. exists elems, n. repeat split. now apply nth_defined_lt.
Qed.

Lemma getShallowProperty_setProperty_defined (t : JS) (k : string) (x : JS) :
  objectPath.getShallowProperty t k <> JUndefined ->
  objectPath.getShallowProperty (objectPath.setProperty t k x) k = x.
Proof.
  intros H. destruct (getShallowProperty_defined t k H)
    as [[fs [v [-> E]]] | [es [i [-> [E Hi]]]]]; simpl.
  - now rewrite assoc_assign_same.
  - rewrite E. simpl. rewrite E. apply nth_assign_index.
Qed.


Lemma hasShallowProperty_defined (t : JS) (k : string) :
  objectPath.getShallowProperty t k <> JUndefined ->
  objectPath.hasShallowProperty t k = true.
Proof.
  intros H. destruct (getShallowProperty_defined t k H)
    as [[fs [v [-> E]]] | [es [i [-> [E Hi]]]]]; simpl.
  - now rewrite E.
  - rewrite E. now apply Nat.ltb_lt.
Qed.


Lemma setProperty_same (t : JS) (k : string) :
  objectPath.getShallowProperty t k <> JUndefined ->
  objectPath.setProperty t k (objectPath.getShallowProperty t k) = t.
Proof.
  intros H. destruct (getShallowProperty_defined t k H)
    as [[fs [v [-> E]]] | [es [i [-> [E Hi]]]]]; simpl.
  - rewrite E. now rewrite assign_same.
  - rewrite E. now rewrite assign_index_same.
Qed.

(** The steps of [get_keys], [set_keys] and [del_keys] through a property
    that is there. *)
Lemma get_keys_step (t : JS) (k : string) (ks : list string) (v : JS) :
  objectPath.get_keys t (k :: ks) = v -> v <> JUndefined ->
  objectPath.getShallowProperty t k <> JUndefined
  /\ objectPath.get_keys (objectPath.getShallowProperty t k) ks = v.
Proof.
  rewrite get_keys_cons. intros H Hv.
  destruct t; try congruence;
    destruct (objectPath.getShallowProperty _ k) eqn:E; try congruence;
    (split; [congruence | exact H]).
Qed.

Lemma get_keys_through (t : JS) (k : string) (ks : list string) :
  objectPath.getShallowProperty t k <> JUndefined ->
  objectPath.get_keys t (k :: ks)
  = objectPath.get_keys (objectPath.getShallowProperty t k) ks.
Proof.
  intros H. rewrite get_keys_cons.
  destruct (getShallowProperty_defined t k H)
    as [[fs [v [-> E]]] | [es [i [-> [E Hi]]]]];
    destruct (objectPath.getShallowProperty _ k); congruence.
Qed.

Lemma set_keys_through (t : JS) (k k1 : string) (ks : list string) (d : JS) :
  objectPath.getShallowProperty t k <> JUndefined ->
  objectPath.set_keys t (k :: k1 :: ks) d
  = objectPath.setProperty t k
      (objectPath.set_keys (objectPath.getShallowProperty t k) (k1 :: ks) d).
Proof.
  intros H. rewrite set_keys_cons2.
  destruct (objectPath.getShallowProperty t k); congruence.
Qed.

Lemma del_keys_through (t : JS) (k k1 : string) (ks : list string) :
  objectPath.hasShallowProperty t k = true ->
  objectPath.del_keys t (k :: k1 :: ks)
  = objectPath.setProperty t k
      (objectPath.del_keys (objectPath.getShallowProperty t k) (k1 :: ks)).
Proof. intros H. cbn [objectPath.del_keys]. now rewrite H. Qed.

End TreeFacts.

Section PathAlgebra.

Lemma app_cons_shape {A : Type} (ks : list A) (f : A) :
  exists k rest, (ks ++ [f])%list = k :: rest.
Proof. destruct ks; simpl; now eexists; eexists. Qed.


(** Deleting a property that the parent object does not have changes
    nothing. *)
Lemma del_keys_absent (ks : list string) (f : string) :
  forall (t : JS) (pfs : list (string * JS)),
    objectPath.get_keys t ks = JObj pfs -> assoc f pfs = None ->
    objectPath.del_keys t (ks ++ [f]) = t.
Proof.
  induction ks as [|k ks IH]; intros t pfs Hget Hf.
  - cbn in Hget. subst t. cbn. now rewrite Hf.
  - destruct (get_keys_step t k ks _ Hget) as [Hk Hnext]; [discriminate|].
    cbn [app]. destruct (app_cons_shape ks f) as [k1 [rest E]]. rewrite E.
    rewrite del_keys_through by now apply hasShallowProperty_defined.
    rewrite <- E. rewrite (IH _ pfs Hnext Hf). now apply setProperty_same.
Qed.

Lemma get_keys_absent (ks : list string) (f : string) :
  forall (t : JS) (pfs : list (string * JS)),
    objectPath.get_keys t ks = JObj pfs -> assoc f pfs = None ->
    objectPath.get_keys t (ks ++ [f]) = JUndefined.
Proof.
  induction ks as [|k ks IH]; intros t pfs Hget Hf.
  - cbn in Hget. subst t. cbn. now rewrite Hf.
  - destruct (get_keys_step t k ks _ Hget) as [Hk Hnext]; [discriminate|].
    cbn [app]. rewrite get_keys_through by assumption. eapply IH; eassumption.
Qed.



(** What [schema.add] does to a tree with the chain object built by
    [objectPath.set({}, path, definition)], under an existing parent: the
    definition is written at the path, or nothing is (a numeric segment makes
    the chain hold an array where the tree holds an object). *)
Lemma merge_single (t : JS) (k : string) (v : JS) :
  merge t (JObj [(k, v)])
  = match objectPath.getShallowProperty t k with
    | JUndefined => objectPath.setProperty t k v
    | _ => match v with
           | JObj _ => objectPath.setProperty t k
                         (merge (objectPath.getShallowProperty t k) v)
           | _ => t
           end
    end.
Proof. cbn. destruct (objectPath.getShallowProperty t k); reflexivity. Qed.

Lemma set_keys_fresh_shape (c : JS) (ks : list string) (f : string) (d : JS) :
  (c = JObj [] -> exists fs, objectPath.set_keys c (ks ++ [f]) d = JObj fs)
  /\ (c = JArr [] -> exists es, objectPath.set_keys c (ks ++ [f]) d = JArr es).
Proof.
  split.
  - intros ->. destruct (app_cons_shape ks f) as [k [rest E]]. rewrite E.
    destruct rest; [cbn | rewrite set_keys_cons2; cbn]; now eexists.
  - intros ->. destruct (app_cons_shape ks f) as [k [rest E]]. rewrite E.
    destruct rest; [cbn | rewrite set_keys_cons2; cbn];
      destruct (objectPath.getKey k); now eexists.
Qed.

Lemma merge_chain (ks : list string) (f : string) (d : JS) :
  forall (t : JS) (pfs : list (string * JS)),
    objectPath.get_keys t ks = JObj pfs -> assoc f pfs = None ->
    merge t (objectPath.set_keys (JObj []) (ks ++ [f]) d)
    = objectPath.set_keys t (ks ++ [f]) d
    \/ merge t (objectPath.set_keys (JObj []) (ks ++ [f]) d) = t.
Proof.
  induction ks as [|k ks IH]; intros t pfs Hget Hf.
  - cbn in Hget. subst t. left. cbn [app objectPath.set_keys objectPath.setProperty assign].
    rewrite merge_single. cbn. now rewrite Hf.
  - destruct (get_keys_step t k ks _ Hget) as [Hk Hnext]; [discriminate|].
    cbn [app]. destruct (app_cons_shape ks f) as [k1 [rest E]]. rewrite E.
    rewrite (set_keys_through t k k1 rest d Hk).
    rewrite set_keys_cons2. cbn [objectPath.getShallowProperty assoc objectPath.setProperty assign].
    rewrite merge_single. rewrite <- E.
    destruct (objectPath.isNumberKey k1) eqn:K1.
    + right. destruct (proj2 (set_keys_fresh_shape (JArr []) ks f d) eq_refl)
        as [es ->].
      destruct (objectPath.getShallowProperty t k); congruence.
    + destruct (proj1 (set_keys_fresh_shape (JObj []) ks f d) eq_refl) as [fs Hfs].
      destruct (IH _ pfs Hnext Hf) as [H | H].
      * left. rewrite Hfs in *. rewrite H.
        destruct (objectPath.getShallowProperty t k); congruence.
      * right. rewrite Hfs in *. rewrite H.
        destruct (objectPath.getShallowProperty t k) eqn:G; try congruence;
          rewrite <- G; apply setProperty_same; congruence.
Qed.

End PathAlgebra.

(** ** The shape of a resolution *)

Section ResolutionFacts.

Lemma ownerAt_cons (s e : Schema) (h : string) (hs : list string) :
  elementSchema s h = Some e -> ownerAt s (h :: hs) = ownerAt e hs.
Proof. intros H. cbn. now rewrite H. Qed.

Lemma elementSchema_path (s e : Schema) (h : string) :
  elementSchema s h = Some e ->
  exists i, mongoose.path s h = Some (MkSchemaType i (Some e)).
Proof.
  unfold elementSchema. destruct (mongoose.path s h) as [[i o]|]; [|discriminate].
  cbn. intros ->. now exists i.
Qed.

Lemma path_elementSchema (s e : Schema) (h i : string) :
  mongoose.path s h = Some (MkSchemaType i (Some e)) -> elementSchema s h = Some e.
Proof. unfold elementSchema. now intros ->. Qed.

(** A resolution is the terminal record of the schema that its hops lead
    to, and its hops lead somewhere. *)
Lemma resolution_shape (rest : list string) :
  forall (s : Schema) (cp full : string) (subs : list string) (l : Loc.t),
    getLastSchemaAndPathsRecursive s cp rest full subs = inr l ->
    exists hs lp,
      l = terminal (ownerAt s hs) lp (fullAfter full hs) (subs ++ hs)
      /\ hopsValid s hs
      /\ exists suffix, hd lp hs = cp ++ suffix.
Proof.
  induction rest as [|next rest IH]; intros s cp full subs l H.
  - exists [], cp. cbn in H. rewrite app_nil_r.
    split; [destruct (isArray s cp); now injection H as <- |].
    split; [exact I | exists ""; cbn; now rewrite append_empty_r].
  - cbn in H. destruct (isArray s cp).
    + destruct (elementSchema s cp) as [e|] eqn:E; [|discriminate].
      destruct (IH _ _ _ _ _ H) as [hs [lp [Hl [Hv _]]]].
      exists (cp :: hs), lp. rewrite (ownerAt_cons s e cp hs E).
      split; [rewrite Hl; cbn [fullAfter]; unfold extendFull;
              now rewrite <- app_assoc|].
      split; [|exists ""; cbn; now rewrite append_empty_r].
      destruct (elementSchema_path s e cp E) as [i Hp]. cbn. now exists i, e.
    + destruct (IH _ _ _ _ _ H) as [hs [lp [Hl [Hv [suffix Hs]]]]].
      exists hs, lp. split; [exact Hl|]. split; [exact Hv|].
      exists ("." ++ next ++ suffix). rewrite Hs. now rewrite !append_assoc.
Qed.

Lemma getLastSchemaAndPaths_shape (s : Schema) (p : string) (l : Loc.t) :
  getLastSchemaAndPaths s p = inr l ->
  exists hs lp,
    l = terminal (ownerAt s hs) lp (fullAfter "" hs) hs /\ hopsValid s hs.
Proof.
  unfold getLastSchemaAndPaths. destruct (JSString.split dot p) as [|first rest]; [discriminate|].
  intros H. destruct (resolution_shape _ _ _ _ _ _ H) as [hs [lp [Hl [Hv _]]]].
  exists hs, lp. now split.
Qed.

Lemma hops_terminal (s : Schema) (lp full : string) (hs : list string) :
  hops (terminal s lp full hs) = hs.
Proof. unfold hops, terminal. cbn. apply removelast_last. Qed.

End ResolutionFacts.

(** ** The schema after an addition and after a removal *)

Section SchemaEffects.

Lemma propagate_unfold (edit : JS -> string -> JS) (currentSchema : Schema)
      (subPaths : list string) :
  propagate edit currentSchema subPaths
  = match subPaths with
    | hop :: ((_ :: more) as rest) =>
        let edited :=
          MkSchema (edit (tree currentSchema) (JSString.join ".0." subPaths))
                   (paths currentSchema) in
        match mongoose.path edited hop with
        | None => (edited, Some (TypeError "Cannot read property 'schema' of undefined"))
        | Some (MkSchemaType i None) =>
            match more with
            | [] => (edited, None)
            | _ => (edited, Some (TypeError "Cannot read property 'tree' of undefined"))
            end
        | Some (MkSchemaType i (Some elements)) =>
            let (elements', thrown) := propagate edit elements rest in
            (MkSchema (tree edited)
                      (assign hop (MkSchemaType i (Some elements')) (paths edited)),
             thrown)
        end
    | _ => (currentSchema, None)
    end.
Proof. destruct subPaths as [|hop [|x more]]; reflexivity. Qed.

Lemma propagate_step (edit : JS -> string -> JS) (s : Schema) (h x : string)
      (more : list string) (i : string) (e : Schema) :
  mongoose.path s h = Some (MkSchemaType i (Some e)) ->
  propagate edit s (h :: x :: more)
  = (MkSchema (edit (tree s) (JSString.join ".0." (h :: x :: more)))
              (assign h (MkSchemaType i (Some (fst (propagate edit e (x :: more)))))
                      (paths s)),
     snd (propagate edit e (x :: more))).
Proof.
  intros Hp. rewrite propagate_unfold. cbv beta iota zeta.
  unfold mongoose.path in *. cbn [paths tree]. rewrite Hp.
  now destruct (propagate edit e (x :: more)).
Qed.

Lemma propagate_updateOwner (edit : JS -> string -> JS) (f : Schema -> Schema) (lp : string) :
  forall (hs : list string) (s : Schema),
    hopsValid s hs ->
    propagate edit (updateOwner s hs f) (hs ++ [lp]) = (editAlong edit f s hs lp, None).
Proof.
  induction hs as [|h hs IH]; intros s Hv.
  - reflexivity.
  - destruct Hv as [i [e [Hp Hv]]].
    cbn [updateOwner editAlong app]. rewrite Hp.
    destruct (app_cons_shape hs lp) as [x [more E]]. rewrite E.
    rewrite (propagate_step edit _ h x more i (updateOwner e hs f))
      by (unfold mongoose.path; cbn [paths]; apply assoc_assign_same).
    rewrite <- E. rewrite (IH e Hv). cbn [fst snd tree paths].
    now rewrite assign_assign.
Qed.

Lemma final_then_resolve (p : Run) (v : JS) :
  final (then_ p (fun _ m => resolve v m)) = final p.
Proof. unfold then_. now destruct (outcome p). Qed.

Lemma updateDefaults_schema (m : Model) (p : string) :
  model_schema (final (updateDefaults m p)) = model_schema m.
Proof.
  unfold updateDefaults. destruct (find (model_store m) (model_docs m)); [reflexivity|].
  now destruct (List.length (model_docs m) =? 0)%nat.
Qed.



(** A removal without cascade that resolves has found the field and has
    left the schema [removedSchema]. *)
Lemma removeSchemaField_resolved (m : Model) (p : string) (v : JS) :
  outcome (removeSchemaField m p false) = Resolved v ->
  exists l,
    getLastSchemaAndPaths (model_schema m) p = inr l
    /\ Loc.exists_ l = true
    /\ model_schema (final (removeSchemaField m p false))
       = removedSchema (model_schema m) l.
Proof.
  unfold removeSchemaField, removeSchemaField_fuel, removedSchema, outcome.
  destruct (pathIsValid p); cbn [negb]; [|discriminate].
  destruct (getLastSchemaAndPaths (model_schema m) p) as [e|l]; [discriminate|].
  destruct (Loc.exists_ l) eqn:He; cbn [negb]; [|discriminate].
  destruct (update _ _ _ _) as [e|docs]; [discriminate|].
  destruct (propagate _ _ _) as [s3 [e|]] eqn:P; cbn; [discriminate|].
  intros _. exists l. split; [reflexivity|]. split; [exact He|].
  now rewrite P.
Qed.

End SchemaEffects.

(** ** Query paths and declared fields *)

Section QueryPathFacts.

Lemma extendFull_nonempty (full cp : string) :
  full <> "" ->
  extendFull full cp = full ++ ".$[]." ++ cp.
Proof. intros H. unfold extendFull. apply String.eqb_neq in H. now rewrite H. Qed.

Lemma append_nonempty_l (a b : string) : a <> "" -> a ++ b <> "".
Proof. destruct a; [congruence | discriminate]. Qed.

Lemma fullAfter_length (hs : list string) :
  forall full, full <> "" ->
    fullAfter full hs <> "" /\ String.length full <= String.length (fullAfter full hs).
Proof.
  induction hs as [|h hs IH]; intros full Hne; cbn [fullAfter].
  - split; [exact Hne | lia].
  - rewrite (extendFull_nonempty full h Hne).
    destruct (IH (full ++ ".$[]." ++ h) (append_nonempty_l _ _ Hne)) as [H1 H2].
    split; [exact H1|]. rewrite append_length in H2. lia.
Qed.

(** The query path of a location inside an array is longer than its first
    hop. *)
Lemma fullPath_longer (h : string) (hs : list string) (lp : string) :
  h <> "" ->
  String.length h + 5
  <= String.length (extendFull (fullAfter "" (h :: hs)) lp).
Proof.
  intros Hne. cbn [fullAfter]. unfold extendFull at 2. cbn [String.eqb].
  destruct (fullAfter_length hs h Hne) as [H1 H2].
  rewrite (extendFull_nonempty _ lp H1). rewrite append_length.
  cbn [String.length append]. lia.
Qed.

Lemma startsWith_length (p s : string) :
  JSString.startsWith p s = true -> String.length p <= String.length s.
Proof.
  intros H. apply startsWith_iff in H. destruct H as [t ->].
  rewrite append_length. lia.
Qed.

(** [schema.remove(name)] keeps the declared fields with a shorter name. *)
Lemma path_remove_shorter (s : Schema) (name key : string) :
  String.length key < String.length name ->
  mongoose.path (mongoose.remove s name) key = mongoose.path s key.
Proof.
  intros Hlen. unfold mongoose.path, mongoose.remove. cbn [paths].
  induction (paths s) as [|[k0 v0] ps IH]; [reflexivity|].
  cbn [filter fst assoc].
  destruct (k0 =? key) eqn:E.
  - apply String.eqb_eq in E. subst k0.
    assert (N : (key =? name) = false).
    { apply String.eqb_neq. intros ->. lia. }
    assert (S : JSString.startsWith (name ++ ".") key = false).
    { destruct (JSString.startsWith (name ++ ".") key) eqn:S; [|reflexivity].
      apply startsWith_length in S. rewrite append_length in S. lia. }
    rewrite N, S. cbn [orb negb assoc]. now rewrite String.eqb_refl.
  - destruct (negb _); cbn [assoc]; [rewrite E|]; exact IH.
Qed.

Lemma split_aux_hd (s acc : string) :
  exists suffix rest, JSString.split_aux dot acc s = (acc ++ suffix) :: rest.
Proof.
  revert acc. induction s as [|c s IH]; intros acc; cbn [JSString.split_aux].
  - exists "", []. now rewrite append_empty_r.
  - destruct (Ascii.eqb c dot).
    + exists "". eexists. now rewrite append_empty_r.
    + destruct (IH (acc ++ String c "")) as [suffix [rest H]].
      exists (String c suffix), rest. rewrite H. now rewrite append_assoc.
Qed.

(** A path whose first segment is empty, and which has other segments,
    starts with the separator. *)
Lemma split_first_empty (p x : string) (r : list string) :
  JSString.split dot p = "" :: x :: r -> starts_with_separator p.
Proof.
  unfold JSString.split. destruct p as [|c p]; [discriminate|].
  cbn [JSString.split_aux]. destruct (Ascii.eqb c dot) eqn:E.
  - apply Ascii.eqb_eq in E. subst c. intros _. now exists p.
  - destruct (split_aux_hd p ("" ++ String c "")) as [suffix [rest H]].
    rewrite H. discriminate.
Qed.

(** The first hop of a valid path is not empty. *)
Lemma first_hop_nonempty (s : Schema) (p : string) (l : Loc.t) (h : string)
      (hs : list string) :
  pathIsValid p = true ->
  getLastSchemaAndPaths s p = inr l ->
  hops l = h :: hs ->
  h <> "".
Proof.
  intros Hv Hl Hh. unfold getLastSchemaAndPaths in Hl.
  destruct (JSString.split dot p) as [|first rest] eqn:Hs; [discriminate|].
  destruct (resolution_shape _ _ _ _ _ _ Hl) as [hs' [lp [-> [_ [suffix Hd]]]]].
  rewrite hops_terminal in Hh. cbn [app] in Hh. subst hs'. cbn [hd] in Hd.
  intros ->. destruct first; [|discriminate].
  destruct rest as [|x r].
  - cbn [getLastSchemaAndPathsRecursive app] in Hl.
    assert (T : terminal s "" "" []
                = terminal (ownerAt s ("" :: hs)) lp (fullAfter "" ("" :: hs)) ("" :: hs))
      by (destruct (isArray s ""); congruence).
    apply (f_equal hops) in T. rewrite !hops_terminal in T. discriminate.
  - apply split_first_empty in Hs.
    assert (R : pathIsValid p = false).
    { apply (proj1 (pathIsValid_spec p)). now left. }
    congruence.
Qed.

End QueryPathFacts.

(** ** Adding a field, then removing it *)

Section RoundTrip.

Lemma split_aux_app (a b acc : string) :
  JSString.split_aux dot acc (a ++ "." ++ b)
  = (JSString.split_aux dot acc a ++ JSString.split_aux dot "" b)%list.
Proof.
  revert acc. induction a as [|c a IH]; intros acc.
  - reflexivity.
  - cbn [append JSString.split_aux]. destruct (Ascii.eqb c dot).
    + now rewrite IH.
    + now rewrite IH.
Qed.

Lemma split_app (a b : string) :
  JSString.split dot (a ++ "." ++ b)
  = (JSString.split dot a ++ JSString.split dot b)%list.
Proof. apply split_aux_app. Qed.

Lemma split_removelast_last (p : string) :
  JSString.split dot p
  = (removelast (JSString.split dot p) ++ [last (JSString.split dot p) ""])%list.
Proof. apply app_removelast_last. apply split_nonempty. Qed.


Lemma del_path_absent (t : JS) (p : string) :
  parentHolds t p -> objectPath.del t p = t.
Proof.
  intros [pfs [Hg Hf]]. unfold objectPath.del.
  destruct (p =? ""); [reflexivity|].
  rewrite (split_removelast_last p). eapply del_keys_absent; eassumption.
Qed.

Lemma get_path_absent (t : JS) (p : string) :
  p <> "" -> parentHolds t p -> objectPath.get t p = JUndefined.
Proof.
  intros Hne [pfs [Hg Hf]]. unfold objectPath.get.
  apply String.eqb_neq in Hne. rewrite Hne.
  rewrite (split_removelast_last p). eapply get_keys_absent; eassumption.
Qed.

(** [schema.add] of the chain object under an existing parent. *)
Lemma merge_path (t : JS) (p : string) (d : JS) :
  parentHolds t p ->
  merge t (objectPath.set (JObj []) p d) = objectPath.set t p d
  \/ merge t (objectPath.set (JObj []) p d) = t.
Proof.
  intros [pfs [Hg Hf]]. unfold objectPath.set.
  destruct (p =? ""); [now left|].
  rewrite (split_removelast_last p). eapply merge_chain; eassumption.
Qed.

Lemma editAlong_cons (edit : JS -> string -> JS) (f : Schema -> Schema)
      (s e : Schema) (h i : string) (hs : list string) (lp : string) :
  mongoose.path s h = Some (MkSchemaType i (Some e)) ->
  editAlong edit f s (h :: hs) lp
  = MkSchema (edit (tree s) (JSString.join ".0." ((h :: hs) ++ [lp])))
             (assign h (MkSchemaType i (Some (editAlong edit f e hs lp))) (paths s)).
Proof. intros H. cbn [editAlong]. now rewrite H. Qed.

Lemma path_assign_same (t : JS) (ps : list (string * SchemaType)) (h : string)
      (st : SchemaType) :
  mongoose.path (MkSchema t (assign h st ps)) h = Some st.
Proof. unfold mongoose.path. cbn [paths]. apply assoc_assign_same. Qed.


Lemma ownerAt_editAlong (edit : JS -> string -> JS) (f : Schema -> Schema) (lp : string) :
  forall (hs : list string) (s : Schema),
    hopsValid s hs -> ownerAt (editAlong edit f s hs lp) hs = f (ownerAt s hs).
Proof.
  induction hs as [|h hs IH]; intros s Hv; [reflexivity|].
  destruct Hv as [i [e [Hp Hv]]].
  rewrite (editAlong_cons edit f s e h i hs lp Hp).
  rewrite (ownerAt_cons _ (editAlong edit f e hs lp) h hs)
    by (eapply path_elementSchema; apply path_assign_same).
  rewrite (ownerAt_cons s e h hs) by (eapply path_elementSchema; exact Hp).
  now apply IH.
Qed.

Lemma hopsValid_editAlong (edit : JS -> string -> JS) (f : Schema -> Schema) (lp : string) :
  forall (hs : list string) (s : Schema),
    hopsValid s hs -> hopsValid (editAlong edit f s hs lp) hs.
Proof.
  induction hs as [|h hs IH]; intros s Hv; [exact I|].
  destruct Hv as [i [e [Hp Hv]]].
  rewrite (editAlong_cons edit f s e h i hs lp Hp). cbn [hopsValid].
  exists i, (editAlong edit f e hs lp). split; [apply path_assign_same | now apply IH].
Qed.

Section Inner.

Variables (d : JS) (lp : string) (ad rm : Schema -> Schema).



End Inner.

End RoundTrip.

Section RoundTripRoot.



Lemma join_cons2 (sep x y : string) (more : list string) :
  JSString.join sep (x :: y :: more) = x ++ sep ++ JSString.join sep (y :: more).
Proof. reflexivity. Qed.


End RoundTripRoot.



(** An empty placeholder parent is removed by the addition and comes back
    with the field: after the removal of the field it is there again, empty,
    as the last property of the tree. *)
Example add_then_remove_under_a_placeholder :
  let m := model_of schema_placeholder [] in
  let r1 := addSchemaField m "a.b" tString in
  let r2 := removeSchemaField (final r1) "a.b" false in
  tree (model_schema m) = JObj [("a", JObj []); ("x", tString)]
  /\ tree (model_schema (final r1)) = JObj [("x", tString); ("a", JObj [("b", tString)])]
  /\ tree (model_schema (final r2)) = JObj [("x", tString); ("a", JObj [])].
Proof. cbv zeta. repeat split. Qed.

(** ** Joining and splitting paths, and the validator on a prefix *)

Section JoinFacts.

Lemma join_cons_more (sep x : string) (rest : list string) :
  rest <> [] -> JSString.join sep (x :: rest) = x ++ sep ++ JSString.join sep rest.
Proof. destruct rest; [congruence | reflexivity]. Qed.

Lemma join_split_aux (s acc : string) :
  JSString.join "." (JSString.split_aux dot acc s) = acc ++ s.
Proof.
  revert acc. induction s as [|c s IH]; intros acc; cbn [JSString.split_aux].
  - cbn. now rewrite append_empty_r.
  - destruct (Ascii.eqb c dot) eqn:E.
    + apply Ascii.eqb_eq in E. subst c.
      rewrite join_cons_more by apply split_aux_nonempty.
      now rewrite IH.
    + rewrite IH. now rewrite append_assoc.
Qed.

(** Joining the segments of a path gives the path back. *)
Lemma join_split (s : string) : JSString.join "." (JSString.split dot s) = s.
Proof. apply (join_split_aux s ""). Qed.

Lemma join_app (sep : string) (a b : list string) :
  a <> [] -> b <> [] ->
  JSString.join sep (a ++ b) = JSString.join sep a ++ sep ++ JSString.join sep b.
Proof.
  intros Ha Hb. induction a as [|x a IH]; [congruence|].
  destruct a as [|y a].
  - cbn [app]. now rewrite join_cons_more.
  - change ((x :: y :: a) ++ b)%list with (x :: ((y :: a) ++ b))%list.
    rewrite join_cons_more by discriminate.
    rewrite IH by discriminate. rewrite join_cons2. now rewrite !append_assoc.
Qed.

Lemma isName_app (a b : string) :
  isName a = true -> isName b = true -> isName (a ++ b) = true.
Proof.
  intros Ha Hb. induction a as [|c a IH]; [exact Hb|].
  cbn [append isName] in *. apply andb_true_iff in Ha. destruct Ha as [Hc Ha].
  rewrite Hc. now apply IH.
Qed.

Lemma split_aux_names (s acc : string) :
  isName acc = true -> Forall (fun x => isName x = true) (JSString.split_aux dot acc s).
Proof.
  revert acc. induction s as [|c s IH]; intros acc Hacc; cbn [JSString.split_aux].
  - now constructor.
  - destruct (Ascii.eqb c dot) eqn:E.
    + constructor; [exact Hacc | now apply IH].
    + apply IH. apply isName_app; [exact Hacc|]. cbn. now rewrite E.
Qed.

(** The segments of a path hold no separator. *)
Lemma split_names (s : string) : Forall (fun x => isName x = true) (JSString.split dot s).
Proof. now apply split_aux_names. Qed.

(** Splitting the join of names gives the names back. *)
Lemma split_join (ks : list string) :
  ks <> [] -> Forall (fun x => isName x = true) ks ->
  JSString.split dot (JSString.join "." ks) = ks.
Proof.
  intros Hne Hn. induction ks as [|x ks IH]; [congruence|].
  inversion Hn as [|? ? Hx Hks]; subst.
  destruct ks as [|y ks].
  - now apply split_name.
  - rewrite join_cons2. rewrite split_dot by exact Hx.
    now rewrite IH by (discriminate || exact Hks).
Qed.

(** A valid path that goes on after a separator has a valid, non-empty
    path before it. *)
Lemma valid_prefix (q f : string) :
  pathIsValid (q ++ "." ++ f) = true -> q <> "" /\ pathIsValid q = true.
Proof.
  intros Hv. apply (proj2 (pathIsValid_spec _)) in Hv. split.
  - intros ->. apply Hv. left. now exists f.
  - apply (proj2 (pathIsValid_spec q)). intros [[t ->] | [[t ->] | [[a [b ->]] | [a [b ->]]]]];
      apply Hv.
    + left. exists (t ++ "." ++ f). now rewrite !append_assoc.
    + right. right. left. exists t, f. now rewrite !append_assoc.
    + right. right. left. exists a, (b ++ "." ++ f). now rewrite !append_assoc.
    + right. right. right. exists a, (b ++ "." ++ f). now rewrite !append_assoc.
Qed.

Lemma valid_not_trailing (q : string) : pathIsValid (q ++ ".") = true -> False.
Proof.
  intros Hv. apply (proj2 (pathIsValid_spec _)) in Hv. apply Hv.
  right. left. now exists q.
Qed.

Lemma valid_no_reserved (a b : string) :
  pathIsValid (a ++ b) = true -> JSString.includes a "$" = false.
Proof.
  intros Hv. destruct (JSString.includes a "$") eqn:E; [|reflexivity].
  apply includes_iff in E. destruct E as [x [y ->]].
  apply (proj2 (pathIsValid_spec _)) in Hv. exfalso. apply Hv.
  right. right. right. exists x, (y ++ b). now rewrite !append_assoc.
Qed.

Lemma replace_absent (s pat rep : string) :
  JSString.includes s pat = false -> JSString.replace s pat rep = s.
Proof.
  induction s as [|c s IH]; cbn [JSString.includes JSString.replace].
  - destruct (JSString.startsWith pat ""); [discriminate | reflexivity].
  - destruct (JSString.startsWith pat (String c s)); [discriminate|].
    intros H. now rewrite IH.
Qed.

(** [replace] removes the marker that follows a text without the reserved
    character. *)
Lemma replace_marker (a b : string) :
  JSString.includes a "$" = false ->
  JSString.replace (a ++ ".$[]" ++ b) ".$[]" "" = a ++ b.
Proof.
  induction a as [|c a IH]; intros Ha.
  - reflexivity.
  - cbn [JSString.includes] in Ha.
    destruct (JSString.startsWith "$" (String c a)) eqn:S0; [discriminate|].
    change (String c a ++ ".$[]" ++ b) with (String c (a ++ ".$[]" ++ b)).
    cbn [JSString.replace].
    assert (S1 : JSString.startsWith ".$[]" (String c (a ++ ".$[]" ++ b)) = false).
    { cbn [JSString.startsWith]. destruct (Ascii.eqb "." c); [|reflexivity].
      destruct a as [|c' a]; [reflexivity|].
      cbn [JSString.includes] in Ha.
      destruct (JSString.startsWith "$" (String c' a)) eqn:S2; [discriminate|].
      cbn [JSString.startsWith] in S2. cbn [append].
      destruct (Ascii.eqb "$" c'); [discriminate | reflexivity]. }
    rewrite S1. now rewrite IH.
Qed.

End JoinFacts.

(** ** Deleting in a tree, read from above the deleted node *)

Section DeletionFacts.

Lemma remove_key_assign_any {A : Type} (k : string) (v : A) (l : list (string * A)) :
  remove_key k (assign k v l) = remove_key k l.
Proof.
  induction l as [|[k0 v0] l IH]; simpl.
  - now rewrite String.eqb_refl.
  - destruct (k0 =? k) eqn:E; simpl; rewrite E; congruence.
Qed.

Lemma assoc_remove_key {A : Type} (k : string) (l : list (string * A)) :
  assoc k (remove_key k l) = None.
Proof.
  induction l as [|[k0 v0] l IH]; simpl; [reflexivity|].
  destruct (k0 =? k) eqn:E; [exact IH|]. simpl. now rewrite E.
Qed.

Lemma del_keys_defined (t : JS) (ks : list string) :
  t <> JUndefined -> objectPath.del_keys t ks <> JUndefined.
Proof.
  intros Ht. destruct ks as [|k ks]; [exact Ht|].
  cbn [objectPath.del_keys].
  destruct (objectPath.hasShallowProperty t k) eqn:E; [|exact Ht].
  destruct t; try discriminate E; destruct ks; cbn;
    try discriminate; destruct (objectPath.getKey k); discriminate.
Qed.

Lemma app_more_shape {A : Type} (ks more : list A) :
  more <> [] -> exists k rest, (ks ++ more)%list = k :: rest.
Proof.
  intros H. destruct ks; [destruct more; [congruence|]|]; simpl; now eexists; eexists.
Qed.

Lemma get_keys_app (a b : list string) :
  forall t, objectPath.get_keys t (a ++ b) = objectPath.get_keys (objectPath.get_keys t a) b.
Proof.
  induction a as [|k a IH]; intros t; [reflexivity|].
  cbn [app]. rewrite !get_keys_cons.
  destruct t; try (now rewrite get_keys_undefined);
    destruct (objectPath.getShallowProperty _ k);
    try (now rewrite get_keys_undefined); apply IH.
Qed.

(** Under a node that is there, a deletion further down is the deletion in
    that node. *)
Lemma get_del_keys (ks more : list string) :
  more <> [] ->
  forall t,
    objectPath.get_keys t ks <> JUndefined ->
    objectPath.get_keys (objectPath.del_keys t (ks ++ more)) ks
    = objectPath.del_keys (objectPath.get_keys t ks) more.
Proof.
  intros Hmore. induction ks as [|k ks IH]; intros t Hd; [reflexivity|].
  destruct (get_keys_step t k ks _ eq_refl Hd) as [Hk Hnext].
  cbn [app]. destruct (app_more_shape ks more Hmore) as [k1 [rest E]]. rewrite E.
  rewrite del_keys_through by now apply hasShallowProperty_defined.
  rewrite <- E.
  assert (Hd' : objectPath.get_keys (objectPath.getShallowProperty t k) ks <> JUndefined)
    by (now rewrite Hnext).
  specialize (IH _ Hd').
  assert (Hx : objectPath.del_keys (objectPath.getShallowProperty t k) (ks ++ more)
               <> JUndefined).
  { intros C. rewrite C, get_keys_undefined in IH. symmetry in IH.
    revert IH. now apply del_keys_defined. }
  rewrite get_keys_through
    by (now rewrite getShallowProperty_setProperty_defined).
  rewrite getShallowProperty_setProperty_defined by assumption.
  rewrite IH. now rewrite Hnext.
Qed.

Variables (gks : list string) (k f : string) (d : JS) (gfs : list (string * JS)).
Variable t : JS.
Hypothesis Hg : objectPath.get_keys t gks = JObj gfs.
Hypothesis Hk : assoc k gfs = Some (JObj [(f, d)]).

Let t1 : JS := objectPath.del_keys t ((gks ++ [k]) ++ [f]).
Let t2 : JS := objectPath.del_keys t1 (gks ++ [k]).

Lemma parent_before : objectPath.get_keys t (gks ++ [k]) = JObj [(f, d)].
Proof. rewrite get_keys_app, Hg. cbn. now rewrite Hk. Qed.

(** The leaf deleted, its parent is an empty object. *)
Lemma parent_emptied : objectPath.get_keys t1 (gks ++ [k]) = JObj [].
Proof.
  unfold t1. rewrite get_del_keys; [|discriminate|rewrite parent_before; discriminate].
  rewrite parent_before. cbn. now rewrite String.eqb_refl.
Qed.

Lemma grandparent_after_leaf :
  objectPath.get_keys t1 gks = JObj (assign k (JObj []) gfs).
Proof.
  unfold t1. rewrite <- app_assoc.
  rewrite get_del_keys; [|discriminate|rewrite Hg; discriminate].
  rewrite Hg. cbn. rewrite Hk. cbn. now rewrite String.eqb_refl.
Qed.

(** The emptied parent deleted in turn, its own parent has lost it and
    keeps its other properties. *)
Lemma grandparent_after_parent :
  objectPath.get_keys t2 gks = JObj (remove_key k gfs).
Proof.
  unfold t2.
  rewrite get_del_keys; [|discriminate|rewrite grandparent_after_leaf; discriminate].
  rewrite grandparent_after_leaf. cbn. rewrite assoc_assign_same.
  now rewrite remove_key_assign_any.
Qed.

Lemma parent_gone : objectPath.get_keys t2 (gks ++ [k]) = JUndefined.
Proof.
  eapply get_keys_absent; [apply grandparent_after_parent | apply assoc_remove_key].
Qed.

Lemma leaf_deletion_idempotent : objectPath.del_keys t1 ((gks ++ [k]) ++ [f]) = t1.
Proof. eapply del_keys_absent; [apply parent_emptied | reflexivity]. Qed.

Lemma parent_deletion_idempotent : objectPath.del_keys t2 (gks ++ [k]) = t2.
Proof.
  eapply del_keys_absent; [apply grandparent_after_parent | apply assoc_remove_key].
Qed.

End DeletionFacts.

(** ** Resolving the parent of a resolved field *)

Section ParentResolution.

(** The sub-paths of a resolution, joined, are the path. *)
Lemma resolution_join (rest : list string) :
  forall (s : Schema) (cp full : string) (subs : list string) (l : Loc.t),
    getLastSchemaAndPathsRecursive s cp rest full subs = inr l ->
    exists hs lp,
      l = terminal (ownerAt s hs) lp (fullAfter full hs) (subs ++ hs)
      /\ hopsValid s hs
      /\ (exists suffix, hd lp hs = cp ++ suffix)
      /\ JSString.join "." (hs ++ [lp]) = JSString.join "." (cp :: rest).
Proof.
  induction rest as [|next rest IH]; intros s cp full subs l H.
  - exists [], cp. cbn in H. rewrite app_nil_r.
    split; [destruct (isArray s cp); now injection H as <- |].
    split; [exact I|]. split; [exists ""; cbn; now rewrite append_empty_r | reflexivity].
  - cbn in H. destruct (isArray s cp).
    + destruct (elementSchema s cp) as [e|] eqn:E; [|discriminate].
      destruct (IH _ _ _ _ _ H) as [hs [lp [Hl [Hv [_ Hj]]]]].
      exists (cp :: hs), lp. rewrite (ownerAt_cons s e cp hs E).
      split; [rewrite Hl; cbn [fullAfter]; unfold extendFull;
              now rewrite <- app_assoc|].
      split; [destruct (elementSchema_path s e cp E) as [i Hp]; cbn; now exists i, e|].
      split; [exists ""; cbn; now rewrite append_empty_r|].
      cbn [app]. rewrite join_cons_more by (destruct hs; discriminate).
      rewrite Hj. now rewrite join_cons2.
    + destruct (IH _ _ _ _ _ H) as [hs [lp [Hl [Hv [[suffix Hs] Hj]]]]].
      exists hs, lp. split; [exact Hl|]. split; [exact Hv|].
      split; [exists ("." ++ next ++ suffix); rewrite Hs; now rewrite !append_assoc|].
      rewrite Hj. rewrite join_cons2. destruct rest as [|x rest].
      * reflexivity.
      * rewrite !join_cons2. now rewrite !append_assoc.
Qed.

Lemma isArray_path (s s' : Schema) (c : string) :
  mongoose.path s' c = mongoose.path s c -> isArray s' c = isArray s c.
Proof. unfold isArray. now intros ->. Qed.

Lemma isArray_assign (t : JS) (s e e' : Schema) (h i c : string) :
  mongoose.path s h = Some (MkSchemaType i (Some e)) ->
  isArray (MkSchema t (assign h (MkSchemaType i (Some e')) (paths s))) c = isArray s c.
Proof.
  intros Hp. unfold isArray, mongoose.path in *. cbn [paths].
  destruct (String.eqb c h) eqn:E.
  - apply String.eqb_eq in E. subst c. rewrite assoc_assign_same, Hp. reflexivity.
  - apply String.eqb_neq in E. now rewrite assoc_assign_other.
Qed.

Lemma sameArrays_editAlong (edit : JS -> string -> JS) (F : Schema -> Schema) (lp : string) :
  (forall o c, String.length c < String.length lp -> isArray (F o) c = isArray o c) ->
  forall (hs : list string) (s : Schema),
    hopsValid s hs -> sameArrays hs lp s (editAlong edit F s hs lp).
Proof.
  intros HF. induction hs as [|h hs IH]; intros s Hv.
  - intros c Hc. now apply HF.
  - destruct Hv as [i [e [Hp Hv]]].
    rewrite (editAlong_cons edit F s e h i hs lp Hp). split.
    + intros c _. now apply (isArray_assign _ s e).
    + exists e, (editAlong edit F e hs lp).
      split; [eapply path_elementSchema; exact Hp|].
      split; [eapply path_elementSchema; apply path_assign_same | now apply IH].
Qed.

Lemma updateOwner_editAlong (edit : JS -> string -> JS) (F G : Schema -> Schema)
      (lp : string) :
  forall (hs : list string) (s : Schema),
    hopsValid s hs ->
    updateOwner (editAlong edit F s hs lp) hs G
    = editAlong edit (fun o => G (F o)) s hs lp.
Proof.
  induction hs as [|h hs IH]; intros s Hv; [reflexivity|].
  destruct Hv as [i [e [Hp Hv]]].
  rewrite (editAlong_cons edit F s e h i hs lp Hp).
  rewrite (editAlong_cons edit (fun o => G (F o)) s e h i hs lp Hp).
  cbn [updateOwner]. rewrite path_assign_same. cbn [tree paths].
  rewrite assign_assign. now rewrite (IH e Hv).
Qed.

(** Removing the query path of a location from the root keeps the hops. *)
Lemma path_remove_query (s : Schema) (h : string) (hs : list string) (lp c : string) :
  h <> "" -> String.length c <= String.length h ->
  mongoose.path (mongoose.remove s (extendFull (fullAfter "" (h :: hs)) lp)) c
  = mongoose.path s c.
Proof.
  intros Hne Hc. apply path_remove_shorter.
  pose proof (fullPath_longer h hs lp Hne). lia.
Qed.

Lemma hopsValid_remove (s : Schema) (hs : list string) (lp : string) :
  (forall h hs', hs = h :: hs' -> h <> "") ->
  hopsValid s hs ->
  hopsValid (mongoose.remove s (extendFull (fullAfter "" hs) lp)) hs.
Proof.
  intros Hne Hv. destruct hs as [|h hs]; [exact I|].
  destruct Hv as [i [e [Hp Hv]]]. exists i, e. split; [|exact Hv].
  rewrite path_remove_query; [exact Hp | now apply (Hne h hs) | lia].
Qed.

Lemma ownerAt_remove (s : Schema) (h : string) (hs : list string) (lp : string) :
  h <> "" -> hopsValid s (h :: hs) ->
  ownerAt (mongoose.remove s (extendFull (fullAfter "" (h :: hs)) lp)) (h :: hs)
  = ownerAt s (h :: hs).
Proof.
  intros Hne [i [e [Hp _]]]. cbn [ownerAt]. unfold elementSchema.
  rewrite path_remove_query; [now rewrite Hp | exact Hne | lia].
Qed.

End ParentResolution.

Section ParentQuery.

Lemma resolve_unfold (s : Schema) (cp : string) (rest : list string) (full : string)
      (subs : list string) :
  getLastSchemaAndPathsRecursive s cp rest full subs
  = if isArray s cp then
      match rest with
      | next :: rest' =>
          match elementSchema s cp with
          | Some elements =>
              getLastSchemaAndPathsRecursive elements next rest'
                (extendFull full cp) (subs ++ [cp])%list
          | None => inl (TypeError "Cannot read property 'path' of undefined")
          end
      | [] => inr (terminal s cp full subs)
      end
    else
      match rest with
      | next :: rest' =>
          getLastSchemaAndPathsRecursive s (cp ++ "." ++ next) rest' full subs
      | [] => inr (terminal s cp full subs)
      end.
Proof. destruct rest; reflexivity. Qed.

Lemma append_cancel_segment (a b f : string) :
  isName f = true -> a ++ "." ++ f = b ++ "." ++ f -> a = b.
Proof.
  intros Hf H. apply (f_equal (JSString.split dot)) in H.
  rewrite !split_app, (split_name f Hf) in H.
  apply app_inj_tail in H. destruct H as [H _].
  apply (f_equal (JSString.join ".")) in H. now rewrite !join_split in H.
Qed.

(** In a schema that tells the same arrays along the hops, the path
    without its last segment resolves to the parent of the field, in the
    schema the same hops lead to. *)
Lemma resolution_of_parent (f : string) (rest : list string) :
  isName f = true ->
  forall (s s' : Schema) (cp full : string) (subs : list string) (l : Loc.t)
         (hs : list string) (parent : string),
    getLastSchemaAndPathsRecursive s cp (rest ++ [f]) full subs = inr l ->
    Loc.subPaths l = ((subs ++ hs) ++ [(parent ++ "." ++ f)%string])%list ->
    sameArrays hs (parent ++ "." ++ f) s s' ->
    getLastSchemaAndPathsRecursive s' cp rest full subs
    = inr (terminal (ownerAt s' hs) parent (fullAfter full hs) (subs ++ hs)).
Proof.
  intros Hf. induction rest as [|next rest IH]; intros s s' cp full subs l hs parent H Hsub Hsim.
  - cbn [app] in H. rewrite resolve_unfold in H. destruct (isArray s cp) eqn:A.
    + destruct (elementSchema s cp) as [e|] eqn:E; [|discriminate].
      rewrite resolve_unfold in H.
      assert (Hl : l = terminal e f (extendFull full cp) (subs ++ [cp]))
        by (destruct (isArray e f); now injection H as <-).
      subst l. cbn [Loc.subPaths terminal] in Hsub.
      apply app_inj_tail in Hsub. destruct Hsub as [_ Hsub].
      apply (f_equal String.length) in Hsub. rewrite append_length in Hsub.
      cbn [String.length append] in Hsub. lia.
    + rewrite resolve_unfold in H.
      assert (Hl : l = terminal s (cp ++ "." ++ f) full subs)
        by (destruct (isArray s (cp ++ "." ++ f)); now injection H as <-).
      subst l. cbn [Loc.subPaths terminal] in Hsub.
      apply app_inj_tail in Hsub. destruct Hsub as [H1 H2].
      rewrite <- (app_nil_r subs) in H1 at 1. apply app_inv_head in H1. subst hs.
      apply (append_cancel_segment _ _ _ Hf) in H2. subst parent.
      rewrite resolve_unfold. cbn [ownerAt fullAfter]. rewrite app_nil_r.
      now destruct (isArray s' cp).
  - change ((next :: rest) ++ [f])%list with (next :: (rest ++ [f]))%list in H.
    rewrite resolve_unfold in H. rewrite resolve_unfold.
    destruct (isArray s cp) eqn:A.
    + destruct (elementSchema s cp) as [e|] eqn:E; [|discriminate].
      destruct (resolution_shape _ _ _ _ _ _ H) as [hs2 [lp2 [Hl _]]].
      pose proof Hsub as Hsub'. rewrite Hl in Hsub'. cbn [Loc.subPaths terminal] in Hsub'.
      apply app_inj_tail in Hsub'. destruct Hsub' as [H1 _].
      rewrite <- app_assoc in H1. apply app_inv_head in H1. cbn [app] in H1. subst hs.
      destruct Hsim as [Hroot [e0 [e' [E0 [E' Hrec]]]]].
      rewrite E in E0. injection E0 as <-.
      rewrite (Hroot cp (Nat.le_refl _)), A, E'.
      rewrite (ownerAt_cons s' e' cp hs2 E'). cbn [fullAfter].
      rewrite (IH e e' next (extendFull full cp) (subs ++ [cp])%list l hs2 parent H).
      * now rewrite <- app_assoc.
      * rewrite Hsub. now rewrite <- !app_assoc.
      * exact Hrec.
    + destruct (resolution_shape _ _ _ _ _ _ H) as [hs2 [lp2 [Hl [_ [suffix Hs]]]]].
      pose proof Hsub as Hsub'. rewrite Hl in Hsub'. cbn [Loc.subPaths terminal] in Hsub'.
      apply app_inj_tail in Hsub'. destruct Hsub' as [H1 H2].
      apply app_inv_head in H1. subst hs2 lp2.
      assert (A' : isArray s' cp = false).
      { rewrite <- A. destruct hs as [|h hs]; cbn [hd] in Hs.
        - apply Hsim. rewrite Hs, !append_length. cbn [String.length append]. lia.
        - destruct Hsim as [Hroot _]. apply Hroot.
          rewrite Hs, !append_length. lia. }
      rewrite A'. now apply (IH s s' _ full subs l hs parent).
Qed.

(** After the removal of a field and of what the cascade branch deletes in
    the owner, the schema tells the same arrays along the hops. *)
Lemma sameArrays_after_removal (edit : JS -> string -> JS) (F : Schema -> Schema)
      (s : Schema) (hs : list string) (lp : string) :
  (forall o c, String.length c < String.length lp -> isArray (F o) c = isArray o c) ->
  (forall h hs', hs = h :: hs' -> h <> "") ->
  hopsValid s hs ->
  sameArrays hs lp s
    (editAlong edit F (mongoose.remove s (extendFull (fullAfter "" hs) lp)) hs lp).
Proof.
  intros HF Hne Hv. destruct hs as [|h hs].
  - cbn [editAlong fullAfter sameArrays]. unfold extendFull. cbn [String.eqb].
    intros c Hc. rewrite (HF _ c Hc). apply isArray_path.
    now apply path_remove_shorter.
  - pose proof (Hne h hs eq_refl) as Hh. destruct Hv as [i [e [Hp Hv]]].
    set (s1 := mongoose.remove s (extendFull (fullAfter "" (h :: hs)) lp)).
    assert (Hp1 : mongoose.path s1 h = Some (MkSchemaType i (Some e))).
    { unfold s1. rewrite path_remove_query; [exact Hp | exact Hh | lia]. }
    rewrite (editAlong_cons edit F s1 e h i hs lp Hp1). split.
    + intros c Hc. rewrite (isArray_assign _ s1 e _ h i c Hp1).
      apply isArray_path. now apply path_remove_query.
    + exists e, (editAlong edit F e hs lp).
      split; [eapply path_elementSchema; exact Hp|].
      split; [eapply path_elementSchema; apply path_assign_same|].
      now apply sameArrays_editAlong.
Qed.

(** The tree of the owner, once the query path is removed from the root:
    as it was, or without the field when the root is the owner. *)
Lemma owner_tree_removed (s : Schema) (hs : list string) (lp : string) :
  (forall h hs', hs = h :: hs' -> h <> "") ->
  hopsValid s hs ->
  tree (ownerAt (mongoose.remove s (extendFull (fullAfter "" hs) lp)) hs)
  = tree (ownerAt s hs)
  \/ tree (ownerAt (mongoose.remove s (extendFull (fullAfter "" hs) lp)) hs)
     = objectPath.del (tree (ownerAt s hs)) lp.
Proof.
  intros Hne Hv. destruct hs as [|h hs].
  - right. reflexivity.
  - left. rewrite ownerAt_remove; [reflexivity | now apply (Hne h hs) | exact Hv].
Qed.

Lemma firstSettle_completions (evs : list Event) (o : Outcome) :
  firstSettle (completions evs ++ [Settle o]) = o.
Proof.
  induction evs as [|[o'|op ok] evs IH]; [reflexivity | exact IH | exact IH].
Qed.

Lemma replace_no_marker (s : string) :
  JSString.includes s "$" = false -> JSString.replace s ".$[]" "" = s.
Proof.
  intros H. apply replace_absent.
  destruct (JSString.includes s ".$[]") eqn:E; [|reflexivity].
  apply includes_iff in E. destruct E as [a [b ->]].
  assert (C : JSString.includes (a ++ ".$[]" ++ b) "$" = true)
    by (apply includes_iff; exists (a ++ "."), ("[]" ++ b); now rewrite !append_assoc).
  congruence.
Qed.

(** The path of the cascade call, for a field under at most two arrays: the
    path of the field without its last segment. *)
Lemma parent_query_path (hs : list string) (parent f : string) :
  List.length hs <= 2 ->
  (forall h hs', hs = h :: hs' -> h <> "") ->
  pathIsValid (JSString.join "." (hs ++ [parent ++ "." ++ f])) = true ->
  let pathToLast := JSString.replace (fullAfter "" hs) ".$[]" "" in
  JSString.join "." (hs ++ [parent ++ "." ++ f])
  = (if pathToLast =? "" then parent else pathToLast ++ "." ++ parent) ++ "." ++ f.
Proof.
  intros Hlen Hne Hv. cbv zeta.
  destruct hs as [|h1 [|h2 [|h3 hs]]]; [| | |cbn [List.length] in Hlen; lia].
  - reflexivity.
  - pose proof (Hne h1 [] eq_refl) as Hh.
    cbn [app JSString.join] in *.
    assert (E : JSString.replace (fullAfter "" [h1]) ".$[]" "" = h1).
    { cbn [fullAfter]. unfold extendFull. cbn [String.eqb].
      apply replace_no_marker. exact (valid_no_reserved _ _ Hv). }
    rewrite E. apply String.eqb_neq in Hh. rewrite Hh. now rewrite !append_assoc.
  - pose proof (Hne h1 [h2] eq_refl) as Hh.
    cbn [app JSString.join] in *.
    assert (E : JSString.replace (fullAfter "" [h1; h2]) ".$[]" "" = h1 ++ "." ++ h2).
    { cbn [fullAfter]. unfold extendFull at 2. cbn [String.eqb].
      rewrite (extendFull_nonempty h1 h2 Hh).
      change (h1 ++ ".$[]." ++ h2) with (h1 ++ ".$[]" ++ ("." ++ h2)).
      apply replace_marker. exact (valid_no_reserved _ _ Hv). }
    rewrite E.
    assert (N : (h1 ++ "." ++ h2 =? "") = false)
      by (apply String.eqb_neq; now apply append_nonempty_l).
    rewrite N. now rewrite !append_assoc.
Qed.

End ParentQuery.

Section CascadeRun.

(** A removal without cascade of a field that is there, the store
    answering: the promise resolves and the schema is [editAlong] of the
    deletion. *)
Lemma removeSchemaField_plain (n : nat) (m : Model) (q : string) (o : Schema)
      (lp : string) (hs : list string) :
  pathIsValid q = true ->
  getLastSchemaAndPaths (model_schema m) q = inr (terminal o lp (fullAfter "" hs) hs) ->
  objectPath.get (tree o) lp <> JUndefined ->
  (forall a b ds, exists ds', update (model_store m) a b ds = inr ds') ->
  hopsValid (model_schema m) hs ->
  (forall h hs', hs = h :: hs' -> h <> "") ->
  let r := removeSchemaField_fuel (S n) m q false in
  outcome r = Resolved (JStr "Field removed successfully")
  /\ model_schema (final r)
     = editAlong objectPath.del (fun x => mongoose.remove x lp)
         (mongoose.remove (model_schema m) (extendFull (fullAfter "" hs) lp)) hs lp.
Proof.
  intros Hv Hl He Hst Hhv Hne. cbv zeta. cbn [removeSchemaField_fuel].
  rewrite Hv, Hl. cbn [negb Loc.exists_ terminal].
  assert (Ex : isUndefined (objectPath.get (tree o) lp) = false)
    by (destruct (objectPath.get (tree o) lp); congruence || reflexivity).
  rewrite Ex. cbn [negb].
  match goal with
  | |- context [update (model_store m) ?a ?b ?ds] =>
      destruct (Hst a b ds) as [docs Hu]; rewrite Hu
  end.
  rewrite hops_terminal. cbn [Loc.subPaths Loc.fullPath Loc.path terminal].
  fold (extendFull (fullAfter "" hs) lp).
  rewrite (propagate_updateOwner objectPath.del (fun x => mongoose.remove x lp) lp hs _
             (hopsValid_remove _ hs lp Hne Hhv)).
  split; reflexivity.
Qed.

End CascadeRun.

(** ** Removing a field with [removeSubdocumentIfEmpty] *)

(** [C3] When the field is the only one of its parent subdocument, the
    parent being a property of an object of the owner tree, and lies under
    at most two arrays, [removeSchemaField] with [removeSubdocumentIfEmpty]
    resolves (the store answering its updates), the emptied parent has left
    the owner tree, and the deletion stops there: the object that held the
    parent keeps its place with its other properties, even when it has
    none. *)
Theorem cascade_removes_the_emptied_parent_only
        (m : Model) (p : string) (l : Loc.t) (gks : list string) (k f : string) (d : JS)
        (gfs : list (string * JS)) :
  pathIsValid p = true ->
  getLastSchemaAndPaths (model_schema m) p = inr l ->
  List.length (hops l) <= 2 ->
  JSString.split dot (Loc.path l) = ((gks ++ [k]) ++ [f])%list ->
  objectPath.get_keys (tree (Loc.schema l)) gks = JObj gfs ->
  assoc k gfs = Some (JObj [(f, d)]) ->
  d <> JUndefined ->
  (forall a b ds, exists ds', update (model_store m) a b ds = inr ds') ->
  let r := removeSchemaField m p true in
  let owner := ownerAt (model_schema (final r)) (hops l) in
  outcome r = Resolved (JStr "Field removed successfully")
  /\ objectPath.get_keys (tree owner) (gks ++ [k]) = JUndefined
  /\ objectPath.get_keys (tree owner) gks = JObj (remove_key k gfs).
Proof.
  intros Hv Hl Hlen Hsp Hg Hk Hd Hst.
  assert (Hne : forall h hs', hops l = h :: hs' -> h <> "")
    by (intros h hs' E; exact (first_hop_nonempty (model_schema m) p l h hs' Hv Hl E)).
  pose proof Hl as Hres. unfold getLastSchemaAndPaths in Hres.
  destruct (JSString.split dot p) as [|first rest] eqn:Hsplit; [discriminate|].
  destruct (resolution_join _ _ _ _ _ _ Hres) as [hs [lp [El [Hhv [_ Hj]]]]].
  cbn [app] in El. subst l. rewrite hops_terminal in *.
  cbn [Loc.path Loc.schema terminal] in Hsp, Hg.
  rewrite <- Hsplit, join_split in Hj.
  (* the segments of the local path *)
  pose proof (split_names lp) as Hnames. rewrite Hsp in Hnames.
  apply Forall_app in Hnames. destruct Hnames as [Hpn Hf]. apply Forall_inv in Hf.
  remember (JSString.join "." (gks ++ [k])) as parent eqn:Eparent.
  assert (Elp : lp = parent ++ "." ++ f).
  { rewrite <- (join_split lp), Hsp, Eparent.
    rewrite join_app; [reflexivity | destruct gks; discriminate | discriminate]. }
  (* the path of the cascade call *)
  pose proof (parent_query_path hs parent f Hlen Hne) as Hq. rewrite <- Elp, Hj in Hq.
  specialize (Hq Hv). cbv zeta in Hq.
  remember (if JSString.replace (fullAfter "" hs) ".$[]" "" =? "" then parent
            else JSString.replace (fullAfter "" hs) ".$[]" "" ++ "." ++ parent)
    as q eqn:Eq.
  assert (Hvq : q <> "" /\ pathIsValid q = true)
    by (apply (valid_prefix q f); now rewrite <- Hq).
  destruct Hvq as [Hq1 Hq2].
  assert (Hpar : parent <> "").
  { intros E. rewrite E in Eq.
    destruct (JSString.replace (fullAfter "" hs) ".$[]" "" =? ""); [congruence|].
    rewrite Eq in Hq2. exact (valid_not_trailing _ Hq2). }
  assert (Hsplitpar : JSString.split dot parent = (gks ++ [k])%list).
  { rewrite Eparent. apply split_join; [destruct gks; discriminate | exact Hpn]. }
  assert (Hsq : (first :: rest) = (JSString.split dot q ++ [f])%list).
  { rewrite <- Hsplit, Hq, split_app, (split_name f Hf). reflexivity. }
  destruct (JSString.split dot q) as [|qfirst qrest] eqn:Hsplitq;
    [exfalso; exact (split_nonempty q Hsplitq)|].
  cbn [app] in Hsq. injection Hsq as -> ->.
  (* the owner tree *)
  pose proof (parent_before gks k f d gfs _ Hg Hk) as Pb.
  pose proof (parent_emptied gks k f d gfs _ Hg Hk) as Pe.
  pose proof (grandparent_after_parent gks k f d gfs _ Hg Hk) as Gp.
  pose proof (parent_gone gks k f d gfs _ Hg Hk) as Pg.
  pose proof (leaf_deletion_idempotent gks k f d gfs _ Hg Hk) as Li.
  pose proof (parent_deletion_idempotent gks k f d gfs _ Hg Hk) as Pi.
  cbv zeta in Pe, Gp, Pg, Li, Pi.
  assert (Nlp : (lp =? "") = false).
  { rewrite Elp. apply String.eqb_neq. now apply append_nonempty_l. }
  assert (Npar : (parent =? "") = false) by (now apply String.eqb_neq).
  assert (Dlp : forall t, objectPath.del t lp = objectPath.del_keys t ((gks ++ [k]) ++ [f]))
    by (intros t; unfold objectPath.del; now rewrite Nlp, Hsp).
  assert (Dpar : forall t, objectPath.del t parent = objectPath.del_keys t (gks ++ [k]))
    by (intros t; unfold objectPath.del; now rewrite Npar, Hsplitpar).
  assert (Gpar : forall t, objectPath.get t parent = objectPath.get_keys t (gks ++ [k]))
    by (intros t; unfold objectPath.get; now rewrite Npar, Hsplitpar).
  assert (Glp : objectPath.get (tree (ownerAt (model_schema m) hs)) lp <> JUndefined).
  { unfold objectPath.get. rewrite Nlp, Hsp, get_keys_app, Pb. cbn.
    rewrite String.eqb_refl. destruct d; congruence. }
  (* the schema after the removal of the field *)
  pose (s1 := mongoose.remove (model_schema m) (extendFull (fullAfter "" hs) lp)).
  pose (s3 := editAlong objectPath.del (fun s : Schema => mongoose.remove s lp) s1 hs lp).
  pose (s4 := updateOwner s3 hs
                (fun s : Schema => MkSchema (objectPath.del (tree s) lp) (paths s))).
  assert (Hhv1 : hopsValid s1 hs) by (now apply hopsValid_remove).
  assert (E4 : s4 = editAlong objectPath.del
                      (fun o : Schema =>
                         MkSchema (objectPath.del (tree (mongoose.remove o lp)) lp)
                                  (paths (mongoose.remove o lp))) s1 hs lp)
    by (unfold s4, s3; now rewrite updateOwner_editAlong).
  assert (Hhv4 : hopsValid s4 hs) by (rewrite E4; now apply hopsValid_editAlong).
  assert (T4 : tree (ownerAt s4 hs)
               = objectPath.del_keys (tree (ownerAt (model_schema m) hs))
                   ((gks ++ [k]) ++ [f])).
  { rewrite E4. rewrite ownerAt_editAlong by exact Hhv1. unfold mongoose.remove.
    cbn [tree]. unfold s1.
    destruct (owner_tree_removed (model_schema m) hs lp Hne Hhv) as [E | E];
      rewrite E, !Dlp, ?Li; reflexivity. }
  assert (Hsim : sameArrays hs lp (model_schema m) s4).
  { rewrite E4. unfold s1. apply sameArrays_after_removal; [|exact Hne|exact Hhv].
    intros o c Hc. apply isArray_path.
    change (mongoose.path (mongoose.remove o lp) c = mongoose.path o c).
    now apply path_remove_shorter. }
  assert (HlQ : getLastSchemaAndPaths s4 q
                = inr (terminal (ownerAt s4 hs) parent (fullAfter "" hs) hs)).
  { unfold getLastSchemaAndPaths. rewrite Hsplitq.
    apply (resolution_of_parent f qrest Hf (model_schema m) s4 qfirst "" [] _ hs parent Hres).
    - cbn [Loc.subPaths terminal app]. now rewrite Elp.
    - rewrite <- Elp. exact Hsim. }
  assert (HeQ : objectPath.get (tree (ownerAt s4 hs)) parent <> JUndefined)
    by (rewrite T4, Gpar, Pe; discriminate).
  assert (Hrl : JSString.join "." (removelast (JSString.split dot lp)) = parent)
    by (now rewrite Hsp, removelast_last, Eparent).
  (* the run *)
  cbv zeta. unfold removeSchemaField.
  remember 1 as n eqn:En. cbn [removeSchemaField_fuel].
  assert (Hlen2 : (1 <? List.length (JSString.split dot lp))%nat = true).
  { rewrite Hsp, !length_app. cbn [List.length]. apply Nat.ltb_lt. lia. }
  rewrite Hv, Hl. cbn [negb Loc.exists_ terminal].
  assert (Ex : isUndefined (objectPath.get (tree (ownerAt (model_schema m) hs)) lp) = false)
    by (destruct (objectPath.get (tree (ownerAt (model_schema m) hs)) lp);
        congruence || reflexivity).
  rewrite Ex. cbn [negb].
  match goal with
  | |- context [update (model_store m) ?a ?b ?ds] =>
      destruct (Hst a b ds) as [docs Hu]; rewrite Hu
  end.
  rewrite hops_terminal. cbn [Loc.subPaths Loc.fullPath Loc.path Loc.pathToLast terminal].
  fold (extendFull (fullAfter "" hs) lp). fold s1.
  rewrite (propagate_updateOwner objectPath.del (fun s : Schema => mongoose.remove s lp)
             lp hs s1 Hhv1).
  fold s3. fold s4. rewrite Hlen2, Hrl, <- Eq.
  rewrite T4, Gpar, Pe. cbn [keysEmpty]. subst n.
  destruct (removeSchemaField_plain 0
              (with_schema
                 (with_subpaths (with_docs (with_schema m s3) docs)
                    (remove_key (JSString.join ".0." (hs ++ [lp])) (model_subpaths m)))
                 s4) q
              (ownerAt s4 hs) parent hs Hq2 HlQ HeQ Hst Hhv4 Hne) as [Ho Hs5].
  set (inner := removeSchemaField_fuel 1 _ q false) in *.
  assert (Hfin : final (thenResolveNoCatch "Field removed successfully" inner) = final inner)
    by (unfold thenResolveNoCatch; now rewrite Ho).
  assert (T5 : tree (ownerAt (model_schema (final inner)) hs)
               = objectPath.del_keys
                   (objectPath.del_keys (tree (ownerAt (model_schema m) hs))
                      ((gks ++ [k]) ++ [f]))
                   (gks ++ [k])).
  { rewrite Hs5. cbn [model_schema with_schema].
    rewrite ownerAt_editAlong by (now apply hopsValid_remove).
    unfold mongoose.remove at 1. cbn [tree].
    destruct (owner_tree_removed s4 hs parent Hne Hhv4) as [E | E];
      rewrite E, T4, !Dpar, ?Pi; reflexivity. }
  split.
  - unfold outcome. cbn [events firstSettle]. unfold thenResolveNoCatch. rewrite Ho.
    cbn [events]. apply firstSettle_completions.
  - cbn [final]. rewrite Hfin, T5. split; [exact Pg | exact Gp].
Qed.

(** The field [note] of [{ items : [ { meta : { note }, name } ] }]: the
    elements of [items] lose [meta] and keep [name]. *)
Lemma cascade_removes_the_emptied_parent_only_witness :
  let r := removeSchemaField (model_of schema_items docs_items) "items.meta.note" true in
  let owner := ownerAt (model_schema (final r)) ["items"] in
  outcome r = Resolved (JStr "Field removed successfully")
  /\ objectPath.get_keys (tree owner) ["meta"] = JUndefined
  /\ objectPath.get_keys (tree owner) [] = JObj [("name", tString)].
Proof.
  apply (cascade_removes_the_emptied_parent_only
           (model_of schema_items docs_items) "items.meta.note"
           (terminal (mongoose.new (JObj [("meta", JObj [("note", tString)]);
                                          ("name", tString)]))
                     "meta.note" "items" ["items"])
           [] "meta" "note" tString
           [("meta", JObj [("note", tString)]); ("name", tString)]).
  - reflexivity.
  - reflexivity.
  - cbn. lia.
  - reflexivity.
  - reflexivity.
  - reflexivity.
  - discriminate.
  - intros a b ds. eexists. reflexivity.
Defined.

(** On [{ a : { b : { c : String } } }] the removal of [a.b.c] with
    [removeSubdocumentIfEmpty] removes [c] and the emptied [b], and stops:
    [a], now empty, stays in the tree. *)
Lemma cascade_stops_at_the_parent :
  let r := removeSchemaField (model_of schema_nested []) "a.b.c" true in
  outcome r = Resolved (JStr "Field removed successfully")
  /\ tree (model_schema (model_of schema_nested []))
     = JObj [("a", JObj [("b", JObj [("c", tString)])])]
  /\ tree (model_schema (final r)) = JObj [("a", JObj [])]
  /\ objectPath.get (tree (model_schema (final r))) "a" = JObj []
  /\ objectPath.get (tree (model_schema (final r))) "a" <> JUndefined.
Proof. cbv zeta. repeat split. discriminate. Qed.

(** With three arrays above the field the cascade call is made with a path
    that still holds the marker: the call rejects, and the promise of the
    removal is left unsettled. *)
Example cascade_under_three_arrays :
  let s := mongoose.new
             (JObj [("a", JArr [JObj [("b", JArr [JObj [("c", JArr [JObj
                      [("m", JObj [("n", tString)]); ("x", tString)]])]])]])]) in
  let r := removeSchemaField (model_of s []) "a.b.c.m.n" true in
  outcome r = Pending.
Proof. reflexivity. Qed.

(** ** The depth of the calls of [removeSchemaField] *)

Section Fuel.

(** Without [removeSubdocumentIfEmpty] the function does not call itself. *)
Lemma removeSchemaField_fuel_plain (n : nat) (m : Model) (p : string) :
  removeSchemaField_fuel (S n) m p false = removeSchemaField_fuel 1 m p false.
Proof.
  cbn [removeSchemaField_fuel].
  destruct (negb (pathIsValid p)); [reflexivity|].
  destruct (getLastSchemaAndPaths (model_schema m) p) as [e|l]; [reflexivity|].
  destruct (negb (Loc.exists_ l)); [reflexivity|].
  destruct (update _ _ _ _) as [e|docs]; [reflexivity|].
  destruct (propagate _ _ _) as [s3 [e|]]; reflexivity.
Qed.

(** Two levels of calls are all the function ever makes: more fuel changes
    nothing. *)
Lemma removeSchemaField_fuel_enough (n : nat) (m : Model) (p : string) (flag : bool) :
  removeSchemaField_fuel (S (S n)) m p flag = removeSchemaField m p flag.
Proof.
  unfold removeSchemaField. destruct flag; [|now rewrite !removeSchemaField_fuel_plain].
  remember (S n) as n1 eqn:E1. remember 1 as n0 eqn:E0.
  cbn [removeSchemaField_fuel].
  destruct (negb (pathIsValid p)); [reflexivity|].
  destruct (getLastSchemaAndPaths (model_schema m) p) as [e|l]; [reflexivity|].
  destruct (negb (Loc.exists_ l)); [reflexivity|].
  destruct (update _ _ _ _) as [e|docs]; [reflexivity|].
  destruct (propagate _ _ _) as [s3 [e|]]; [reflexivity|].
  destruct (_ <? _)%nat; [|reflexivity].
  destruct (keysEmpty _) as [e|[|]]; [reflexivity| |reflexivity].
  subst n1 n0. now rewrite removeSchemaField_fuel_plain.
Qed.

End Fuel.

(** With [path] bound to a valid string the empty origin of
    [moveSchemaField] is resolved like any other: the whole tree is copied
    under the destination. *)
Example empty_origin_when_path_is_bound :
  let r := moveSchemaField pathBound (model_of schema_ab docs_ab) "" "e" false in
  outcome r = Resolved (JStr "Field moved successfully")
  /\ objectPath.get (tree (model_schema (final r))) "e"
     = tree (model_schema (model_of schema_ab docs_ab)).
Proof. cbv zeta. split; reflexivity. Qed.

(** ** Adding a field, then removing it: the whole run *)

Section RoundTripRun.



(** In a schema that tells the same arrays along the hops, the path
    resolves to the same place. *)
Lemma resolution_stable (rest : list string) :
  forall (s s' : Schema) (cp full : string) (subs : list string) (l : Loc.t)
         (hs : list string) (lp : string),
    getLastSchemaAndPathsRecursive s cp rest full subs = inr l ->
    Loc.subPaths l = ((subs ++ hs) ++ [lp])%list ->
    sameArrays hs lp s s' ->
    getLastSchemaAndPathsRecursive s' cp rest full subs
    = inr (terminal (ownerAt s' hs) lp (fullAfter full hs) (subs ++ hs)).
Proof.
  induction rest as [|next rest IH]; intros s s' cp full subs l hs lp H Hsub Hsim.
  - rewrite resolve_unfold in H.
    assert (Hl : l = terminal s cp full subs)
      by (destruct (isArray s cp); now injection H as <-).
    subst l. cbn [Loc.subPaths terminal] in Hsub.
    apply app_inj_tail in Hsub. destruct Hsub as [H1 H2].
    rewrite <- (app_nil_r subs) in H1 at 1. apply app_inv_head in H1. subst hs lp.
    rewrite resolve_unfold. cbn [ownerAt fullAfter]. rewrite app_nil_r.
    now destruct (isArray s' cp).
  - rewrite resolve_unfold in H. rewrite resolve_unfold.
    destruct (isArray s cp) eqn:A.
    + destruct (elementSchema s cp) as [e|] eqn:E; [|discriminate].
      destruct (resolution_shape _ _ _ _ _ _ H) as [hs2 [lp2 [Hl _]]].
      pose proof Hsub as Hsub'. rewrite Hl in Hsub'. cbn [Loc.subPaths terminal] in Hsub'.
      apply app_inj_tail in Hsub'. destruct Hsub' as [H1 _].
      rewrite <- app_assoc in H1. apply app_inv_head in H1. cbn [app] in H1. subst hs.
      destruct Hsim as [Hroot [e0 [e' [E0 [E' Hrec]]]]].
      rewrite E in E0. injection E0 as <-.
      rewrite (Hroot cp (Nat.le_refl _)), A, E'.
      rewrite (ownerAt_cons s' e' cp hs2 E'). cbn [fullAfter].
      rewrite (IH e e' next (extendFull full cp) (subs ++ [cp])%list l hs2 lp H).
      * now rewrite <- app_assoc.
      * rewrite Hsub. now rewrite <- !app_assoc.
      * exact Hrec.
    + destruct (resolution_shape _ _ _ _ _ _ H) as [hs2 [lp2 [Hl [_ [suffix Hs]]]]].
      pose proof Hsub as Hsub'. rewrite Hl in Hsub'. cbn [Loc.subPaths terminal] in Hsub'.
      apply app_inj_tail in Hsub'. destruct Hsub' as [H1 H2].
      apply app_inv_head in H1. subst hs2 lp2.
      assert (A' : isArray s' cp = false).
      { rewrite <- A. destruct hs as [|h hs]; cbn [hd] in Hs.
        - apply Hsim. rewrite Hs, !append_length. cbn [String.length append]. lia.
        - destruct Hsim as [Hroot _]. apply Hroot.
          rewrite Hs, !append_length. lia. }
      rewrite A'. now apply (IH s s' _ full subs l hs lp).
Qed.

(** [schema.add] of the chain object under an existing parent, no segment
    of the path being an array index: the definition is written at the
    path. *)
Lemma merge_chain_plain (ks : list string) (f : string) (d : JS) :
  Forall (fun x => objectPath.isNumberKey x = false) (ks ++ [f]) ->
  forall (t : JS) (pfs : list (string * JS)),
    objectPath.get_keys t ks = JObj pfs -> assoc f pfs = None ->
    merge t (objectPath.set_keys (JObj []) (ks ++ [f]) d)
    = objectPath.set_keys t (ks ++ [f]) d.
Proof.
  induction ks as [|k ks IH]; intros Hn t pfs Hget Hf.
  - cbn in Hget. subst t. cbn [app objectPath.set_keys objectPath.setProperty assign].
    rewrite merge_single. cbn. now rewrite Hf.
  - destruct (get_keys_step t k ks _ Hget) as [Hk Hnext]; [discriminate|].
    cbn [app] in *. apply Forall_inv_tail in Hn.
    destruct (app_cons_shape ks f) as [k1 [rest E]]. rewrite E.
    rewrite (set_keys_through t k k1 rest d Hk).
    rewrite set_keys_cons2.
    cbn [objectPath.getShallowProperty assoc objectPath.setProperty assign].
    rewrite merge_single. rewrite <- E.
    assert (K1 : objectPath.isNumberKey k1 = false)
      by (rewrite E in Hn; now apply Forall_inv in Hn).
    rewrite K1.
    destruct (proj1 (set_keys_fresh_shape (JObj []) ks f d) eq_refl) as [fs Hfs].
    pose proof (IH Hn _ pfs Hnext Hf) as H.
    rewrite Hfs in *. rewrite H.
    destruct (objectPath.getShallowProperty t k); congruence.
Qed.

(** Reading back what was written under an existing object. *)
Lemma get_set_keys (ks : list string) (f : string) (d : JS) :
  d <> JUndefined ->
  forall (t : JS) (pfs : list (string * JS)),
    objectPath.get_keys t ks = JObj pfs ->
    objectPath.get_keys (objectPath.set_keys t (ks ++ [f]) d) (ks ++ [f]) = d.
Proof.
  intros Hd. induction ks as [|k ks IH]; intros t pfs Hget.
  - cbn in Hget. subst t. cbn. rewrite assoc_assign_same. destruct d; congruence.
  - destruct (get_keys_step t k ks _ Hget) as [Hk Hnext]; [discriminate|].
    cbn [app]. destruct (app_cons_shape ks f) as [k1 [rest E]]. rewrite E.
    rewrite (set_keys_through t k k1 rest d Hk). rewrite <- E.
    pose proof (IH _ pfs Hnext) as H.
    assert (Hx : objectPath.set_keys (objectPath.getShallowProperty t k) (ks ++ [f]) d
                 <> JUndefined).
    { intros C. rewrite C in H. destruct (ks ++ [f])%list; cbn in H; congruence. }
    rewrite get_keys_through
      by (now rewrite getShallowProperty_setProperty_defined).
    now rewrite getShallowProperty_setProperty_defined.
Qed.




End RoundTripRun.


(** * The validator and the resolver on any path *)

(** ** The segments of a valid path *)

Section ValidSegments.

Lemma empty_segment_invalid (p : string) (a b : list string) :
  p <> "" -> JSString.split dot p = (a ++ "" :: b)%list -> pathIsValid p = false.
Proof.
  intros Hne Hs. apply (proj1 (pathIsValid_spec p)).
  pose proof (join_split p) as Hj. rewrite Hs in Hj.
  destruct a as [|x a]; destruct b as [|y b].
  - cbn in Hj. congruence.
  - left. exists (JSString.join "." (y :: b)). rewrite <- Hj. reflexivity.
  - right. left. exists (JSString.join "." (x :: a)). rewrite <- Hj.
    rewrite join_app by discriminate. reflexivity.
  - right. right. left.
    exists (JSString.join "." (x :: a)), (JSString.join "." (y :: b)).
    rewrite <- Hj. rewrite join_app by discriminate. rewrite join_cons2. reflexivity.
Qed.

Lemma segments_nonempty (p : string) :
  pathIsValid p = true -> p <> "" -> Forall (fun x => x <> "") (JSString.split dot p).
Proof.
  intros Hv Hne. apply Forall_forall. intros x Hin ->.
  apply in_split in Hin. destruct Hin as [a [b Hs]].
  rewrite (empty_segment_invalid p a b Hne Hs) in Hv. discriminate.
Qed.

End ValidSegments.

(** [X1] A path is valid exactly when it holds no [$] and, unless it is the
    empty string, none of its segments is empty. *)
Theorem pathIsValid_segments (p : string) :
  pathIsValid p = true
  <-> (p = "" \/ Forall (fun x => x <> "") (JSString.split dot p))
      /\ JSString.includes p "$" = false.
Proof.
  split.
  - intros Hv. split.
    + destruct (String.eqb p "") eqn:E.
      * left. now apply String.eqb_eq.
      * right. apply String.eqb_neq in E. now apply segments_nonempty.
    + rewrite <- (append_empty_r p) in Hv. exact (valid_no_reserved p "" Hv).
  - intros [[-> | Hseg] Hd]; [reflexivity|].
    apply (proj2 (pathIsValid_spec p)).
    intros [[t ->] | [[t ->] | [[a [b ->]] | Hr]]].
    + change ("." ++ t) with ("" ++ "." ++ t) in Hseg.
      rewrite (split_dot "" t eq_refl) in Hseg. apply Forall_inv in Hseg. now apply Hseg.
    + change (t ++ ".") with (t ++ "." ++ "") in Hseg. rewrite split_app in Hseg.
      apply Forall_app in Hseg. destruct Hseg as [_ Hseg].
      apply Forall_inv in Hseg. now apply Hseg.
    + change (a ++ ".." ++ b) with (a ++ "." ++ ("" ++ "." ++ b)) in Hseg.
      rewrite split_app, (split_dot "" b eq_refl) in Hseg.
      apply Forall_app in Hseg. destruct Hseg as [_ Hseg].
      apply Forall_inv in Hseg. now apply Hseg.
    + apply includes_iff in Hr. congruence.
Qed.

(** ** What every resolution holds *)

Section ResolutionInvariants.

Lemma resolution_arrays (rest : list string) :
  forall (s : Schema) (cp full : string) (subs : list string) (l : Loc.t),
    getLastSchemaAndPathsRecursive s cp rest full subs = inr l ->
    exists hs lp,
      l = terminal (ownerAt s hs) lp (fullAfter full hs) (subs ++ hs)
      /\ arrayHops s hs
      /\ JSString.join "." (hs ++ [lp]) = JSString.join "." (cp :: rest).
Proof.
  induction rest as [|next rest IH]; intros s cp full subs l H.
  - exists [], cp. rewrite resolve_unfold in H. rewrite app_nil_r.
    split; [destruct (isArray s cp); now injection H as <- |].
    split; [exact I | reflexivity].
  - rewrite resolve_unfold in H. destruct (isArray s cp) eqn:A.
    + destruct (elementSchema s cp) as [e|] eqn:E; [|discriminate].
      destruct (IH _ _ _ _ _ H) as [hs [lp [Hl [Ha Hj]]]].
      exists (cp :: hs), lp. rewrite (ownerAt_cons s e cp hs E).
      split; [rewrite Hl; cbn [fullAfter]; now rewrite <- app_assoc|].
      split; [split; [exact A | now exists e]|].
      cbn [app]. rewrite join_cons_more by (destruct hs; discriminate).
      rewrite Hj. now rewrite join_cons2.
    + destruct (IH _ _ _ _ _ H) as [hs [lp [Hl [Ha Hj]]]].
      exists hs, lp. split; [exact Hl|]. split; [exact Ha|].
      rewrite Hj. rewrite join_cons2. destruct rest as [|x rest].
      * reflexivity.
      * rewrite !join_cons2. now rewrite !append_assoc.
Qed.

Lemma fullAfter_join (hs : list string) :
  forall full, full <> "" ->
    fullAfter full hs = JSString.join ".$[]." (full :: hs).
Proof.
  induction hs as [|h hs IH]; intros full Hne; [reflexivity|].
  cbn [fullAfter]. rewrite (extendFull_nonempty full h Hne).
  rewrite (IH _ (append_nonempty_l full (".$[]." ++ h) Hne)).
  rewrite join_cons2. destruct hs as [|x hs].
  - reflexivity.
  - rewrite !join_cons2. now rewrite !append_assoc.
Qed.

Lemma fullPath_join (h : string) (hs : list string) (lp : string) :
  h <> "" ->
  extendFull (fullAfter "" (h :: hs)) lp = JSString.join ".$[]." ((h :: hs) ++ [lp]).
Proof.
  intros Hne. cbn [fullAfter]. unfold extendFull at 2. cbn [String.eqb].
  destruct (fullAfter_length hs h Hne) as [H1 _].
  rewrite (extendFull_nonempty _ lp H1). rewrite (fullAfter_join hs h Hne).
  rewrite (join_app ".$[]." (h :: hs) [lp]) by discriminate. reflexivity.
Qed.

(** The container path: [replace] takes the marker that follows the first
    hop, and no other. *)
Lemma pathToLast_closed_form (h : string) (hs : list string) :
  h <> "" -> JSString.includes h "$" = false ->
  JSString.replace (fullAfter "" (h :: hs)) ".$[]" ""
  = match hs with
    | [] => h
    | _ :: _ => h ++ "." ++ JSString.join ".$[]." hs
    end.
Proof.
  intros Hne Hd. cbn [fullAfter]. unfold extendFull at 1. cbn [String.eqb].
  rewrite (fullAfter_join hs h Hne). destruct hs as [|x hs].
  - cbn [JSString.join]. now apply replace_no_marker.
  - rewrite join_cons2.
    change (h ++ ".$[]." ++ JSString.join ".$[]." (x :: hs))
      with (h ++ ".$[]" ++ ("." ++ JSString.join ".$[]." (x :: hs))).
    now apply replace_marker.
Qed.

Lemma includes_append_r (a b sub : string) :
  JSString.includes b sub = true -> JSString.includes (a ++ b) sub = true.
Proof.
  intros H. apply includes_iff in H. destruct H as [x [y ->]].
  apply includes_iff. exists (a ++ x), y. now rewrite !append_assoc.
Qed.

Lemma join_marker_includes (x y : string) (more : list string) :
  JSString.includes (JSString.join ".$[]." (x :: y :: more)) ".$[]" = true.
Proof.
  rewrite join_cons2. apply includes_iff.
  exists x, ("." ++ JSString.join ".$[]." (y :: more)). reflexivity.
Qed.

End ResolutionInvariants.

Lemma resolution_subPaths_join (s : Schema) (p : string) (l : Loc.t) :
  getLastSchemaAndPaths s p = inr l ->
  Loc.subPaths l = (hops l ++ [Loc.path l])%list
  /\ JSString.join "." (Loc.subPaths l) = p.
Proof.
  unfold getLastSchemaAndPaths.
  destruct (JSString.split dot p) as [|first rest] eqn:Hs; [discriminate|].
  intros H. destruct (resolution_arrays _ _ _ _ _ _ H) as [hs [lp [-> [_ Hj]]]].
  rewrite hops_terminal. cbn [app Loc.subPaths Loc.path terminal].
  split; [reflexivity | now rewrite Hj, <- Hs, join_split].
Qed.

(** [X2] Whatever the schema and the path, a resolution that is returned
    holds the path cut at the arrays it crosses: its sub-paths are its hops
    followed by its local path and, joined by the separator, give the path
    back; every hop is a field declared as an array with an element schema;
    the schema of the resolution is the one the hops lead to from the root,
    and the field exists exactly when the tree of that schema holds a value at
    the local path. *)
Theorem resolution_cuts_the_path (s : Schema) (p : string) (l : Loc.t) :
  getLastSchemaAndPaths s p = inr l ->
  Loc.subPaths l = (hops l ++ [Loc.path l])%list
  /\ JSString.join "." (Loc.subPaths l) = p
  /\ arrayHops s (hops l)
  /\ Loc.schema l = ownerAt s (hops l)
  /\ (Loc.exists_ l = true
      <-> objectPath.get (tree (ownerAt s (hops l))) (Loc.path l) <> JUndefined).
Proof.
  unfold getLastSchemaAndPaths.
  destruct (JSString.split dot p) as [|first rest] eqn:Hs; [discriminate|].
  intros H. destruct (resolution_arrays _ _ _ _ _ _ H) as [hs [lp [-> [Ha Hj]]]].
  rewrite hops_terminal. cbn [app Loc.subPaths Loc.path Loc.schema Loc.exists_ terminal].
  split; [reflexivity|]. split; [now rewrite Hj, <- Hs, join_split|].
  split; [exact Ha|]. split; [reflexivity|].
  destruct (objectPath.get (tree (ownerAt s hs)) lp); cbn; split; congruence.
Qed.

Lemma resolution_cuts_the_path_witness :
  Loc.subPaths (terminal (mongoose.new (JObj [("b", tString); ("c", tString)])) "b" "a" ["a"])
  = ["a"; "b"]
  /\ JSString.join "." ["a"; "b"] = "a.b".
Proof.
  destruct (resolution_cuts_the_path schema_ab "a.b"
              (terminal (mongoose.new (JObj [("b", tString); ("c", tString)])) "b" "a" ["a"])
              eq_refl) as [H1 [H2 _]].
  split; [exact H1 | exact H2].
Defined.

(** [X3] For a valid path, the query path of a resolution is its sub-paths
    joined by the array marker, and its container path is its first hop
    followed, after a separator, by the other hops joined by the marker: the
    hops joined by the separator when there are at most two, a path that
    still holds a marker when there are three or more. *)
Theorem resolution_query_paths (s : Schema) (p : string) (l : Loc.t) :
  pathIsValid p = true ->
  getLastSchemaAndPaths s p = inr l ->
  Loc.fullPath l = JSString.join ".$[]." (Loc.subPaths l)
  /\ Loc.pathToLast l
     = match hops l with
       | [] => ""
       | [h] => h
       | h :: rest => h ++ "." ++ JSString.join ".$[]." rest
       end
  /\ (List.length (hops l) <= 2 -> Loc.pathToLast l = JSString.join "." (hops l))
  /\ (3 <= List.length (hops l) -> JSString.includes (Loc.pathToLast l) ".$[]" = true).
Proof.
  intros Hv Hl.
  assert (Hne : forall h hs', hops l = h :: hs' -> h <> "")
    by (intros h hs' E; exact (first_hop_nonempty s p l h hs' Hv Hl E)).
  destruct (resolution_subPaths_join s p l Hl) as [Hsub Hj].
  unfold getLastSchemaAndPaths in Hl.
  destruct (JSString.split dot p) as [|first rest]; [discriminate|].
  destruct (resolution_shape _ _ _ _ _ _ Hl) as [hs [lp [-> _]]].
  rewrite hops_terminal in *.
  cbn [app Loc.subPaths Loc.path Loc.fullPath Loc.pathToLast terminal] in *.
  fold (extendFull (fullAfter "" hs) lp).
  destruct hs as [|h hs].
  - repeat split; try reflexivity. cbn [List.length]. lia.
  - pose proof (Hne h hs eq_refl) as Hh.
    assert (Hd : JSString.includes h "$" = false).
    { rewrite <- Hj in Hv. cbn [app] in Hv.
      rewrite join_cons_more in Hv by (destruct hs; discriminate).
      exact (valid_no_reserved _ _ Hv). }
    rewrite (fullPath_join h hs lp Hh), (pathToLast_closed_form h hs Hh Hd).
    split; [reflexivity|]. split; [destruct hs; reflexivity|]. split.
    + intros Hlen. destruct hs as [|x [|y hs]]; try reflexivity.
      cbn [List.length] in Hlen. lia.
    + intros Hlen. destruct hs as [|x [|y hs]]; cbn [List.length] in Hlen; try lia.
      apply includes_append_r. apply includes_append_r. apply join_marker_includes.
Qed.

Lemma resolution_query_paths_witness :
  JSString.includes "a.b.$[].c" ".$[]" = true.
Proof.
  destruct (resolution_query_paths schema_abcd "a.b.c.d"
              (terminal
                 (mongoose.new (JObj [("d", tString)]))
                 "d" "a.$[].b.$[].c" ["a"; "b"; "c"])
              eq_refl eq_refl) as [_ [_ [_ H]]].
  apply H. cbn. lia.
Defined.

(** ** Paths that cross no array, and arrays without element schema *)

Section PlainResolution.

Lemma resolution_without_arrays (s : Schema) (rest : list string) :
  (forall c, isArray s c = false) ->
  forall (cp full : string) (subs : list string),
    getLastSchemaAndPathsRecursive s cp rest full subs
    = inr (terminal s (JSString.join "." (cp :: rest)) full subs).
Proof.
  intros Hs. induction rest as [|next rest IH]; intros cp full subs;
    rewrite resolve_unfold, Hs.
  - reflexivity.
  - rewrite IH. rewrite join_cons2. destruct rest as [|x rest].
    + reflexivity.
    + rewrite !join_cons2. now rewrite !append_assoc.
Qed.

Lemma resolution_in_plain_array (s : Schema) (a r : string) :
  isName a = true ->
  mongoose.path s a = Some (MkSchemaType "Array" None) ->
  getLastSchemaAndPaths s (a ++ "." ++ r)
  = inl (TypeError "Cannot read property 'path' of undefined").
Proof.
  intros Ha Hp. unfold getLastSchemaAndPaths. rewrite (split_dot a r Ha).
  destruct (JSString.split dot r) as [|x rest] eqn:Hr;
    [exfalso; exact (split_nonempty r Hr)|].
  rewrite resolve_unfold. unfold isArray, elementSchema. rewrite Hp. reflexivity.
Qed.

End PlainResolution.

(** [X4] In a schema that declares no array, every path resolves to itself:
    no hop, the root schema, the path as local path and as query path, and an
    empty container path. *)
Theorem resolution_without_array (s : Schema) (p : string) :
  (forall c, isArray s c = false) ->
  getLastSchemaAndPaths s p = inr (terminal s p "" [])
  /\ Loc.subPaths (terminal s p "" []) = [p]
  /\ Loc.fullPath (terminal s p "" []) = p
  /\ Loc.pathToLast (terminal s p "" []) = "".
Proof.
  intros Hs. split; [|repeat split].
  unfold getLastSchemaAndPaths.
  destruct (JSString.split dot p) as [|first rest] eqn:E;
    [exfalso; exact (split_nonempty p E)|].
  rewrite (resolution_without_arrays s rest Hs). now rewrite <- E, join_split.
Qed.

Lemma resolution_without_array_witness :
  getLastSchemaAndPaths schema_nested "a.b.c" = inr (terminal schema_nested "a.b.c" "" []).
Proof.
  apply (resolution_without_array schema_nested "a.b.c").
  intros c. unfold isArray, mongoose.path.
  change (paths schema_nested) with [("a.b.c", MkSchemaType "String" None)].
  cbn [assoc]. destruct ("a.b.c" =? c); reflexivity.
Defined.

(** [X5] Below a field declared as an array without element schema (an
    array of primitive values) nothing resolves: the resolver raises a
    [TypeError], and [addSchemaField], [removeSchemaField],
    [changeFieldDefinition] and [changeFieldType] called with a valid path
    that goes through the field reject with it and leave the model as it
    was. *)
Theorem nothing_resolves_below_a_plain_array
        (m : Model) (a r : string) :
  isName a = true ->
  mongoose.path (model_schema m) a = Some (MkSchemaType "Array" None) ->
  pathIsValid (a ++ "." ++ r) = true ->
  let p := a ++ "." ++ r in
  let thrown := TypeError "Cannot read property 'path' of undefined" in
  getLastSchemaAndPaths (model_schema m) p = inl thrown
  /\ (forall d, addSchemaField m p d = reject thrown m)
  /\ (forall flag, removeSchemaField m p flag = reject thrown m)
  /\ (forall d, changeFieldDefinition m p d = reject thrown m)
  /\ (forall newType defaultValue required keepValues,
        changeFieldType m p newType defaultValue required keepValues = reject thrown m).
Proof.
  intros Ha Hp Hv p thrown.
  pose proof (resolution_in_plain_array (model_schema m) a r Ha Hp) as Hr.
  fold p in Hr, Hv. split; [exact Hr|].
  split; [intros d; unfold addSchemaField; now rewrite Hv, Hr|].
  split; [intros flag; unfold removeSchemaField; cbn [removeSchemaField_fuel];
          now rewrite Hv, Hr|].
  split; [intros d; unfold changeFieldDefinition; now rewrite Hv, Hr|].
  intros newType defaultValue required keepValues.
  unfold changeFieldType. now rewrite Hv, Hr.
Qed.

(** The array of strings [tags] of [{ tags : [String], name : String }]. *)
Lemma nothing_resolves_below_a_plain_array_witness :
  addSchemaField (model_of schema_tags []) "tags.first" tString
  = reject (TypeError "Cannot read property 'path' of undefined") (model_of schema_tags []).
Proof.
  destruct (nothing_resolves_below_a_plain_array (model_of schema_tags []) "tags" "first"
              eq_refl eq_refl eq_refl) as [_ [H _]].
  exact (H tString).
Defined.

(** ** The sibling test of [moveSchemaField] *)

Lemma sameSubPaths_firstn (n : nat) :
  forall origin dest : list string,
    List.length origin = List.length dest ->
    (sameSubPaths n origin dest = true <-> firstn n origin = firstn n dest).
Proof.
  induction n as [|n IH]; intros origin dest Hlen; [cbn; tauto|].
  destruct origin as [|o origin]; destruct dest as [|d dest]; try discriminate.
  - cbn. tauto.
  - cbn [sameSubPaths firstn]. rewrite andb_true_iff, String.eqb_eq.
    rewrite (IH origin dest) by (cbn in Hlen; lia).
    split; [intros [-> ->]; reflexivity | intros H; injection H; auto].
Qed.

(** [X6] On sub-paths of the same number, the loop of [moveSchemaField]
    that compares them accepts exactly when origin and destination have the
    same hops: all their sub-paths but the last are equal. *)
Theorem sameSubdocument_same_hops (origin dest : list string) :
  List.length origin = List.length dest ->
  (sameSubdocument origin dest = true <-> removelast origin = removelast dest).
Proof.
  intros Hlen. unfold sameSubdocument.
  rewrite (sameSubPaths_firstn _ origin dest Hlen).
  rewrite !removelast_firstn_len, <- Hlen. rewrite Nat.sub_1_r. tauto.
Qed.

Lemma sameSubdocument_same_hops_witness :
  sameSubdocument ["a"; "b"] ["a"; "e"] = true.
Proof.
  apply (proj2 (sameSubdocument_same_hops ["a"; "b"] ["a"; "e"] eq_refl)). reflexivity.
Defined.

(** * The document passes *)

(** ** [updateDefaults] *)

Section SaveCallbacks.

Lemma saveCallbacks_outcome (results : list (Err + JS)) :
  forall numSaved numToSave,
    numSaved + List.length results = numToSave -> results <> [] ->
    firstSettle (saveCallbacks results numSaved numToSave)
    = match firstError results with
      | Some e => Rejected e
      | None => Resolved JUndefined
      end.
Proof.
  induction results as [|[e|d] results IH]; intros numSaved numToSave Hn Hne;
    [congruence|reflexivity|].
  cbn [saveCallbacks firstError app List.length] in *.
  destruct results as [|r results].
  - assert (E : (S numSaved =? numToSave)%nat = true) by (apply Nat.eqb_eq; cbn in Hn; lia).
    rewrite E. reflexivity.
  - assert (E : (S numSaved =? numToSave)%nat = false)
      by (apply Nat.eqb_neq; cbn [List.length] in Hn; lia).
    rewrite E. cbn [app firstSettle].
    apply IH; [cbn [List.length] in *; lia | discriminate].
Qed.

Lemma completions_app (a b : list Event) :
  completions (a ++ b) = (completions a ++ completions b)%list.
Proof. apply filter_app. Qed.

Lemma saveCallbacks_completions (results : list (Err + JS)) :
  forall numSaved numToSave,
    completions (saveCallbacks results numSaved numToSave) = map saveCompleted results.
Proof.
  induction results as [|[e|d] results IH]; intros numSaved numToSave; [reflexivity| |].
  - cbn [saveCallbacks map]. unfold completions in *. cbn [filter isCompletion].
    now rewrite IH.
  - cbn [saveCallbacks map]. rewrite completions_app.
    rewrite IH. destruct (S numSaved =? numToSave)%nat; reflexivity.
Qed.

End SaveCallbacks.

(** [X7] [updateDefaults] saves every document once the search has
    answered, whatever the saves before did, and resolves when all the saves
    succeeded (at once when there is no document); when a save fails, it
    rejects with the error of the first one that failed and never resolves.
    When the search fails, it rejects with that error and saves nothing. *)
Theorem updateDefaults_outcome (m : Model) (p : string) :
  let r := updateDefaults m p in
  let results := map (save (model_store m) p) (model_docs m) in
  (forall e, find (model_store m) (model_docs m) = Some e ->
     outcome r = Rejected e
     /\ completions (events r) = [Completed "find" false]
     /\ final r = m)
  /\ (find (model_store m) (model_docs m) = None ->
     outcome r = match firstError results with
                 | Some e => Rejected e
                 | None => Resolved JUndefined
                 end
     /\ completions (events r) = Completed "find" true :: map saveCompleted results
     /\ model_docs (final r) = persisted (model_docs m) results).
Proof.
  cbv zeta. unfold updateDefaults. split.
  - intros e ->. repeat split.
  - intros ->. destruct (model_docs m) as [|d ds] eqn:Hd.
    + repeat split. cbn. exact Hd.
    + cbn [List.length Nat.eqb events final outcome].
      unfold outcome. cbn [events firstSettle].
      split; [apply saveCallbacks_outcome; [now rewrite length_map | discriminate]|].
      split; [|reflexivity].
      unfold completions. cbn [filter isCompletion]. f_equal.
      apply saveCallbacks_completions.
Qed.

(** One document, saved. *)
Lemma updateDefaults_outcome_witness :
  outcome (updateDefaults (model_of schema_ab docs_ab) "a") = Resolved JUndefined
  /\ completions (events (updateDefaults (model_of schema_ab docs_ab) "a"))
     = [Completed "find" true; Completed "save" true].
Proof.
  destruct (updateDefaults_outcome (model_of schema_ab docs_ab) "a") as [_ H].
  destruct (H eq_refl) as [H1 [H2 _]]. split; [exact H1 | exact H2].
Defined.

(** * Additions and removals that succeed *)

(** ** The field after [addSchemaField] *)

Section AddedField.

Lemma firstSettle_completions_app (evs rest : list Event) :
  firstSettle (completions evs ++ rest) = firstSettle rest.
Proof.
  induction evs as [|[o|op ok] evs IH]; [reflexivity | exact IH | exact IH].
Qed.







Variables (m : Model) (p : string) (d : JS) (l : Loc.t).
Hypothesis Hv : pathIsValid p = true.
Hypothesis Hl : getLastSchemaAndPaths (model_schema m) p = inr l.
Hypothesis He : Loc.exists_ l = false.
Hypothesis Hown : parentHolds (tree (Loc.schema l)) (Loc.path l).
Hypothesis Hph :
  (1 <? List.length (JSString.split dot (Loc.path l)))%nat = true ->
  isEmptyPlaceholder
    (objectPath.get (tree (Loc.schema l))
                    (JSString.join "." (removelast (JSString.split dot (Loc.path l)))))
  = false.
Hypothesis Hd : d <> JUndefined.
Hypothesis Hnum :
  Forall (fun x => objectPath.isNumberKey x = false) (JSString.split dot (Loc.path l)).
Hypothesis Hdecl :
  Forall (fun kv => String.length (Loc.path l) <= String.length (fst kv))
         (declare_fields (objectPath.set (JObj []) (Loc.path l) d)).

Let added : Schema :=
  mongoose.add (Loc.schema l) (objectPath.set (JObj []) (Loc.path l) d).



End AddedField.


Lemma resolution_is_terminal (s : Schema) (p : string) (l : Loc.t) :
  getLastSchemaAndPaths s p = inr l ->
  l = terminal (Loc.schema l) (Loc.path l) (fullAfter "" (hops l)) (hops l).
Proof.
  intros H. destruct (getLastSchemaAndPaths_shape s p l H) as [hs [lp [-> _]]].
  now rewrite hops_terminal.
Qed.

Lemma resolution_fields (s : Schema) (p : string) (l : Loc.t) :
  getLastSchemaAndPaths s p = inr l ->
  Loc.subPaths l = (hops l ++ [Loc.path l])%list
  /\ Loc.fullPath l = extendFull (fullAfter "" (hops l)) (Loc.path l).
Proof.
  intros H. destruct (getLastSchemaAndPaths_shape s p l H) as [hs [lp [-> _]]].
  rewrite hops_terminal. split; reflexivity.
Qed.





(** ** The field after [removeSchemaField] *)

Section RemovedField.

(** A property deleted from an object is no property of it. *)
Lemma deleted_leaf (ks : list string) (f : string) (t : JS) (pfs : list (string * JS)) :
  objectPath.get_keys t ks = JObj pfs ->
  exists pfs',
    objectPath.get_keys (objectPath.del_keys t (ks ++ [f])) ks = JObj pfs'
    /\ assoc f pfs' = None.
Proof.
  intros Hg. rewrite get_del_keys; [|discriminate|rewrite Hg; discriminate].
  rewrite Hg. cbn [objectPath.del_keys objectPath.hasShallowProperty].
  destruct (assoc f pfs) eqn:E.
  - exists (remove_key f pfs). split; [reflexivity | apply assoc_remove_key].
  - now exists pfs.
Qed.

Lemma local_path_nonempty (s : Schema) (p : string) (l : Loc.t) :
  pathIsValid p = true -> p <> "" ->
  getLastSchemaAndPaths s p = inr l -> Loc.path l <> "".
Proof.
  intros Hv Hne Hl. unfold getLastSchemaAndPaths in Hl.
  destruct (JSString.split dot p) as [|first rest] eqn:Hs; [discriminate|].
  destruct (resolution_join _ _ _ _ _ _ Hl) as [hs [lp [-> [_ [_ Hj]]]]].
  rewrite <- Hs, join_split in Hj. cbn [Loc.path terminal]. intros ->.
  destruct hs as [|h hs].
  - cbn in Hj. congruence.
  - rewrite join_app in Hj by discriminate. cbn [JSString.join] in Hj.
    rewrite <- Hj in Hv. exact (valid_not_trailing _ Hv).
Qed.

Variables (m : Model) (p : string) (l : Loc.t) (pfs : list (string * JS)).
Hypothesis Hv : pathIsValid p = true.
Hypothesis Hne : p <> "".
Hypothesis Hl : getLastSchemaAndPaths (model_schema m) p = inr l.
Hypothesis He : Loc.exists_ l = true.
Hypothesis Hpar :
  objectPath.get_keys (tree (Loc.schema l)) (removelast (JSString.split dot (Loc.path l)))
  = JObj pfs.
Hypothesis Hst : forall a b ds, exists ds', update (model_store m) a b ds = inr ds'.

(** The removal resolves, and the path resolves afterwards where it did,
    to a field that the tree no longer holds. *)
Lemma removed_field_resolution :
  let r := removeSchemaField m p false in
  outcome r = Resolved (JStr "Field removed successfully")
  /\ exists o,
       getLastSchemaAndPaths (model_schema (final r)) p
       = inr (terminal o (Loc.path l) (fullAfter "" (hops l)) (hops l))
       /\ objectPath.get (tree o) (Loc.path l) = JUndefined.
Proof.
  cbv zeta.
  assert (Hfirst : forall h hs', hops l = h :: hs' -> h <> "")
    by (intros h hs' E; exact (first_hop_nonempty (model_schema m) p l h hs' Hv Hl E)).
  pose proof (local_path_nonempty _ _ _ Hv Hne Hl) as Hlp.
  pose proof Hl as Hres. unfold getLastSchemaAndPaths in Hres.
  destruct (JSString.split dot p) as [|first rest] eqn:Hsplit; [discriminate|].
  destruct (resolution_shape _ _ _ _ _ _ Hres) as [hs [lp [El [Hhv _]]]].
  cbn [app] in El. revert He Hpar Hfirst Hlp Hl. rewrite El. rewrite hops_terminal.
  cbn [Loc.path Loc.schema Loc.exists_ terminal]. intros He' Hpar' Hfirst' Hlp' Hl'.
  assert (Nlp : (lp =? "") = false) by (now apply String.eqb_neq).
  assert (Hex : objectPath.get (tree (ownerAt (model_schema m) hs)) lp <> JUndefined)
    by (destruct (objectPath.get (tree (ownerAt (model_schema m) hs)) lp);
        discriminate || (cbn in He'; discriminate)).
  destruct (removeSchemaField_plain 1 m p _ lp hs Hv Hl' Hex Hst Hhv Hfirst')
    as [Hout Hs3].
  split; [exact Hout|].
  change (removeSchemaField_fuel 2 m p false) with (removeSchemaField m p false) in Hs3.
  rewrite Hs3.
  set (s1 := mongoose.remove (model_schema m) (extendFull (fullAfter "" hs) lp)).
  assert (Hhv1 : hopsValid s1 hs) by (now apply hopsValid_remove).
  exists (ownerAt (editAlong objectPath.del (fun x => mongoose.remove x lp) s1 hs lp) hs).
  split.
  - unfold getLastSchemaAndPaths. rewrite Hsplit.
    apply (resolution_stable rest (model_schema m) _ first "" [] l hs lp Hres);
      [now rewrite El|].
    unfold s1. apply sameArrays_after_removal; [|exact Hfirst'|exact Hhv].
    intros o c Hc. apply isArray_path. now apply path_remove_shorter.
  - rewrite ownerAt_editAlong by exact Hhv1. unfold mongoose.remove at 1. cbn [tree].
    destruct (deleted_leaf _ (last (JSString.split dot lp) "") _ pfs Hpar')
      as [pfs' [Hg' Hf']].
    rewrite <- (split_removelast_last lp) in Hg'.
    assert (Hdel : objectPath.del (tree (ownerAt (model_schema m) hs)) lp
                   = objectPath.del_keys (tree (ownerAt (model_schema m) hs))
                                         (JSString.split dot lp))
      by (unfold objectPath.del; now rewrite Nlp).
    assert (Hhold : parentHolds (objectPath.del (tree (ownerAt (model_schema m) hs)) lp) lp)
      by (rewrite Hdel; now exists pfs').
    unfold s1.
    destruct (owner_tree_removed (model_schema m) hs lp Hfirst' Hhv) as [E | E]; rewrite E.
    + apply get_path_absent; [now apply String.eqb_neq | exact Hhold].
    + rewrite (del_path_absent _ _ Hhold).
      apply get_path_absent; [now apply String.eqb_neq | exact Hhold].
Qed.

End RemovedField.

(** [X10] A field removed is found no more: for a valid, non-empty path
    to an existing field whose parent in the tree is an object, the store
    answering its update, [removeSchemaField] resolves, the path then
    resolves with the same sub-paths to a field that does not exist, and a
    second [removeSchemaField] at the path, with or without
    [removeSubdocumentIfEmpty], is rejected and changes nothing. *)
Theorem removeSchemaField_then_missing
        (m : Model) (p : string) (l : Loc.t) (pfs : list (string * JS)) :
  pathIsValid p = true ->
  p <> "" ->
  getLastSchemaAndPaths (model_schema m) p = inr l ->
  Loc.exists_ l = true ->
  objectPath.get_keys (tree (Loc.schema l)) (removelast (JSString.split dot (Loc.path l)))
  = JObj pfs ->
  (forall a b ds, exists ds', update (model_store m) a b ds = inr ds') ->
  let r := removeSchemaField m p false in
  outcome r = Resolved (JStr "Field removed successfully")
  /\ (exists l2,
        getLastSchemaAndPaths (model_schema (final r)) p = inr l2
        /\ Loc.exists_ l2 = false
        /\ Loc.subPaths l2 = Loc.subPaths l)
  /\ (forall flag,
        removeSchemaField (final r) p flag
        = reject (Reason ("The field to remove does not exists (" ++ p ++ ")")) (final r)).
Proof.
  intros Hv Hne Hl He Hpar Hst r.
  destruct (removed_field_resolution m p l pfs Hv Hne Hl He Hpar Hst) as [Hout [o [Hl2 Hg]]].
  fold r in Hout, Hl2. split; [exact Hout|]. split.
  - eexists. split; [exact Hl2|].
    cbn [Loc.exists_ Loc.subPaths terminal]. rewrite Hg.
    destruct (resolution_fields _ _ _ Hl) as [-> _]. split; reflexivity.
  - intros flag. unfold removeSchemaField at 1. cbn [removeSchemaField_fuel].
    rewrite Hv. cbn [negb]. rewrite Hl2. cbn [Loc.exists_ terminal]. rewrite Hg.
    reflexivity.
Qed.

Lemma removeSchemaField_then_missing_witness :
  let r := removeSchemaField (model_of schema_ab docs_ab) "a.b" false in
  outcome r = Resolved (JStr "Field removed successfully")
  /\ (exists l2,
        getLastSchemaAndPaths (model_schema (final r)) "a.b" = inr l2
        /\ Loc.exists_ l2 = false
        /\ Loc.subPaths l2 = ["a"; "b"])
  /\ (forall flag,
        removeSchemaField (final r) "a.b" flag
        = reject (Reason "The field to remove does not exists (a.b)") (final r)).
Proof.
  apply (removeSchemaField_then_missing
           (model_of schema_ab docs_ab) "a.b"
           (terminal (mongoose.new (JObj [("b", tString); ("c", tString)])) "b" "a" ["a"])
           [("b", tString); ("c", tString)]).
  - reflexivity.
  - discriminate.
  - reflexivity.
  - reflexivity.
  - reflexivity.
  - intros a b ds. eexists. reflexivity.
Defined.

(** ** A store that refuses the bulk update *)

Section RefusedUpdate.

Lemma then_rejected (p : Run) (k : JS -> Model -> Run) (e : Err) :
  outcome p = Rejected e ->
  outcome (then_ p k) = Rejected e /\ final (then_ p k) = final p.
Proof.
  intros H. unfold then_. rewrite H. split; [|reflexivity].
  unfold outcome. cbn [events]. apply firstSettle_completions_app.
Qed.

Variable m : Model.
Hypothesis Hst : forall a b ds, exists e, update (model_store m) a b ds = inl e.

Lemma removeSchemaField_refused (p : string) (flag : bool) :
  rejectedUnchanged m (removeSchemaField m p flag).
Proof.
  unfold removeSchemaField. cbn [removeSchemaField_fuel].
  destruct (negb (pathIsValid p)); [apply rejected_unchanged|].
  destruct (getLastSchemaAndPaths (model_schema m) p) as [thrown|l];
    [apply rejected_unchanged|].
  destruct (negb (Loc.exists_ l)); [apply rejected_unchanged|].
  match goal with
  | |- context [update (model_store m) ?a ?b ?ds] =>
      destruct (Hst a b ds) as [e Hu]; rewrite Hu
  end.
  split; [now exists e | reflexivity].
Qed.

Lemma changeFieldDefinition_refused (p : string) (d : JS) :
  rejectedUnchanged m (changeFieldDefinition m p d).
Proof.
  unfold changeFieldDefinition.
  destruct (negb (pathIsValid p)); [apply rejected_unchanged|].
  destruct (getLastSchemaAndPaths (model_schema m) p) as [thrown|l];
    [apply rejected_unchanged|].
  destruct (removeSchemaField_refused p false) as [[e He] Hf].
  destruct (then_rejected _ (fun _ m0 => addSchemaField m0 p d) e He) as [H1 F1].
  destruct (then_rejected _ (fun _ m0 => updateDefaults m0 (hd "" (Loc.subPaths l))) e H1)
    as [H2 F2].
  destruct (then_rejected _ (fun _ m0 => resolve (JStr "Field definition modified") m0) e H2)
    as [H3 F3].
  unfold thenResolve. cbn [final]. split.
  - unfold outcome in *. cbn [events].
    destruct (negb (Loc.exists_ l)); cbn [app firstSettle]; [now eexists | now exists e].
  - now rewrite F3, F2, F1.
Qed.

End RefusedUpdate.

(** [X11] When the store refuses the bulk update, [removeSchemaField] and
    [changeFieldDefinition] reject, for every path, and the model is what it
    was: the schema is not touched before the update of the documents has
    succeeded. *)
Theorem refused_update_changes_nothing (m : Model) :
  (forall a b ds, exists e, update (model_store m) a b ds = inl e) ->
  (forall p flag, rejectedUnchanged m (removeSchemaField m p flag))
  /\ (forall p d, rejectedUnchanged m (changeFieldDefinition m p d)).
Proof.
  intros Hst. split.
  - intros p flag. now apply removeSchemaField_refused.
  - intros p d. now apply changeFieldDefinition_refused.
Qed.

Lemma refused_update_changes_nothing_witness :
  rejectedUnchanged model_n_unavailable (removeSchemaField model_n_unavailable "n" true)
  /\ rejectedUnchanged model_n_unavailable
       (changeFieldDefinition model_n_unavailable "n" (JFun "Number")).
Proof.
  destruct (refused_update_changes_nothing model_n_unavailable) as [H1 H2].
  - intros a b ds. eexists. reflexivity.
  - split; [apply H1 | apply H2].
Defined.

(** ** [removeSubdocumentIfEmpty] on a parent that keeps fields *)

Section KeptParent.

Lemma local_segments_nonempty (s : Schema) (p : string) (l : Loc.t) :
  pathIsValid p = true -> p <> "" ->
  getLastSchemaAndPaths s p = inr l ->
  Forall (fun x => x <> "") (JSString.split dot (Loc.path l)).
Proof.
  intros Hv Hne Hl. pose proof (segments_nonempty p Hv Hne) as Hseg.
  unfold getLastSchemaAndPaths in Hl.
  destruct (JSString.split dot p) as [|first rest] eqn:Hs; [discriminate|].
  destruct (resolution_join _ _ _ _ _ _ Hl) as [hs [lp [-> [_ [_ Hj]]]]].
  rewrite <- Hs, join_split in Hj. cbn [Loc.path terminal].
  destruct hs as [|h hs].
  - cbn in Hj. subst lp. now rewrite Hs.
  - rewrite join_app in Hj by discriminate. cbn [JSString.join] in Hj.
    rewrite <- Hs, <- Hj, split_app in Hseg. apply Forall_app in Hseg. tauto.
Qed.

Lemma join_nonempty (x : string) (ks : list string) :
  x <> "" -> JSString.join "." (x :: ks) <> "".
Proof.
  intros Hx. destruct ks; [exact Hx|]. rewrite join_cons2. now apply append_nonempty_l.
Qed.

End KeptParent.

(** [X12] [removeSchemaField] with [removeSubdocumentIfEmpty] leaves a
    parent that keeps other fields where it is: for a valid, non-empty path
    to a field of an object that holds other fields as well, under any number
    of arrays, the call resolves (the store answering its update) and the
    object is in the owner tree with its other fields. *)
Theorem cascade_keeps_a_parent_with_fields
        (m : Model) (p : string) (l : Loc.t) (ks : list string) (f : string) (d : JS)
        (pfs : list (string * JS)) :
  pathIsValid p = true ->
  p <> "" ->
  getLastSchemaAndPaths (model_schema m) p = inr l ->
  JSString.split dot (Loc.path l) = (ks ++ [f])%list ->
  objectPath.get_keys (tree (Loc.schema l)) ks = JObj pfs ->
  assoc f pfs = Some d ->
  d <> JUndefined ->
  remove_key f pfs <> [] ->
  (forall a b ds, exists ds', update (model_store m) a b ds = inr ds') ->
  let r := removeSchemaField m p true in
  let owner := ownerAt (model_schema (final r)) (hops l) in
  outcome r = Resolved (JStr "Field removed successfully")
  /\ objectPath.get_keys (tree owner) ks = JObj (remove_key f pfs).
Proof.
  intros Hv Hnep Hl Hsp Hg Hf Hd Hkeep Hst.
  assert (Hne : forall h hs', hops l = h :: hs' -> h <> "")
    by (intros h hs' E; exact (first_hop_nonempty (model_schema m) p l h hs' Hv Hl E)).
  pose proof (local_path_nonempty _ _ _ Hv Hnep Hl) as Hlp.
  pose proof (local_segments_nonempty _ _ _ Hv Hnep Hl) as Hseg.
  pose proof (getLastSchemaAndPaths_shape _ _ _ Hl) as [hs [lp [El Hhv]]].
  subst l. rewrite hops_terminal in *.
  cbn [Loc.path Loc.schema terminal] in Hsp, Hg, Hlp, Hseg.
  pose proof (split_names lp) as Hnames. rewrite Hsp in Hnames, Hseg.
  apply Forall_app in Hnames. destruct Hnames as [Hkn _].
  apply Forall_app in Hseg. destruct Hseg as [Hke _].
  assert (Nlp : (lp =? "") = false) by (now apply String.eqb_neq).
  assert (Dlp : forall t, objectPath.del t lp = objectPath.del_keys t (ks ++ [f]))
    by (intros t; unfold objectPath.del; now rewrite Nlp, Hsp).
  assert (Glp : objectPath.get (tree (ownerAt (model_schema m) hs)) lp <> JUndefined).
  { unfold objectPath.get. rewrite Nlp, Hsp, get_keys_app, Hg. cbn.
    rewrite Hf. destruct d; congruence. }
  (* the owner tree after the deletion of the field *)
  assert (T1 : objectPath.get_keys
                 (objectPath.del_keys (tree (ownerAt (model_schema m) hs)) (ks ++ [f])) ks
               = JObj (remove_key f pfs)).
  { rewrite get_del_keys; [|discriminate|rewrite Hg; discriminate].
    rewrite Hg. cbn. now rewrite Hf. }
  assert (Li : objectPath.del_keys
                 (objectPath.del_keys (tree (ownerAt (model_schema m) hs)) (ks ++ [f]))
                 (ks ++ [f])
               = objectPath.del_keys (tree (ownerAt (model_schema m) hs)) (ks ++ [f]))
    by (eapply del_keys_absent; [exact T1 | apply assoc_remove_key]).
  pose (s1 := mongoose.remove (model_schema m) (extendFull (fullAfter "" hs) lp)).
  pose (s3 := editAlong objectPath.del (fun s : Schema => mongoose.remove s lp) s1 hs lp).
  pose (s4 := updateOwner s3 hs
                (fun s : Schema => MkSchema (objectPath.del (tree s) lp) (paths s))).
  assert (Hhv1 : hopsValid s1 hs) by (now apply hopsValid_remove).
  assert (E4 : s4 = editAlong objectPath.del
                      (fun o : Schema =>
                         MkSchema (objectPath.del (tree (mongoose.remove o lp)) lp)
                                  (paths (mongoose.remove o lp))) s1 hs lp)
    by (unfold s4, s3; now rewrite updateOwner_editAlong).
  assert (T4 : tree (ownerAt s4 hs)
               = objectPath.del_keys (tree (ownerAt (model_schema m) hs)) (ks ++ [f])).
  { rewrite E4. rewrite ownerAt_editAlong by exact Hhv1. unfold mongoose.remove.
    cbn [tree]. unfold s1.
    destruct (owner_tree_removed (model_schema m) hs lp Hne Hhv) as [E | E];
      rewrite E, !Dlp, ?Li; reflexivity. }
  (* the run *)
  cbv zeta. unfold removeSchemaField.
  remember 1 as n eqn:En. cbn [removeSchemaField_fuel].
  rewrite Hv, Hl. cbn [negb Loc.exists_ terminal].
  assert (Ex : isUndefined (objectPath.get (tree (ownerAt (model_schema m) hs)) lp) = false)
    by (destruct (objectPath.get (tree (ownerAt (model_schema m) hs)) lp);
        congruence || reflexivity).
  rewrite Ex. cbn [negb].
  match goal with
  | |- context [update (model_store m) ?a ?b ?ds] =>
      destruct (Hst a b ds) as [docs Hu]; rewrite Hu
  end.
  rewrite hops_terminal. cbn [Loc.subPaths Loc.fullPath Loc.path Loc.pathToLast terminal].
  fold (extendFull (fullAfter "" hs) lp). fold s1.
  rewrite (propagate_updateOwner objectPath.del (fun s : Schema => mongoose.remove s lp)
             lp hs s1 Hhv1).
  fold s3. fold s4. rewrite Hsp, removelast_last.
  destruct ks as [|k0 ks'].
  - cbn [app List.length Nat.ltb Nat.leb]. split; [reflexivity|].
    cbn [final resolve model_schema with_schema]. rewrite T4. exact T1.
  - assert (Hlen2 : (1 <? List.length ((k0 :: ks') ++ [f]))%nat = true)
      by (rewrite length_app; cbn [List.length]; apply Nat.ltb_lt; lia).
    rewrite Hlen2.
    assert (Hpn : JSString.join "." (k0 :: ks') <> "")
      by (apply join_nonempty; now apply Forall_inv in Hke).
    assert (Gpar : objectPath.get (tree (ownerAt s4 hs)) (JSString.join "." (k0 :: ks'))
                   = JObj (remove_key f pfs)).
    { unfold objectPath.get. apply String.eqb_neq in Hpn. rewrite Hpn.
      rewrite split_join by (discriminate || exact Hkn). rewrite T4. exact T1. }
    rewrite Gpar. cbn [keysEmpty].
    destruct (remove_key f pfs) as [|kv others] eqn:Hr; [congruence|].
    split; [reflexivity|].
    cbn [final resolve model_schema with_schema]. rewrite T4. exact T1.
Qed.

(** The field [m.b] of the elements of [a] in [{ a : [ { m : { b, c } } ] }]:
    [m] keeps [c]. *)
Lemma cascade_keeps_a_parent_with_fields_witness :
  let r := removeSchemaField (model_of schema_nested_two docs_nested_two) "a.m.b" true in
  let owner := ownerAt (model_schema (final r)) ["a"] in
  outcome r = Resolved (JStr "Field removed successfully")
  /\ objectPath.get_keys (tree owner) ["m"] = JObj [("c", tString)].
Proof.
  apply (cascade_keeps_a_parent_with_fields
           (model_of schema_nested_two docs_nested_two) "a.m.b"
           (terminal (mongoose.new (JObj [("m", JObj [("b", tString); ("c", tString)])]))
                     "m.b" "a" ["a"])
           ["m"] "b" tString [("b", tString); ("c", tString)]).
  - reflexivity.
  - discriminate.
  - reflexivity.
  - reflexivity.
  - reflexivity.
  - reflexivity.
  - discriminate.
  - discriminate.
  - intros a b ds. eexists. reflexivity.
Defined.

(** * Fields added under an empty field *)

Section SingleSegment.

Lemma isName_no_separator (a b : string) : isName (a ++ "." ++ b) = false.
Proof.
  induction a as [|c a IH]; [reflexivity|].
  change (isName (String c a ++ "." ++ b))
    with (negb (Ascii.eqb c dot) && isName (a ++ "." ++ b)).
  rewrite IH. apply andb_false_r.
Qed.

(** A name without [$] is a valid path. *)
Lemma name_valid (q : string) :
  isName q = true -> JSString.includes q "$" = false -> pathIsValid q = true.
Proof.
  intros Hn Hd. apply (proj2 (pathIsValid_spec q)).
  intros [[t ->] | [[t ->] | [[a [b ->]] | Hr]]].
  - discriminate.
  - change (t ++ ".") with (t ++ "." ++ "") in Hn.
    rewrite isName_no_separator in Hn. discriminate.
  - change (a ++ ".." ++ b) with (a ++ "." ++ ("." ++ b)) in Hn.
    rewrite isName_no_separator in Hn. discriminate.
  - apply includes_iff in Hr. congruence.
Qed.

(** A path of one segment resolves in the root schema, whatever the
    schema declares. *)
Lemma single_segment_resolution (s : Schema) (k : string) :
  isName k = true -> getLastSchemaAndPaths s k = inr (terminal s k "" []).
Proof.
  intros Hk. unfold getLastSchemaAndPaths. rewrite (split_name k Hk).
  rewrite resolve_unfold. now destruct (isArray s k).
Qed.

End SingleSegment.

(** [X13] The removal that [addSchemaField] makes of an empty parent is
    called with the container path followed, without a separator, by the
    segments of the parent joined by commas.  When that text is a name that
    the tree of the root schema does not hold, the addition is rejected and
    changes nothing: so it is for a parent of two segments or more, and for a
    parent inside an array. *)
Theorem addSchemaField_placeholder_path
        (m : Model) (p : string) (d : JS) (l : Loc.t) (ks : list string) (f : string) :
  pathIsValid p = true ->
  getLastSchemaAndPaths (model_schema m) p = inr l ->
  Loc.exists_ l = false ->
  JSString.split dot (Loc.path l) = (ks ++ [f])%list ->
  ks <> [] ->
  isEmptyPlaceholder (objectPath.get (tree (Loc.schema l)) (JSString.join "." ks)) = true ->
  let q := Loc.pathToLast l ++ JSString.join "," ks in
  isName q = true ->
  JSString.includes q "$" = false ->
  objectPath.get (tree (model_schema m)) q = JUndefined ->
  addSchemaField m p d
  = reject (Reason ("The field to remove does not exists (" ++ q ++ ")")) m.
Proof.
  intros Hv Hl He Hsp Hks Hph q Hq Hd Hg.
  unfold addSchemaField. rewrite Hv, Hl, He. cbn [negb].
  rewrite Hsp, removelast_last.
  assert (Hlen : (1 <? List.length (ks ++ [f]))%nat = true).
  { rewrite length_app. cbn [List.length]. apply Nat.ltb_lt.
    destruct ks; [congruence | cbn [List.length]; lia]. }
  rewrite Hlen, Hph. fold q.
  assert (Hr : removeSchemaField m q false
               = reject (Reason ("The field to remove does not exists (" ++ q ++ ")")) m).
  { unfold removeSchemaField. cbn [removeSchemaField_fuel].
    rewrite (name_valid q Hq Hd). cbn [negb].
    rewrite (single_segment_resolution _ q Hq). cbn [Loc.exists_ terminal].
    now rewrite Hg. }
  rewrite Hr. unfold thenResolve. now rewrite !then_reject.
Qed.

(** [meta] is empty in the elements of [items]: the removal is called
    with [itemsmeta]. *)
Lemma addSchemaField_placeholder_path_witness :
  addSchemaField (model_of schema_items_empty_meta []) "items.meta.f" tString
  = reject (Reason "The field to remove does not exists (itemsmeta)")
           (model_of schema_items_empty_meta []).
Proof.
  apply (addSchemaField_placeholder_path
           (model_of schema_items_empty_meta []) "items.meta.f" tString
           (terminal (mongoose.new (JObj [("meta", JObj []); ("name", tString)]))
                     "meta.f" "items" ["items"])
           ["meta"] "f").
  - reflexivity.
  - reflexivity.
  - reflexivity.
  - reflexivity.
  - discriminate.
  - reflexivity.
  - reflexivity.
  - reflexivity.
  - reflexivity.
Defined.

(** [a.b] is empty in [{ a : { b : {} }, x }]: the removal is called with
    [a,b]. *)
Example addSchemaField_under_a_deep_placeholder :
  addSchemaField (model_of schema_deep_placeholder []) "a.b.f" tString
  = reject (Reason "The field to remove does not exists (a,b)")
           (model_of schema_deep_placeholder []).
Proof. reflexivity. Qed.

(** ** Fields of the root tree *)

Section RootFields.









Variables (m : Model) (k : string) (fs : list (string * JS)) (v : JS).
Hypothesis Ht : tree (model_schema m) = JObj fs.
Hypothesis Hk : assoc k fs = Some v.
Hypothesis Hv : v <> JUndefined.
Hypothesis Hname : isName k = true.
Hypothesis Hne : k <> "".
Hypothesis Hvalid : pathIsValid k = true.
Hypothesis Hst : forall a b ds, exists ds', update (model_store m) a b ds = inr ds'.


End RootFields.

Section RootAddition.

Variables (m : Model) (k : string) (fs : list (string * JS)) (d : JS).
Hypothesis Ht : tree (model_schema m) = JObj fs.
Hypothesis Hk : assoc k fs = None.
Hypothesis Hname : isName k = true.
Hypothesis Hne : k <> "".
Hypothesis Hvalid : pathIsValid k = true.
Hypothesis Hfind : forall ds, find (model_store m) ds = None.
Hypothesis Hsave : forall x doc, exists doc', save (model_store m) x doc = inr doc'.


End RootAddition.







(** A field declared with a bare constructor passes the same test (a
    function has no keys): on [{ a : String, x : String }] the addition of
    [a.f] replaces the string field, and the documents lose the value they
    held at [a]. *)
Example addSchemaField_replaces_a_string_field :
  let r := addSchemaField (model_of schema_ax docs_ax) "a.f" (JFun "Number") in
  model_docs (model_of schema_ax docs_ax) = [JObj [("a", JStr "v"); ("x", JStr "w")]]
  /\ model_docs (final r) = [JObj [("x", JStr "w")]].
Proof. cbv zeta. split; reflexivity. Qed.

(** * The schema after [changeFieldType] *)

Section Retyped.

Lemma ownerAt_updateOwner (F : Schema -> Schema) :
  forall (hs : list string) (s : Schema),
    hopsValid s hs -> ownerAt (updateOwner s hs F) hs = F (ownerAt s hs).
Proof.
  induction hs as [|h hs IH]; intros s Hv; [reflexivity|].
  destruct Hv as [i [e [Hp Hv]]]. cbn [updateOwner]. rewrite Hp.
  rewrite (ownerAt_cons _ (updateOwner e hs F) h hs)
    by (eapply path_elementSchema; apply path_assign_same).
  rewrite (ownerAt_cons s e h hs) by (eapply path_elementSchema; exact Hp).
  now apply IH.
Qed.

(** A mutation of the owner below an array leaves the tree of the root as
    it is. *)
Lemma tree_updateOwner (F : Schema -> Schema) (s : Schema) (h : string) (hs : list string) :
  tree (updateOwner s (h :: hs) F) = tree s.
Proof.
  cbn [updateOwner]. destruct (mongoose.path s h) as [[i [e|]]|]; reflexivity.
Qed.

Lemma chain_is_object (ks : list string) (d : JS) :
  ks <> [] -> exists fs, objectPath.set_keys (JObj []) ks d = JObj fs.
Proof.
  intros Hne. destruct ks as [|k ks]; [congruence|].
  destruct ks; [cbn | rewrite set_keys_cons2; cbn]; now eexists.
Qed.

(** Reading the chain object that [objectPath.set] builds from [{}]. *)
Lemma chain_get (ks : list string) (d : JS) :
  Forall (fun x => objectPath.isNumberKey x = false) ks -> ks <> [] -> d <> JUndefined ->
  objectPath.get_keys (objectPath.set_keys (JObj []) ks d) ks = d.
Proof.
  intros Hn Hne Hd. induction ks as [|k ks IH]; [congruence|].
  destruct ks as [|k1 ks].
  - cbn. rewrite String.eqb_refl. destruct d; congruence.
  - rewrite set_keys_cons2. cbn [objectPath.getShallowProperty assoc].
    apply Forall_inv_tail in Hn. pose proof (Forall_inv Hn) as K1. rewrite K1.
    destruct (chain_is_object (k1 :: ks) d) as [fs Hfs]; [discriminate|].
    rewrite get_keys_cons. cbn [objectPath.setProperty assign objectPath.getShallowProperty assoc].
    rewrite String.eqb_refl. rewrite Hfs. rewrite <- Hfs. apply IH; [exact Hn | discriminate].
Qed.

(** Writing twice at the same path of the chain object. *)
Lemma chain_set_twice (ks : list string) (a b : JS) :
  Forall (fun x => objectPath.isNumberKey x = false) ks -> ks <> [] ->
  objectPath.set_keys (objectPath.set_keys (JObj []) ks a) ks b
  = objectPath.set_keys (JObj []) ks b.
Proof.
  intros Hn Hne. induction ks as [|k ks IH]; [congruence|].
  destruct ks as [|k1 ks].
  - cbn. now rewrite String.eqb_refl.
  - rewrite !(set_keys_cons2 _ k k1 ks).
    cbn [objectPath.getShallowProperty assoc].
    apply Forall_inv_tail in Hn. pose proof (Forall_inv Hn) as K1. rewrite K1.
    destruct (chain_is_object (k1 :: ks) a) as [fs Hfs]; [discriminate|].
    cbn [objectPath.setProperty assign objectPath.getShallowProperty assoc].
    rewrite String.eqb_refl. rewrite Hfs. cbn iota. rewrite <- Hfs.
    now rewrite (IH Hn) by discriminate.
Qed.

Lemma assoc_remove_key_other {A : Type} (k k' : string) (l : list (string * A)) :
  k' <> k -> assoc k' (remove_key k l) = assoc k' l.
Proof.
  intros Hne. induction l as [|[k0 v0] l IH]; [reflexivity|].
  cbn [remove_key assoc]. destruct (k0 =? k) eqn:E.
  - apply String.eqb_eq in E. subst k0.
    apply not_eq_sym in Hne. apply String.eqb_neq in Hne. now rewrite Hne.
  - cbn [assoc]. now rewrite IH.
Qed.

(** The definition after the assignments of [changeFieldType]. *)
Lemma retype_object (dfs : list (string * JS)) (newType defaultValue required : JS) :
  exists dfs',
    retype (JObj dfs) newType defaultValue required = inr (JObj dfs')
    /\ assoc "type" dfs' = Some newType
    /\ assoc "default" dfs' = (if looseUndefined defaultValue then None else Some defaultValue)
    /\ assoc "required" dfs' = (if truthy required then Some required else None)
    /\ (forall x, x <> "type" -> x <> "default" -> x <> "required" ->
                  assoc x dfs' = assoc x dfs).
Proof.
  eexists. split; [reflexivity|]. cbn beta zeta.
  destruct (looseUndefined defaultValue); destruct (truthy required); cbn [negb];
    repeat split;
    repeat first
      [ rewrite assoc_assign_same
      | rewrite assoc_remove_key
      | rewrite assoc_assign_other by discriminate
      | rewrite assoc_remove_key_other by discriminate ];
    try reflexivity;
    intros x H1 H2 H3;
    repeat first
      [ rewrite assoc_assign_other by assumption
      | rewrite assoc_remove_key_other by assumption ];
    reflexivity.
Qed.

Lemma changeFieldType_schema (m : Model) (p : string) (l : Loc.t)
      (newType defaultValue required retyped : JS) (keepValues : bool) :
  pathIsValid p = true ->
  getLastSchemaAndPaths (model_schema m) p = inr l ->
  retype (fieldDefinitionSuper l) newType defaultValue required = inr retyped ->
  Loc.path l <> "" ->
  model_schema (final (changeFieldType m p newType defaultValue required keepValues))
  = updateOwner (model_schema m) (hops l)
      (fun s => mongoose.add (mongoose.remove s (Loc.path l))
                  (objectPath.set (fieldDefinition0 l) (Loc.path l) retyped)).
Proof.
  intros Hv Hl Hr Hne. unfold changeFieldType. rewrite Hv, Hl, Hr. cbn [negb final].
  apply String.eqb_neq in Hne. rewrite Hne.
  destruct keepValues; cbn [negb].
  - unfold thenResolve. rewrite final_then_resolve. now rewrite updateDefaults_schema.
  - destruct (update _ _ _ _); reflexivity.
Qed.

End Retyped.

(** [X16] What [changeFieldType] leaves in the schema.  The path is valid
    and not empty; no segment of the local path is a number key; the parent
    of the field is an object of the tree of the schema the path resolves
    in, and the definition of the field is an object; the new type is a
    well-formed definition.  Then the schema the path resolves in holds
    afterwards, at the path, a definition whose [type] is the new type,
    whose [default] is the default value when that is neither [undefined]
    nor [null] and is absent otherwise, whose [required] is the given value
    when that is truthy and is absent otherwise, and whose other properties
    are those of the definition before.  This holds whatever the store
    answers and with or without [keepValues]; when the field lies inside an
    array the tree of the root schema is the one before the call. *)
Theorem changeFieldType_retypes_the_definition
        (m : Model) (p : string) (l : Loc.t) (newType defaultValue required : JS)
        (keepValues : bool) (ks : list string) (f : string)
        (pfs dfs : list (string * JS)) :
  pathIsValid p = true ->
  p <> "" ->
  getLastSchemaAndPaths (model_schema m) p = inr l ->
  JSString.split dot (Loc.path l) = (ks ++ [f])%list ->
  Forall (fun x => objectPath.isNumberKey x = false) (ks ++ [f]) ->
  objectPath.get_keys (tree (Loc.schema l)) ks = JObj pfs ->
  assoc f pfs = Some (JObj dfs) ->
  isDefinition newType = true ->
  let r := changeFieldType m p newType defaultValue required keepValues in
  (exists dfs',
      objectPath.get (tree (ownerAt (model_schema (final r)) (hops l))) (Loc.path l)
      = JObj dfs'
      /\ assoc "type" dfs' = Some newType
      /\ assoc "default" dfs'
         = (if looseUndefined defaultValue then None else Some defaultValue)
      /\ assoc "required" dfs' = (if truthy required then Some required else None)
      /\ (forall x, x <> "type" -> x <> "default" -> x <> "required" ->
                    assoc x dfs' = assoc x dfs))
  /\ (hops l <> [] -> tree (model_schema (final r)) = tree (model_schema m)).
Proof.
  intros Hv Hne Hl Hsplit Hnum Hpar Hf _ r.
  pose proof (local_path_nonempty _ _ _ Hv Hne Hl) as Hlp.
  assert (Hlp' : (Loc.path l =? "") = false) by (now apply String.eqb_neq).
  assert (Hsp : (ks ++ [f])%list <> []) by (now destruct ks).
  assert (Hold : objectPath.get (tree (Loc.schema l)) (Loc.path l) = JObj dfs).
  { unfold objectPath.get. rewrite Hlp', Hsplit, get_keys_app, Hpar.
    cbn. now rewrite Hf. }
  assert (Hsuper : fieldDefinitionSuper l = JObj dfs).
  { unfold fieldDefinitionSuper, fieldDefinition0, objectPath.get, objectPath.set.
    rewrite Hlp', Hsplit.
    unfold objectPath.get in Hold. rewrite Hlp', Hsplit in Hold. rewrite Hold.
    apply chain_get; [exact Hnum | exact Hsp | discriminate]. }
  destruct (retype_object dfs newType defaultValue required)
    as [dfs' [Hr [Ht [Hd [Hq Ho]]]]].
  rewrite <- Hsuper in Hr.
  pose proof (changeFieldType_schema m p l newType defaultValue required (JObj dfs')
                keepValues Hv Hl Hr Hlp) as Hs.
  fold r in Hs.
  destruct (getLastSchemaAndPaths_shape _ _ _ Hl) as [hs [lp [El Hhv]]].
  assert (Eh : hops l = hs) by (rewrite El; apply hops_terminal).
  assert (Es : Loc.schema l = ownerAt (model_schema m) hs) by (now rewrite El).
  split.
  - exists dfs'. split; [|now repeat split].
    rewrite Hs, Eh, (ownerAt_updateOwner _ hs _ Hhv), <- Es.
    unfold mongoose.add, mongoose.remove. cbn [tree].
    unfold fieldDefinition0, objectPath.get, objectPath.set, objectPath.del.
    rewrite Hlp', Hsplit.
    rewrite (chain_set_twice _ _ _ Hnum Hsp).
    destruct (deleted_leaf ks f _ pfs Hpar) as [pfs' [Hpar' Hf']].
    rewrite (merge_chain_plain ks f (JObj dfs') Hnum _ pfs' Hpar' Hf').
    apply (get_set_keys ks f (JObj dfs')) with (pfs := pfs'); [discriminate | exact Hpar'].
  - intros Hhops. rewrite Hs, Eh. rewrite Eh in Hhops.
    destruct hs as [|h hs']; [congruence|]. apply tree_updateOwner.
Qed.

(** The field [b], a trimmed string, of the elements of the array [a],
    retyped as a number with the default 0. *)
Lemma changeFieldType_retypes_the_definition_witness :
  let l := terminal (mongoose.new (JObj [("b", JObj [("type", tString); ("trim", JBool true)])]))
                    "b" "a" ["a"] in
  let r := changeFieldType (model_of schema_typed docs_typed) "a.b"
                           (JFun "Number") (JNum 0) (JBool false) false in
  (exists dfs',
      objectPath.get (tree (ownerAt (model_schema (final r)) (hops l))) (Loc.path l)
      = JObj dfs'
      /\ assoc "type" dfs' = Some (JFun "Number")
      /\ assoc "default" dfs' = Some (JNum 0)
      /\ assoc "required" dfs' = None
      /\ (forall x, x <> "type" -> x <> "default" -> x <> "required" ->
                    assoc x dfs' = assoc x [("type", tString); ("trim", JBool true)]))
  /\ (hops l <> [] -> tree (model_schema (final r)) = tree schema_typed).
Proof.
  apply (changeFieldType_retypes_the_definition
           (model_of schema_typed docs_typed) "a.b"
           (terminal (mongoose.new (JObj [("b", JObj [("type", tString); ("trim", JBool true)])]))
                     "b" "a" ["a"])
           (JFun "Number") (JNum 0) (JBool false) false [] "b"
           [("b", JObj [("type", tString); ("trim", JBool true)])]
           [("type", tString); ("trim", JBool true)]).
  - reflexivity.
  - discriminate.
  - reflexivity.
  - reflexivity.
  - repeat constructor.
  - reflexivity.
  - reflexivity.
  - reflexivity.
Defined.

(** * Adding a field and removing it *)







(** * The resolver of [index.js] *)

Section IndexResolution.

Lemma lastHopFull_cons (full h : string) (hs : list string) :
  lastHopFull (h ++ ".$[]") hs = lastHopFull full (h :: hs).
Proof. destruct hs; reflexivity. Qed.

(** The two resolvers walk the schema alike: they raise together, or
    return the same hops and local path. *)
Lemma resolutions_together (rest : list string) :
  forall (s : Schema) (cp full full' : string) (subs : list string),
    (exists e,
        Index.getLastSchemaAndPathsRecursive s cp rest full' subs = inl e
        /\ getLastSchemaAndPathsRecursive s cp rest full subs = inl e)
    \/ (exists hs lp,
           Index.getLastSchemaAndPathsRecursive s cp rest full' subs
           = inr (Index.terminal (ownerAt s hs) lp (lastHopFull full' hs) (subs ++ hs))
           /\ getLastSchemaAndPathsRecursive s cp rest full subs
              = inr (terminal (ownerAt s hs) lp (fullAfter full hs) (subs ++ hs))
           /\ hopsValid s hs).
Proof.
  induction rest as [|next rest IH]; intros s cp full full' subs.
  - right. exists [], cp. cbn. rewrite app_nil_r.
    destruct (isArray s cp); repeat split.
  - cbn [Index.getLastSchemaAndPathsRecursive getLastSchemaAndPathsRecursive].
    destruct (isArray s cp) eqn:Ha.
    + destruct (elementSchema s cp) as [e|] eqn:He.
      * destruct (IH e next (if full =? "" then cp else full ++ ".$[]." ++ cp)
                     (cp ++ ".$[]") (subs ++ [cp])%list)
          as [[err [H1 H2]] | [hs [lp [H1 [H2 Hv]]]]].
        -- left. exists err. now split.
        -- right. exists (cp :: hs), lp.
           rewrite (ownerAt_cons s e cp hs He).
           rewrite <- (lastHopFull_cons full' cp hs).
           rewrite <- !app_assoc in H1, H2. cbn [app] in H1, H2.
           split; [exact H1|]. split; [exact H2|].
           cbn [hopsValid]. apply elementSchema_path in He.
           destruct He as [i Hp]. exists i, e. now split.
      * left. eexists. split; reflexivity.
    + apply IH.
Qed.

End IndexResolution.

Lemma index_resolution (s : Schema) (p : string) :
  (exists e,
      Index.getLastSchemaAndPaths s p = inl e /\ getLastSchemaAndPaths s p = inl e)
  \/ (exists hs lp,
         Index.getLastSchemaAndPaths s p
         = inr (Index.terminal (ownerAt s hs) lp (lastHopFull "" hs) hs)
         /\ getLastSchemaAndPaths s p
            = inr (terminal (ownerAt s hs) lp (fullAfter "" hs) hs)
         /\ hopsValid s hs).
Proof.
  unfold Index.getLastSchemaAndPaths, getLastSchemaAndPaths.
  pose proof (split_nonempty p) as Hne.
  destruct (JSString.split dot p) as [|first rest]; [congruence|].
  exact (resolutions_together rest s first "" "" []).
Qed.

Lemma append_nonempty_r (a b : string) : b <> "" -> a ++ b <> "".
Proof. intros Hb. destruct a; [exact Hb | discriminate]. Qed.

Lemma index_fullPath (s : Schema) (lp : string) (hs : list string) :
  Loc.fullPath (Index.terminal s lp (lastHopFull "" hs) hs)
  = match hs with
    | [] => lp
    | _ :: _ => last hs "" ++ ".$[]." ++ lp
    end.
Proof.
  destruct hs as [|h hs]; [reflexivity|].
  cbn [Loc.fullPath Index.terminal lastHopFull].
  assert (E : (last (h :: hs) "" ++ ".$[]" =? "") = false)
    by (apply String.eqb_neq, append_nonempty_r; discriminate).
  rewrite E. cbn [negb]. now rewrite append_assoc.
Qed.

(** [X17] The resolver of [index.js] and the later one walk a schema alike,
    whatever the schema and the path: they raise the same error, or return
    locations with the same [exists], schema, local path and sub-paths.
    The query path of [index.js] holds the last hop only, followed by the
    marker and the local path, and its container path is the last hop with
    the marker, less its first [.$[]]: the arrays crossed before the last
    one are not in them. *)
Theorem index_resolution_agrees (s : Schema) (p : string) :
  match Index.getLastSchemaAndPaths s p, getLastSchemaAndPaths s p with
  | inr li, inr l =>
      Loc.exists_ li = Loc.exists_ l
      /\ Loc.schema li = Loc.schema l
      /\ Loc.path li = Loc.path l
      /\ Loc.subPaths li = Loc.subPaths l
      /\ Loc.fullPath li
         = match hops l with
           | [] => Loc.path l
           | _ :: _ => last (hops l) "" ++ ".$[]." ++ Loc.path l
           end
      /\ Loc.pathToLast li
         = match hops l with
           | [] => ""
           | _ :: _ => JSString.replace (last (hops l) "" ++ ".$[]") ".$[]" ""
           end
  | inl e, inl e' => e = e'
  | _, _ => False
  end.
Proof.
  destruct (index_resolution s p) as [[e [-> ->]] | [hs [lp [-> [-> _]]]]]; [reflexivity|].
  rewrite hops_terminal, index_fullPath.
  repeat split. destruct hs; reflexivity.
Qed.

Section ValidIndexResolution.

Lemma join_contains (sep h : string) (l : list string) :
  In h l -> exists a b, JSString.join sep l = a ++ h ++ b.
Proof.
  induction l as [|h0 l IH]; [contradiction|]. intros Hin.
  destruct l as [|h1 l].
  - destruct Hin as [->|[]]. exists "", "". cbn. now rewrite append_empty_r.
  - rewrite join_cons2. destruct Hin as [->|Hin].
    + exists "", (sep ++ JSString.join sep (h1 :: l)). reflexivity.
    + destruct (IH Hin) as [a [b E]]. rewrite E.
      exists (h0 ++ sep ++ a), b. now rewrite !append_assoc.
Qed.

Lemma valid_no_reserved_character (p : string) :
  pathIsValid p = true -> JSString.includes p "$" = false.
Proof.
  intros Hv. apply (valid_no_reserved p ""). now rewrite append_empty_r.
Qed.

Lemma segment_no_reserved (p h : string) (l : list string) :
  pathIsValid p = true -> JSString.join "." l = p -> In h l ->
  JSString.includes h "$" = false.
Proof.
  intros Hv Hj Hin. destruct (JSString.includes h "$") eqn:E; [|reflexivity].
  apply includes_iff in E. destruct E as [x [y ->]].
  destruct (join_contains "." _ l Hin) as [a [b Hc]].
  pose proof (valid_no_reserved_character p Hv) as Hn.
  assert (Hp : JSString.includes p "$" = true).
  { apply includes_iff. exists (a ++ x), (y ++ b).
    rewrite <- Hj, Hc. now rewrite !append_assoc. }
  congruence.
Qed.

Lemma last_in (hs : list string) : hs <> [] -> In (last hs "") hs.
Proof.
  intros Hne. rewrite (app_removelast_last "" Hne) at 2.
  apply in_or_app. right. now left.
Qed.

Lemma lastHopFull_replace (hs : list string) :
  (forall h, In h hs -> JSString.includes h "$" = false) ->
  JSString.replace (lastHopFull "" hs) ".$[]" "" = last hs "".
Proof.
  intros Hd. destruct hs as [|h hs']; [reflexivity|]. cbn [lastHopFull].
  change (last (h :: hs') "" ++ ".$[]") with (last (h :: hs') "" ++ ".$[]" ++ "").
  rewrite replace_marker by (apply Hd, last_in; discriminate).
  apply append_empty_r.
Qed.

Lemma terminal_one_hop (o : Schema) (lp : string) (hs : list string) :
  List.length hs <= 1 ->
  (forall h, In h hs -> h <> "" /\ JSString.includes h "$" = false) ->
  Index.terminal o lp (lastHopFull "" hs) hs = terminal o lp (fullAfter "" hs) hs.
Proof.
  intros Hlen Hh. destruct hs as [|h [|h2 hs']]; [reflexivity| |cbn in Hlen; lia].
  destruct (Hh h (or_introl eq_refl)) as [Hne Hd].
  unfold Index.terminal, terminal. cbn [lastHopFull last fullAfter extendFull String.eqb].
  assert (E1 : (h ++ ".$[]" =? "") = false)
    by (apply String.eqb_neq, append_nonempty_l, Hne).
  assert (E2 : (h =? "") = false) by (now apply String.eqb_neq).
  rewrite E1, E2. cbn [negb].
  rewrite (replace_no_marker h Hd).
  change (h ++ ".$[]") with (h ++ ".$[]" ++ "").
  rewrite (replace_marker h "" Hd), (append_empty_r h).
  now rewrite append_assoc.
Qed.

Lemma terminal_fullPath_suffix (o : Schema) (lp : string) (hs : list string) :
  2 <= List.length hs ->
  hd "" hs <> "" ->
  Loc.fullPath (terminal o lp (fullAfter "" hs) hs)
  = JSString.join ".$[]." (removelast hs) ++ ".$[]."
      ++ Loc.fullPath (Index.terminal o lp (lastHopFull "" hs) hs).
Proof.
  intros Hlen Hh. rewrite index_fullPath.
  destruct hs as [|h [|h2 hs']]; [cbn in Hlen; lia | cbn in Hlen; lia |].
  cbn [hd] in Hh.
  cbn [Loc.fullPath terminal]. fold (extendFull (fullAfter "" (h :: h2 :: hs')) lp).
  rewrite (fullPath_join h (h2 :: hs') lp Hh).
  assert (Hne : h :: h2 :: hs' <> []) by discriminate.
  rewrite (app_removelast_last "" Hne) at 1.
  rewrite <- app_assoc. rewrite join_app by discriminate.
  reflexivity.
Qed.

Variables (s : Schema) (p : string) (hs : list string) (lp : string).
Hypothesis Hv : pathIsValid p = true.
Hypothesis Hl : getLastSchemaAndPaths s p
                = inr (terminal (ownerAt s hs) lp (fullAfter "" hs) hs).

Lemma hops_join : JSString.join "." (hs ++ [lp]) = p.
Proof.
  destruct (resolution_subPaths_join s p _ Hl) as [_ Hj].
  exact Hj.
Qed.

Lemma hop_no_reserved (h : string) : In h hs -> JSString.includes h "$" = false.
Proof.
  intros Hin. apply (segment_no_reserved p h (hs ++ [lp]) Hv hops_join).
  apply in_or_app. now left.
Qed.

Lemma first_hop (h : string) (rest : list string) : hs = h :: rest -> h <> "".
Proof.
  intros E. apply (first_hop_nonempty s p _ h rest Hv Hl).
  rewrite hops_terminal. exact E.
Qed.

End ValidIndexResolution.

(** [X18] For a valid path, the container path that [index.js] resolves is
    the last hop.  When the path crosses at most one array the resolver of
    [index.js] returns the location that the later resolver returns; when it
    crosses two or more, its query path is a strict end of the later one:
    the later query path is the hops before the last, joined by the marker,
    followed by the query path of [index.js]. *)
Theorem index_resolution_of_valid_path (s : Schema) (p : string) (li l : Loc.t) :
  pathIsValid p = true ->
  Index.getLastSchemaAndPaths s p = inr li ->
  getLastSchemaAndPaths s p = inr l ->
  Loc.pathToLast li = last (hops l) ""
  /\ (List.length (hops l) <= 1 -> li = l)
  /\ (2 <= List.length (hops l) ->
      Loc.fullPath l
      = JSString.join ".$[]." (removelast (hops l)) ++ ".$[]." ++ Loc.fullPath li).
Proof.
  intros Hv Hli Hl.
  destruct (index_resolution s p) as [[e [H1 _]] | [hs [lp [H1 [H2 _]]]]]; [congruence|].
  rewrite H1 in Hli. rewrite H2 in Hl. injection Hli as <-. injection Hl as <-.
  rewrite hops_terminal.
  pose proof (hop_no_reserved s p hs lp Hv H2) as Hd.
  pose proof (first_hop s p hs lp Hv H2) as Hf.
  split; [|split].
  - cbn [Loc.pathToLast Index.terminal]. now apply lastHopFull_replace.
  - intros Hlen. apply terminal_one_hop; [exact Hlen|].
    intros h Hin. split; [|now apply Hd].
    destruct hs as [|h0 [|h1 hs']]; [contradiction| |cbn in Hlen; lia].
    destruct Hin as [<-|[]]. now apply (Hf h0 []).
  - intros Hlen. apply terminal_fullPath_suffix; [exact Hlen|].
    destruct hs as [|h0 hs']; [cbn in Hlen; lia|]. now apply (Hf h0 hs').
Qed.

Lemma index_resolution_of_valid_path_witness :
  Loc.pathToLast (Index.terminal (mongoose.new (JObj [("d", tString)]))
                                 "d" "c.$[]" ["a"; "b"; "c"]) = "c"
  /\ "a.$[].b.$[].c.$[].d" = "a.$[].b" ++ ".$[]." ++ "c.$[].d".
Proof.
  destruct (index_resolution_of_valid_path schema_abcd "a.b.c.d"
              (Index.terminal (mongoose.new (JObj [("d", tString)]))
                              "d" "c.$[]" ["a"; "b"; "c"])
              (terminal (mongoose.new (JObj [("d", tString)]))
                        "d" "a.$[].b.$[].c" ["a"; "b"; "c"])
              eq_refl eq_refl eq_refl) as [H1 [_ H3]].
  split; [exact H1 | apply H3; cbn; lia].
Defined.

(** * The operations of [index.js] *)

Lemma index_resolution_one_hop (s : Schema) (p : string) (l : Loc.t) :
  pathIsValid p = true ->
  getLastSchemaAndPaths s p = inr l ->
  List.length (hops l) <= 1 ->
  Index.getLastSchemaAndPaths s p = inr l.
Proof.
  intros Hv Hl Hlen.
  destruct (index_resolution s p) as [[e [_ H2]] | [hs [lp [H1 [H2 _]]]]]; [congruence|].
  rewrite H1. rewrite H2 in Hl. injection Hl as <-. rewrite hops_terminal in Hlen.
  f_equal. apply terminal_one_hop; [exact Hlen|].
  intros h Hin. split; [|now apply (hop_no_reserved _ p hs lp Hv H2)].
  destruct hs as [|h0 [|h1 hs']]; [contradiction| |cbn in Hlen; lia].
  destruct Hin as [<-|[]]. now apply (first_hop _ p _ lp Hv H2 h0 []).
Qed.

(** [X19] On a valid path that crosses at most one array, the
    [removeSchemaField] of [index.js] does what the later
    [removeSchemaField] does without [removeSubdocumentIfEmpty], but for the
    cache of positional paths: the two runs have the same events in the same
    order and end with the same schema, the same documents and the same
    store; [index.js] leaves [model.schema.subpaths] as it is, and the later
    function, once the update of the store has succeeded, has deleted from
    it the key made of the sub-paths joined by [.0.]. *)
Theorem index_removeSchemaField_agrees (m : Model) (p : string) (l : Loc.t) :
  pathIsValid p = true ->
  getLastSchemaAndPaths (model_schema m) p = inr l ->
  List.length (hops l) <= 1 ->
  let ri := Index.removeSchemaField m p in
  let r := removeSchemaField m p false in
  events ri = events r
  /\ model_schema (final ri) = model_schema (final r)
  /\ model_docs (final ri) = model_docs (final r)
  /\ model_store (final ri) = model_store (final r)
  /\ model_subpaths (final ri) = model_subpaths m
  /\ model_subpaths (final r)
     = (if existsb (fun e => match e with Completed _ ok => ok | Settle _ => false end)
                   (events r)
        then remove_key (JSString.join ".0." (Loc.subPaths l)) (model_subpaths m)
        else model_subpaths m).
Proof.
  intros Hv Hl Hlen.
  pose proof (index_resolution_one_hop _ p l Hv Hl Hlen) as Hli.
  unfold Index.removeSchemaField, removeSchemaField. remember 1 as n.
  cbn [removeSchemaField_fuel]. rewrite Hv, Hli, Hl. cbn [negb].
  destruct (Loc.exists_ l); cbn [negb]; [|now repeat split].
  destruct (update _ _ _ _); [now repeat split|].
  destruct (propagate _ _ _) as [s3 [e|]]; now repeat split.
Qed.

Lemma index_removeSchemaField_agrees_witness :
  let ri := Index.removeSchemaField (model_of schema_ab docs_ab) "a.b" in
  let r := removeSchemaField (model_of schema_ab docs_ab) "a.b" false in
  events ri = events r
  /\ model_schema (final ri) = model_schema (final r)
  /\ model_docs (final ri) = model_docs (final r).
Proof.
  destruct (index_removeSchemaField_agrees
              (model_of schema_ab docs_ab) "a.b"
              (terminal (mongoose.new (JObj [("b", tString); ("c", tString)])) "b" "a" ["a"])
              eq_refl eq_refl ltac:(cbn; lia)) as [H1 [H2 [H3 _]]].
  repeat split; assumption.
Defined.

Section IndexAddition.

Lemma index_hops_terminal (s : Schema) (lp full : string) (hs : list string) :
  hops (Index.terminal s lp full hs) = hs.
Proof. unfold hops, Index.terminal. cbn. apply removelast_last. Qed.



(** The addition of [index.js] on a field that is not there: one event,
    the resolution, and the schema edited along the hops. *)
Lemma index_addSchemaField_run (m : Model) (p : string) (d : JS) (hs : list string)
      (lp full : string) :
  Index.getLastSchemaAndPaths (model_schema m) p
  = inr (Index.terminal (ownerAt (model_schema m) hs) lp full hs) ->
  hopsValid (model_schema m) hs ->
  objectPath.get (tree (ownerAt (model_schema m) hs)) lp = JUndefined ->
  Index.addSchemaField m p d
  = resolve (JStr "Field added successfully")
      (with_schema m
         (editAlong (fun t path => objectPath.set t path d)
                    (fun o => mongoose.add o (objectPath.set (JObj []) lp d))
                    (model_schema m) hs lp)).
Proof.
  intros Hl Hhv He. unfold Index.addSchemaField. rewrite Hl.
  rewrite index_hops_terminal. cbn [Loc.exists_ Loc.path Loc.subPaths Index.terminal].
  rewrite He. cbn [isUndefined negb].
  now rewrite (propagate_updateOwner _ _ lp hs _ Hhv).
Qed.

End IndexAddition.



(** The addition of [index.js] rejects and leaves the model, or resolves
    and leaves a model that differs in its schema only. *)
Lemma index_addSchemaField_cases (m : Model) (p : string) (d : JS) :
  (exists e, Index.addSchemaField m p d = reject e m)
  \/ (exists s', Index.addSchemaField m p d
                 = resolve (JStr "Field added successfully") (with_schema m s')).
Proof.
  destruct (index_resolution (model_schema m) p)
    as [[e [H1 _]] | [hs [lp [H1 [_ Hhv]]]]].
  - left. exists e. unfold Index.addSchemaField. now rewrite H1.
  - destruct (objectPath.get (tree (ownerAt (model_schema m) hs)) lp) eqn:Hg;
      try (left; eexists; unfold Index.addSchemaField; rewrite H1;
           cbn [Loc.exists_ Index.terminal]; rewrite Hg; reflexivity).
    right. eexists. exact (index_addSchemaField_run m p d hs lp _ H1 Hhv Hg).
Qed.

Section IndexMove.

Lemma then_of_reject (e : Err) (m : Model) (k : JS -> Model -> Run) :
  then_ (reject e m) k = reject e m.
Proof. reflexivity. Qed.

Lemma then_of_resolve (v : JS) (m : Model) (k : JS -> Model -> Run) :
  then_ (resolve v m) k = k v m.
Proof. unfold then_. cbn. now destruct (k v m). Qed.

(** The callbacks of the saves of [moveSchemaField]: the first error
    settles, the saves that succeed do not. *)
Lemma moveSaveCallbacks_outcome (results : list (Err + JS)) (rest : list Event) :
  firstSettle (moveSaveCallbacks results ++ rest)
  = match firstError results with
    | Some e => Rejected e
    | None => firstSettle rest
    end.
Proof.
  induction results as [|[e|doc] results IH]; [reflexivity | reflexivity |].
  cbn [moveSaveCallbacks flat_map app firstSettle firstError].
  exact IH.
Qed.

Lemma index_removeSchemaField_refused (m : Model) (p : string) :
  (forall a b ds, exists e, update (model_store m) a b ds = inl e) ->
  final (Index.removeSchemaField m p) = m.
Proof.
  intros Hu. unfold Index.removeSchemaField.
  destruct (Index.getLastSchemaAndPaths (model_schema m) p) as [e|l]; [reflexivity|].
  destruct (Loc.exists_ l); cbn [negb]; [|reflexivity].
  match goal with
  | |- context [update (model_store m) ?a ?b ?ds] => destruct (Hu a b ds) as [e ->]
  end.
  reflexivity.
Qed.

End IndexMove.

Lemma index_addSchemaField_resolves (m : Model) (p : string) (d : JS) (li : Loc.t) :
  Index.getLastSchemaAndPaths (model_schema m) p = inr li ->
  Loc.exists_ li = false ->
  exists s', Index.addSchemaField m p d
             = resolve (JStr "Field added successfully") (with_schema m s').
Proof.
  intros Hli He.
  destruct (index_resolution (model_schema m) p)
    as [[e [H1 _]] | [hs [lp [H1 [_ Hhv]]]]]; [congruence|].
  rewrite H1 in Hli. injection Hli as <-. cbn [Loc.exists_ Index.terminal] in He.
  assert (Hg : objectPath.get (tree (ownerAt (model_schema m) hs)) lp = JUndefined)
    by (destruct (objectPath.get _ lp); cbn in He; congruence).
  eexists. exact (index_addSchemaField_run m p d hs lp _ H1 Hhv Hg).
Qed.

(** [X22] On an empty collection the [moveSchemaField] of [index.js] never
    resolves, whatever the schema and the paths: it is rejected or left
    pending.  When origin and destination pass its checks and the search
    succeeds, the promise is never settled (no document, no callback of a
    save), and the model is the one that the addition of the destination
    left: the origin is not removed. *)
Theorem index_moveSchemaField_empty_collection (m : Model) (origin dest : string) :
  model_docs m = [] ->
  let r := Index.moveSchemaField m origin dest in
  (forall v, outcome r <> Resolved v)
  /\ (forall lo ld,
        Index.getLastSchemaAndPaths (model_schema m) origin = inr lo ->
        Index.getLastSchemaAndPaths (model_schema m) dest = inr ld ->
        Loc.exists_ lo = true ->
        Loc.exists_ ld = false ->
        List.length (Loc.subPaths lo) = List.length (Loc.subPaths ld) ->
        sameSubdocument (Loc.subPaths lo) (Loc.subPaths ld) = true ->
        find (model_store m) [] = None ->
        let added :=
          Index.addSchemaField m dest
            (objectPath.get (tree (Loc.schema lo)) (Loc.path lo)) in
        outcome added = Resolved (JStr "Field added successfully")
        /\ outcome r = Pending
        /\ final r = final added).
Proof.
  intros Hd r. split.
  - intros v. unfold r, Index.moveSchemaField.
    destruct (Index.getLastSchemaAndPaths (model_schema m) origin) as [e|lo];
      [not_resolved|].
    destruct (Index.getLastSchemaAndPaths (model_schema m) dest) as [e|ld];
      [not_resolved|].
    destruct (Loc.exists_ lo); cbn [negb]; [|not_resolved].
    destruct (Loc.exists_ ld); [not_resolved|].
    destruct (List.length (Loc.subPaths lo) =? List.length (Loc.subPaths ld))%nat;
      cbn [negb]; [|not_resolved].
    destruct (sameSubdocument (Loc.subPaths lo) (Loc.subPaths ld));
      cbn [negb]; [|not_resolved].
    destruct (index_addSchemaField_cases m dest
                (objectPath.get (tree (Loc.schema lo)) (Loc.path lo)))
      as [[e ->] | [s' ->]].
    + rewrite then_of_reject. not_resolved.
    + rewrite then_of_resolve. cbn [model_store model_docs with_schema]. rewrite Hd.
      destruct (find (model_store m) []); not_resolved.
  - intros lo ld Hlo Hld He1 He2 Hlen Hsame Hfind added.
    destruct (index_addSchemaField_resolves m dest
                (objectPath.get (tree (Loc.schema lo)) (Loc.path lo)) ld Hld He2)
      as [s' Hadd].
    fold added in Hadd.
    split; [now rewrite Hadd|].
    unfold r, Index.moveSchemaField. rewrite Hlo, Hld, He1, He2, Hlen, Nat.eqb_refl, Hsame.
    cbn [negb]. fold added. rewrite Hadd, then_of_resolve.
    cbn [model_store model_docs with_schema]. rewrite Hd, Hfind.
    split; reflexivity.
Qed.

Lemma index_moveSchemaField_empty_collection_witness :
  let r := Index.moveSchemaField (model_of schema_ab []) "a.b" "a.e" in
  (forall v, outcome r <> Resolved v)
  /\ outcome r = Pending
  /\ objectPath.get (tree (ownerAt (model_schema (final r)) ["a"])) "b" = tString
  /\ objectPath.get (tree (ownerAt (model_schema (final r)) ["a"])) "e" = tString.
Proof.
  destruct (index_moveSchemaField_empty_collection (model_of schema_ab []) "a.b" "a.e"
              eq_refl) as [H1 H2].
  split; [exact H1|].
  destruct (H2 (Index.terminal (mongoose.new (JObj [("b", tString); ("c", tString)]))
                               "b" "a.$[]" ["a"])
               (Index.terminal (mongoose.new (JObj [("b", tString); ("c", tString)]))
                               "e" "a.$[]" ["a"])
               eq_refl eq_refl eq_refl eq_refl eq_refl eq_refl eq_refl)
    as [_ [H3 H4]].
  split; [exact H3|]. rewrite H4. split; reflexivity.
Defined.

(** [X23] With documents in the collection, the [moveSchemaField] of
    [index.js] is settled by the callbacks of the saves, before the removal of
    the origin has done anything: when origin and destination pass its
    checks, the search succeeds and the values are moved in every document,
    the promise is rejected with the error of the first save that failed, and
    is resolved with "Field moved successfully" when no save failed, whatever
    the removal does afterwards.  When the store refuses the update of the
    removal, the promise is resolved all the same, and the schema is the one
    that the addition of the destination left: the origin is still in it. *)
Theorem index_moveSchemaField_resolves_before_removal
        (m : Model) (origin dest : string) (lo ld : Loc.t) (moved : list JS) :
  Index.getLastSchemaAndPaths (model_schema m) origin = inr lo ->
  Index.getLastSchemaAndPaths (model_schema m) dest = inr ld ->
  Loc.exists_ lo = true ->
  Loc.exists_ ld = false ->
  List.length (Loc.subPaths lo) = List.length (Loc.subPaths ld) ->
  sameSubdocument (Loc.subPaths lo) (Loc.subPaths ld) = true ->
  find (model_store m) (model_docs m) = None ->
  model_docs m <> [] ->
  Index.moveDocuments (model_docs m) (Loc.subPaths lo) (Loc.path ld) = (moved, None) ->
  let results := map (save (model_store m) (hd "" (Loc.subPaths lo))) moved in
  let added :=
    Index.addSchemaField m dest (objectPath.get (tree (Loc.schema lo)) (Loc.path lo)) in
  let r := Index.moveSchemaField m origin dest in
  outcome r = match firstError results with
              | Some e => Rejected e
              | None => Resolved (JStr "Field moved successfully")
              end
  /\ ((forall a b ds, exists e, update (model_store m) a b ds = inl e) ->
      model_schema (final r) = model_schema (final added)
      /\ model_docs (final r) = persisted (model_docs m) results).
Proof.
  intros Hlo Hld He1 He2 Hlen Hsame Hfind Hdocs Hmove results added r.
  destruct (index_addSchemaField_resolves m dest
              (objectPath.get (tree (Loc.schema lo)) (Loc.path lo)) ld Hld He2)
    as [s' Hadd].
  fold added in Hadd.
  assert (Hr : r = let removal :=
                     Index.removeSchemaField
                       (with_docs (with_schema m s') (persisted (model_docs m) results))
                       origin in
                   {| events := (Completed "find" true :: moveSaveCallbacks results
                                   ++ Settle (Resolved (JStr "Field moved successfully"))
                                   :: Index.catchReject removal)%list;
                      final := final removal |}).
  { unfold r, Index.moveSchemaField.
    rewrite Hlo, Hld, He1, He2, Hlen, Nat.eqb_refl, Hsame. cbn [negb].
    fold added. rewrite Hadd, then_of_resolve.
    cbn [model_store model_docs with_schema]. rewrite Hfind, Hmove.
    destruct (model_docs m) as [|doc docs]; [congruence|]. reflexivity. }
  split.
  - rewrite Hr. unfold outcome. cbn [events firstSettle].
    rewrite moveSaveCallbacks_outcome. reflexivity.
  - intros Hu. rewrite Hr. cbn [final].
    rewrite index_removeSchemaField_refused by exact Hu.
    rewrite Hadd. split; reflexivity.
Qed.

Lemma index_moveSchemaField_resolves_before_removal_witness :
  let r := Index.moveSchemaField model_ab_no_update "a.b" "a.e" in
  outcome r = Resolved (JStr "Field moved successfully")
  /\ objectPath.get (tree (ownerAt (model_schema (final r)) ["a"])) "b" = tString.
Proof.
  destruct (index_moveSchemaField_resolves_before_removal
              model_ab_no_update "a.b" "a.e"
              (Index.terminal (mongoose.new (JObj [("b", tString); ("c", tString)]))
                              "b" "a.$[]" ["a"])
              (Index.terminal (mongoose.new (JObj [("b", tString); ("c", tString)]))
                              "e" "a.$[]" ["a"])
              (fst (Index.moveDocuments docs_ab ["a"; "b"] "e"))
              eq_refl eq_refl eq_refl eq_refl eq_refl eq_refl eq_refl
              ltac:(discriminate) eq_refl)
    as [H1 H2].
  split; [exact H1|].
  destruct H2 as [H2 _]; [intros a b ds; eexists; reflexivity|].
  rewrite H2. reflexivity.
Defined.

Section IndexRetyped.

Variables (l : Loc.t) (ks : list string) (f : string) (pfs : list (string * JS)).
Hypothesis Hlp : Loc.path l <> "".
Hypothesis Hsplit : JSString.split dot (Loc.path l) = (ks ++ [f])%list.
Hypothesis Hnum : Forall (fun x => objectPath.isNumberKey x = false) (ks ++ [f]).
Hypothesis Hpar : objectPath.get_keys (tree (Loc.schema l)) ks = JObj pfs.

Lemma local_field (v : JS) :
  assoc f pfs = Some v -> objectPath.get (tree (Loc.schema l)) (Loc.path l) = v.
Proof.
  intros Hf. pose proof (proj2 (String.eqb_neq _ _) Hlp) as Hlp'.
  unfold objectPath.get. rewrite Hlp', Hsplit, get_keys_app, Hpar.
  cbn. rewrite Hf. now destruct v.
Qed.

(** The definition that [changeFieldType] reads back from the object it
    has just built. *)
Lemma fieldDefinitionSuper_found (v : JS) :
  assoc f pfs = Some v -> v <> JUndefined -> fieldDefinitionSuper l = v.
Proof.
  intros Hf Hv. pose proof (local_field v Hf) as Hold.
  pose proof (proj2 (String.eqb_neq _ _) Hlp) as Hlp'.
  unfold fieldDefinitionSuper, fieldDefinition0, objectPath.get, objectPath.set.
  unfold objectPath.get in Hold. rewrite Hlp', Hsplit in Hold. rewrite Hlp', Hsplit.
  rewrite Hold.
  apply chain_get; [exact Hnum | now destruct ks | exact Hv].
Qed.

(** The owner tree after [schema.remove(path)] and
    [schema.add(fieldDefinition)]. *)
Lemma retyped_definition (retyped : JS) :
  retyped <> JUndefined ->
  objectPath.get
    (tree (mongoose.add (mongoose.remove (Loc.schema l) (Loc.path l))
                        (objectPath.set (fieldDefinition0 l) (Loc.path l) retyped)))
    (Loc.path l)
  = retyped.
Proof.
  intros Hr. pose proof (proj2 (String.eqb_neq _ _) Hlp) as Hlp'.
  unfold mongoose.add, mongoose.remove. cbn [tree].
  unfold fieldDefinition0, objectPath.get, objectPath.set, objectPath.del.
  rewrite Hlp', Hsplit.
  rewrite (chain_set_twice _ _ _ Hnum) by (now destruct ks).
  destruct (deleted_leaf ks f _ pfs Hpar) as [pfs' [Hpar' Hf']].
  rewrite (merge_chain_plain ks f retyped Hnum _ pfs' Hpar' Hf').
  now apply (get_set_keys ks f retyped) with (pfs := pfs').
Qed.

End IndexRetyped.

(** The definition after the assignments of the [changeFieldType] of
    [index.js]. *)
Lemma index_retype_object (dfs : list (string * JS)) (newType defaultValue required : JS) :
  exists dfs',
    Index.retype (JObj dfs) newType defaultValue required = inr (JObj dfs')
    /\ assoc "type" dfs' = Some newType
    /\ assoc "default" dfs' = (if looseUndefined defaultValue then None else Some defaultValue)
    /\ assoc "required" dfs' = (if looseUndefined required then None else Some required)
    /\ (forall x, x <> "type" -> x <> "default" -> x <> "required" ->
                  assoc x dfs' = assoc x dfs).
Proof.
  eexists. split; [reflexivity|]. cbn beta zeta.
  destruct (looseUndefined defaultValue); destruct (looseUndefined required); cbn [negb];
    repeat split;
    repeat first
      [ rewrite assoc_assign_same
      | rewrite assoc_remove_key
      | rewrite assoc_assign_other by discriminate
      | rewrite assoc_remove_key_other by discriminate ];
    try reflexivity;
    intros x H1 H2 H3;
    repeat first
      [ rewrite assoc_assign_other by assumption
      | rewrite assoc_remove_key_other by assumption ];
    reflexivity.
Qed.

(** [X24] The [changeFieldType] of [index.js] changes the schema and
    nothing else.  The path resolves to a location whose local path is not
    empty and has no number key among its segments; the parent of the field
    is an object of the tree of the schema the path resolves in, and the
    definition of the field is an object; the new type is a well-formed
    definition.  Then the promise is resolved in the turn of the call, the
    documents are left as they are (no value is converted and no default is
    written), and the schema the path resolves in holds at the path a
    definition with the new type, with the default value when that is
    neither [undefined] nor [null], with [required] when that is neither
    [undefined] nor [null] (so [required: false] is written), and with the
    other properties of the definition before. *)
Theorem index_changeFieldType_retypes
        (m : Model) (p : string) (li : Loc.t) (newType defaultValue required : JS)
        (ks : list string) (f : string) (pfs dfs : list (string * JS)) :
  Index.getLastSchemaAndPaths (model_schema m) p = inr li ->
  Loc.path li <> "" ->
  JSString.split dot (Loc.path li) = (ks ++ [f])%list ->
  Forall (fun x => objectPath.isNumberKey x = false) (ks ++ [f]) ->
  objectPath.get_keys (tree (Loc.schema li)) ks = JObj pfs ->
  assoc f pfs = Some (JObj dfs) ->
  isDefinition newType = true ->
  let r := Index.changeFieldType m p newType defaultValue required in
  events r = [Settle (Resolved (JStr "Field type changed"))]
  /\ model_docs (final r) = model_docs m
  /\ (exists dfs',
        objectPath.get (tree (ownerAt (model_schema (final r)) (hops li))) (Loc.path li)
        = JObj dfs'
        /\ assoc "type" dfs' = Some newType
        /\ assoc "default" dfs'
           = (if looseUndefined defaultValue then None else Some defaultValue)
        /\ assoc "required" dfs'
           = (if looseUndefined required then None else Some required)
        /\ (forall x, x <> "type" -> x <> "default" -> x <> "required" ->
                      assoc x dfs' = assoc x dfs)).
Proof.
  intros Hli Hlp Hsplit Hnum Hpar Hf _ r.
  assert (Hsuper : fieldDefinitionSuper li = JObj dfs)
    by (apply (fieldDefinitionSuper_found li ks f pfs); try assumption; discriminate).
  destruct (index_resolution (model_schema m) p)
    as [[e [H1 _]] | [hs [lp [H1 [_ Hhv]]]]]; [congruence|].
  assert (El : li = Index.terminal (ownerAt (model_schema m) hs) lp (lastHopFull "" hs) hs)
    by congruence.
  assert (Hh : hops li = hs) by (rewrite El; apply index_hops_terminal).
  assert (Hown : Loc.schema li = ownerAt (model_schema m) hs) by (now rewrite El).
  assert (He : Loc.exists_ li = true).
  { pose proof (local_field li ks f pfs Hlp Hsplit Hpar _ Hf) as Hg.
    rewrite El in Hg |- *. cbn [Loc.exists_ Loc.schema Loc.path Index.terminal] in Hg |- *.
    now rewrite Hg. }
  rewrite <- Hh in Hhv. rewrite <- Hh in Hown.
  destruct (index_retype_object dfs newType defaultValue required)
    as [dfs' [Hr [Ht [Hd [Hq Ho]]]]].
  rewrite <- Hsuper in Hr.
  assert (E : r = {| events := [Settle (Resolved (JStr "Field type changed"))];
                     final := with_schema m
                                (updateOwner (model_schema m) (hops li)
                                   (fun s => mongoose.add
                                               (mongoose.remove s (Loc.path li))
                                               (objectPath.set (fieldDefinition0 li)
                                                               (Loc.path li) (JObj dfs')))) |}).
  { unfold r, Index.changeFieldType. rewrite Hli, He, Hr. cbn [negb app].
    apply String.eqb_neq in Hlp. now rewrite Hlp. }
  rewrite E. cbn [events final model_docs model_schema with_schema].
  split; [reflexivity|]. split; [reflexivity|].
  exists dfs'. split; [|now repeat split].
  rewrite (ownerAt_updateOwner _ _ _ Hhv), <- Hown.
  apply (retyped_definition li ks f pfs Hlp Hsplit Hnum Hpar). discriminate.
Qed.

(** The same field retyped by [index.js]: [required: false] is written. *)
Lemma index_changeFieldType_retypes_witness :
  let li := Index.terminal
              (mongoose.new (JObj [("b", JObj [("type", tString); ("trim", JBool true)])]))
              "b" "a.$[]" ["a"] in
  let r := Index.changeFieldType (model_of schema_typed docs_typed) "a.b"
                                 (JFun "Number") (JNum 0) (JBool false) in
  events r = [Settle (Resolved (JStr "Field type changed"))]
  /\ model_docs (final r) = docs_typed
  /\ (exists dfs',
        objectPath.get (tree (ownerAt (model_schema (final r)) (hops li))) (Loc.path li)
        = JObj dfs'
        /\ assoc "type" dfs' = Some (JFun "Number")
        /\ assoc "default" dfs' = Some (JNum 0)
        /\ assoc "required" dfs' = Some (JBool false)
        /\ (forall x, x <> "type" -> x <> "default" -> x <> "required" ->
                      assoc x dfs' = assoc x [("type", tString); ("trim", JBool true)])).
Proof.
  apply (index_changeFieldType_retypes
           (model_of schema_typed docs_typed) "a.b"
           (Index.terminal
              (mongoose.new (JObj [("b", JObj [("type", tString); ("trim", JBool true)])]))
              "b" "a.$[]" ["a"])
           (JFun "Number") (JNum 0) (JBool false) [] "b"
           [("b", JObj [("type", tString); ("trim", JBool true)])]
           [("type", tString); ("trim", JBool true)]).
  - reflexivity.
  - discriminate.
  - reflexivity.
  - repeat constructor.
  - reflexivity.
  - reflexivity.
  - reflexivity.
Defined.



(** Where a hop does not hold an array, the copy of the values raises. *)
Lemma moveForAllSubdocuments_without_array (doc : JS) (h : string) (rest : list string)
      (lastDestPath : string) :
  rest <> [] ->
  (forall es, objectPath.get doc h <> JArr es) ->
  exists e, Index.moveForAllSubdocuments doc (h :: rest) lastDestPath = inl e.
Proof.
  intros Hrest Hna. unfold Index.moveForAllSubdocuments.
  destruct rest as [|x rest]; [congruence|].
  cbn [Index.moveForAllSubdocumentsRecursive].
  destruct (objectPath.get doc h) eqn:E; try (eexists; reflexivity).
  exfalso. exact (Hna _ eq_refl).
Qed.

Lemma index_moveDocuments_stops (pre post : list JS) (doc : JS) (subPaths : list string)
      (lastDestPath : string) (e : Err) :
  Index.moveForAllSubdocuments doc subPaths lastDestPath = inl e ->
  forall moved,
    Index.moveDocuments pre subPaths lastDestPath = (moved, None) ->
    Index.moveDocuments (pre ++ doc :: post)%list subPaths lastDestPath = (moved, Some e)
    /\ List.length moved = List.length pre.
Proof.
  intros Hdoc. induction pre as [|d pre IH]; intros moved Hpre.
  - cbn [Index.moveDocuments] in Hpre. injection Hpre as <-.
    cbn [app Index.moveDocuments]. now rewrite Hdoc.
  - cbn [app Index.moveDocuments] in *.
    destruct (Index.moveForAllSubdocuments d subPaths lastDestPath) as [e0|d'];
      [discriminate|].
    destruct (Index.moveDocuments pre subPaths lastDestPath) as [mv th].
    injection Hpre as <- ->.
    destruct (IH mv eq_refl) as [-> Hlen]. split; [reflexivity|].
    cbn [List.length]. now rewrite Hlen.
Qed.

Lemma persisted_app (pre rest : list JS) :
  forall results : list (Err + JS),
    List.length results = List.length pre ->
    persisted (pre ++ rest)%list results = (persisted pre results ++ rest)%list.
Proof.
  induction pre as [|d pre IH]; intros [|[e|d'] results] H; cbn [List.length] in H;
    try discriminate.
  - cbn [app persisted]. now destruct rest.
  - cbn [app persisted]. rewrite IH by congruence. reflexivity.
  - cbn [app persisted]. rewrite IH by congruence. reflexivity.
Qed.

(** [X26] In [index.js] a document that does not hold an array at the
    first hop of the origin stops the move half way.  Origin and destination
    pass the checks of [moveSchemaField], the origin crossing an array; the
    search succeeds; the documents before the one without the array are
    copied without exception.  Then the promise is rejected with the
    exception of the copy, right after the search; the saves of the
    documents before that one are the only operations that follow, and what
    they store is all that changes in the collection: that document and the
    ones after it are left as they are; and the schema is the one that the
    addition of the destination left: the destination stays in the schema,
    next to the origin. *)
Theorem index_moveSchemaField_document_without_array
        (m : Model) (origin dest : string) (lo ld : Loc.t)
        (pre post moved : list JS) (doc : JS) (h : string) (rest : list string) :
  Index.getLastSchemaAndPaths (model_schema m) origin = inr lo ->
  Index.getLastSchemaAndPaths (model_schema m) dest = inr ld ->
  Loc.exists_ lo = true ->
  Loc.exists_ ld = false ->
  List.length (Loc.subPaths lo) = List.length (Loc.subPaths ld) ->
  sameSubdocument (Loc.subPaths lo) (Loc.subPaths ld) = true ->
  find (model_store m) (model_docs m) = None ->
  model_docs m = (pre ++ doc :: post)%list ->
  Loc.subPaths lo = h :: rest ->
  rest <> [] ->
  Index.moveDocuments pre (Loc.subPaths lo) (Loc.path ld) = (moved, None) ->
  (forall es, objectPath.get doc h <> JArr es) ->
  let added :=
    Index.addSchemaField m dest (objectPath.get (tree (Loc.schema lo)) (Loc.path lo)) in
  let r := Index.moveSchemaField m origin dest in
  let results := map (save (model_store m) h) moved in
  (exists e,
      Index.moveForAllSubdocuments doc (Loc.subPaths lo) (Loc.path ld) = inl e
      /\ events r
         = (Completed "find" true :: Settle (Rejected e) :: moveSaveCallbacks results)%list
      /\ outcome r = Rejected e)
  /\ model_docs (final r) = (persisted pre results ++ doc :: post)%list
  /\ outcome added = Resolved (JStr "Field added successfully")
  /\ model_schema (final r) = model_schema (final added).
Proof.
  intros Hlo Hld He1 He2 Hlen Hsame Hfind Hdocs Hsub Hrest Hpre Hna added r results.
  destruct (index_addSchemaField_resolves m dest
              (objectPath.get (tree (Loc.schema lo)) (Loc.path lo)) ld Hld He2)
    as [s' Hadd].
  fold added in Hadd.
  destruct (moveForAllSubdocuments_without_array doc h rest (Loc.path ld) Hrest Hna)
    as [e He].
  rewrite <- Hsub in He.
  destruct (index_moveDocuments_stops pre post doc _ _ e He moved Hpre) as [Hall Hlm].
  assert (Hr : r = {| events := (Completed "find" true :: Settle (Rejected e)
                                   :: moveSaveCallbacks results)%list;
                      final := with_docs (with_schema m s')
                                 (persisted (pre ++ doc :: post) results) |}).
  { unfold r, Index.moveSchemaField.
    rewrite Hlo, Hld, He1, He2, Hlen, Nat.eqb_refl, Hsame. cbn [negb].
    fold added. rewrite Hadd, then_of_resolve.
    cbn [model_store model_docs with_schema]. rewrite Hfind, Hdocs, Hall.
    rewrite Hsub. cbn [hd]. reflexivity. }
  rewrite Hr, Hadd. cbn [events final model_docs model_schema with_docs with_schema].
  split; [exists e; now repeat split|].
  split; [|now split].
  apply persisted_app. unfold results. now rewrite length_map.
Qed.

(** Of two documents the second holds no array [a]: the first is copied
    and saved, with the value of [b] written at [e], the second is left, and
    the destination [e] is in the schema of the elements. *)
Lemma index_moveSchemaField_document_without_array_witness :
  let r := Index.moveSchemaField
             (model_of schema_ab (docs_ab ++ [JObj [("d", JStr "w")]])) "a.b" "a.e" in
  (exists e, outcome r = Rejected e)
  /\ (exists saved, model_docs (final r) = [saved; JObj [("d", JStr "w")]]
                    /\ objectPath.get saved "a.0.e" = JStr "x")
  /\ objectPath.get (tree (ownerAt (model_schema (final r)) ["a"])) "e" = tString.
Proof.
  destruct (index_moveSchemaField_document_without_array
              (model_of schema_ab (docs_ab ++ [JObj [("d", JStr "w")]])) "a.b" "a.e"
              (Index.terminal (mongoose.new (JObj [("b", tString); ("c", tString)]))
                              "b" "a.$[]" ["a"])
              (Index.terminal (mongoose.new (JObj [("b", tString); ("c", tString)]))
                              "e" "a.$[]" ["a"])
              docs_ab [] _ (JObj [("d", JStr "w")]) "a" ["b"]
              eq_refl eq_refl eq_refl eq_refl eq_refl eq_refl eq_refl eq_refl eq_refl
              ltac:(discriminate) eq_refl ltac:(intros es; discriminate))
    as [[e [_ [_ H1]]] [H2 [_ H4]]].
  split; [exists e; exact H1|]. split.
  - eexists. split; [exact H2 | reflexivity].
  - rewrite H4. reflexivity.
Defined.
